(** * Egress gateway manager: reconciliation engine

    A shallow embedding of [pkg/egressgateway/manager.go] (package
    [egressgateway]) and proofs of the properties its specification states.

    Conventions of the embedding:
    - a Go map is a [gmap]; a Go slice is a [list];
    - [*PolicyConfig] pointers are locations into an explicit [heap] of
      policy objects, because [policyConfigs] and [policyConfigsBySourceIP]
      alias the same objects and the reconciler mutates them in place;
    - the order in which Go ranges over a map is unspecified: every such
      loop asks a schedule ([range]) for the order, and the theorems hold
      for every schedule that enumerates the map;
    - calls to the external collaborators (policy map, netlink) are appended
      to a log, [calls], and may fail as decided by the schedule
      ([callFails]);
    - an IPv4 address is its 32-bit value;
    - what the file uses from the rest of the package and from other
      packages (policy configuration, policy map, netlink helpers, work
      queue) is modelled from the specification and marked as such. *)

From stdpp Require Import gmap strings list fin_maps sorting pretty.
From Stdlib Require Import ZArith OrdersEx.

Open Scope Z_scope.

(** ** Addresses and prefixes *)

(** [net.IP] restricted to IPv4: the address as an unsigned 32-bit number. *)
Abbreviation IP := N (only parsing).

Definition IPv4 (a b c d : N) : IP :=
  (N.shiftl a 24 + N.shiftl b 16 + N.shiftl c 8 + d)%N.

(** [net.IP.String]: dotted decimal. *)
Definition ip_String (ip : IP) : string :=
  pretty (N.shiftr ip 24 mod 256)%N +:+ "." +:+
  pretty (N.shiftr ip 16 mod 256)%N +:+ "." +:+
  pretty (N.shiftr ip 8 mod 256)%N +:+ "." +:+
  pretty (ip mod 256)%N.

(** [net.IP.Equal] *)
Definition ip_Equal (a b : IP) : bool := bool_decide (a = b).

(** [net.IPNet]: network address and number of leading ones of the mask. *)
Record IPNet := mkIPNet { netIP : IP; netOnes : N }.

Global Instance IPNet_eq_dec : EqDecision IPNet.
Proof. solve_decision. Defined.

Global Instance IPNet_countable : Countable IPNet.
Proof.
  apply (inj_countable' (λ c, (netIP c, netOnes c)) (λ p, mkIPNet p.1 p.2)).
  by intros [].
Defined.

(** [GatewayNotFoundIPv4] is the gateway written to the policy map when no
    gateway was found for the policy. *)
Definition GatewayNotFoundIPv4 : IP := IPv4 0 0 0 0.

(** [ExcludedCIDRIPv4] is the gateway written to the policy map for an
    excluded CIDR. *)
Definition ExcludedCIDRIPv4 : IP := IPv4 0 0 0 1.

(** ** Event bits *)

Definition eventType := Z.

Definition eventNone : eventType := Z.shiftl 1 0.
Definition eventK8sSyncDone : eventType := Z.shiftl 1 1.
Definition eventAddPolicy : eventType := Z.shiftl 1 2.
Definition eventDeletePolicy : eventType := Z.shiftl 1 3.
Definition eventUpdateNode : eventType := Z.shiftl 1 4.
Definition eventDeleteNode : eventType := Z.shiftl 1 5.
Definition eventUpdateEndpoint : eventType := Z.shiftl 1 6.
Definition eventDeleteEndpoint : eventType := Z.shiftl 1 7.

(** ** Data model *)

(** [types.NamespacedName]; both [policyID] and [endpointID] are this type. *)
Record NamespacedName := mkNamespacedName { nnNamespace : string; nnName : string }.

Global Instance NamespacedName_eq_dec : EqDecision NamespacedName.
Proof. solve_decision. Defined.

Global Instance NamespacedName_countable : Countable NamespacedName.
Proof.
  apply (inj_countable' (λ n, (nnNamespace n, nnName n))
                        (λ p, mkNamespacedName p.1 p.2)).
  by intros [].
Defined.

Abbreviation policyID := NamespacedName (only parsing).
Abbreviation endpointID := NamespacedName (only parsing).
Abbreviation Labels := (gmap string string) (only parsing).

(** Modelled from the spec: the declaration of [endpointMetadata] is not in
    the source file; the spec gives its attributes as id, ips and labels. *)
Record endpointMetadata := mkEndpointMetadata {
  epID : endpointID;
  epIPs : list IP;
  epLabels : Labels
}.

(** Modelled from the spec: the declaration of [nodeTypes.Node] is not in the
    source file; the manager itself only reads [Name]. *)
Record Node := mkNode { nodeName : string; nodeAddresses : list IP }.

(** Modelled from the spec: the declaration of [gatewayConfig] is not in the
    source file; the manager reads [egressIP.IP], [ifaceIndex], [gatewayIP]
    and [localNodeConfiguredAsGateway]. *)
Record gatewayConfig := mkGatewayConfig {
  egressIP : IPNet;
  ifaceIndex : Z;
  gatewayIP : IP;
  localNodeConfiguredAsGateway : bool
}.

(** Modelled from the spec: the declaration of [PolicyConfig] is not in the
    source file.  The selectors are opaque predicates on endpoint metadata;
    the part of the policy from which the gateway configuration is
    recomputed is the function [policyGwConfig] of the sorted node slice. *)
Record PolicyConfig := mkPolicyConfig {
  policyId : policyID;
  selectsEndpoint : endpointMetadata → bool;
  policyGwConfig : list Node → gatewayConfig;
  dstCIDRs : list IPNet;
  excludedCIDRs : list IPNet;
  matchedEndpoints : gmap endpointID endpointMetadata;
  policyGatewayConfig : gatewayConfig
}.

Definition set_matchedEndpoints (me : gmap endpointID endpointMetadata)
    (c : PolicyConfig) : PolicyConfig :=
  mkPolicyConfig (policyId c) (selectsEndpoint c) (policyGwConfig c)
    (dstCIDRs c) (excludedCIDRs c) me (policyGatewayConfig c).

Definition set_gatewayConfig (g : gatewayConfig) (c : PolicyConfig) : PolicyConfig :=
  mkPolicyConfig (policyId c) (selectsEndpoint c) (policyGwConfig c)
    (dstCIDRs c) (excludedCIDRs c) (matchedEndpoints c) g.

(** Modelled from the spec: the declaration of [k8sTypes.CiliumEndpoint] is
    not in the source file.  [cepNetworking] is what endpoint metadata is
    built from; it is absent when the object has no usable addressing. *)
Record EndpointIdentity := mkEndpointIdentity { identityID : Z }.

Record CiliumEndpoint := mkCiliumEndpoint {
  cepName : string;
  cepNamespace : string;
  cepIdentity : EndpointIdentity;
  cepNetworking : option (list IP)
}.

(** [endpointEvent]: [endpoint] is a pointer, [None] is nil. *)
Record endpointEvent := mkEndpointEvent {
  evType : eventType;
  evEndpoint : option CiliumEndpoint
}.

(** ** The policy map (external) *)

(** Modelled from the spec: [egressmap.EgressPolicyKey4] and
    [egressmap.EgressPolicyVal4] are not in the source file.  A key is a
    source address and a destination CIDR, a value an egress address and a
    gateway address. *)
Record EgressPolicyKey4 := mkEgressPolicyKey4 { keySourceIP : IP; keyDestCIDR : IPNet }.
Record EgressPolicyVal4 := mkEgressPolicyVal4 { valEgressIP : IP; valGatewayIP : IP }.

Global Instance EgressPolicyKey4_eq_dec : EqDecision EgressPolicyKey4.
Proof. solve_decision. Defined.

Global Instance EgressPolicyKey4_countable : Countable EgressPolicyKey4.
Proof.
  apply (inj_countable' (λ k, (keySourceIP k, keyDestCIDR k))
                        (λ p, mkEgressPolicyKey4 p.1 p.2)).
  by intros [].
Defined.

Global Instance EgressPolicyVal4_eq_dec : EqDecision EgressPolicyVal4.
Proof. solve_decision. Defined.

Definition NewEgressPolicyKey4 (sourceIP : IP) (dstCIDR : IPNet) : EgressPolicyKey4 :=
  mkEgressPolicyKey4 sourceIP dstCIDR.

(** Key match compares the source address and the destination CIDR,
    prefix length included. *)
Definition key_Match (k : EgressPolicyKey4) (sourceIP : IP) (dstCIDR : IPNet) : bool :=
  ip_Equal (keySourceIP k) sourceIP && bool_decide (keyDestCIDR k = dstCIDR).

(** Value match compares the egress address and the gateway address. *)
Definition val_Match (v : EgressPolicyVal4) (egress gateway : IP) : bool :=
  ip_Equal (valEgressIP v) egress && ip_Equal (valGatewayIP v) gateway.

(** ** The host route table (external) *)

(** Modelled from the spec: [netlink.Rule] and [netlink.Route] are not in the
    source file; only the fields the manager reads are kept. *)
Record Rule := mkRule { rulePriority : Z; ruleSrc : IPNet; ruleDst : IPNet; ruleTable : Z }.
Record Route := mkRoute { routeLinkIndex : Z; routeTable : Z; routeDst : IPNet }.

Global Instance Rule_eq_dec : EqDecision Rule.
Proof. solve_decision. Defined.

Global Instance Route_eq_dec : EqDecision Route.
Proof. solve_decision. Defined.

Record Host := mkHost { hostRules : list Rule; hostRoutes : list Route }.

(** Calls issued to the external collaborators. *)
Inductive Call :=
  | PolicyMapIterate
  | PolicyMapUpdate (k : EgressPolicyKey4) (v : EgressPolicyVal4)
  | PolicyMapDelete (k : EgressPolicyKey4)
  | RuleListTable (table : Z)
  | RuleList
  | RuleAdd (r : Rule)
  | RuleDel (r : Rule)
  | RouteList
  | RouteReplace (egress : IPNet) (iface : Z)
  | RouteDel (rt : Route).

(** ** Identity allocator and work queue (external) *)

Record IdentityAllocator := mkIdentityAllocator {
  (** [true] when [WaitForInitialGlobalIdentities] returns without error *)
  WaitForInitialGlobalIdentities : bool;
  (** [None] is the nil identity *)
  LookupIdentityByID : Z → option Labels
}.

(** Modelled from the spec: the rate-limited work queue of endpoint ids.
    Delays are not modelled; [numRequeues] counts the rate-limited additions
    of an item since it was last forgotten. *)
Record WorkQueue := mkWorkQueue {
  queueItems : list endpointID;
  numRequeues : gmap endpointID nat
}.

Definition queue_Add (id : endpointID) (q : WorkQueue) : WorkQueue :=
  if bool_decide (id ∈ queueItems q) then q
  else mkWorkQueue (queueItems q ++ [id]) (numRequeues q).

Definition queue_AddRateLimited (id : endpointID) (q : WorkQueue) : WorkQueue :=
  let q' := mkWorkQueue (queueItems q)
              (<[id := S (default 0%nat (numRequeues q !! id))]> (numRequeues q)) in
  queue_Add id q'.

Definition queue_Forget (id : endpointID) (q : WorkQueue) : WorkQueue :=
  mkWorkQueue (queueItems q) (delete id (numRequeues q)).

Definition queue_Done (id : endpointID) (q : WorkQueue) : WorkQueue := q.

Definition queue_Get (q : WorkQueue) : option (endpointID * WorkQueue) :=
  match queueItems q with
  | [] => None
  | id :: rest => Some (id, mkWorkQueue rest (numRequeues q))
  end.

(** ** The manager *)

(** Location of a [PolicyConfig] object. *)
Abbreviation loc := positive (only parsing).

Record Manager := mkManager {
  (** [cacheStatus.Synchronized()] *)
  cacheStatus : bool;
  nodeDataStore : gmap string Node;
  nodes : list Node;
  policyConfigs : gmap policyID loc;
  policyConfigsBySourceIP : gmap string (list loc);
  epDataStore : gmap endpointID endpointMetadata;
  pendingEndpointEvents : gmap endpointID endpointEvent;
  endpointEventsQueue : WorkQueue;
  identityAllocator : IdentityAllocator;
  installRoutes : bool;
  (** content of the kernel policy map behind [policyMap] *)
  policyMap : gmap EgressPolicyKey4 EgressPolicyVal4;
  eventsBitmap : eventType;
  (** reasons passed to [reconciliationTrigger.TriggerWithReason], oldest first *)
  reconciliationTrigger : list string;
  (** the [PolicyConfig] objects the pointers above refer to *)
  heap : gmap loc PolicyConfig;
  (** ip rules and routes of the host *)
  host : Host;
  (** calls issued to the policy map and to netlink, oldest first *)
  calls : list Call
}.

Definition set_nodeDataStore x (m : Manager) : Manager :=
  mkManager (cacheStatus m) x (nodes m) (policyConfigs m) (policyConfigsBySourceIP m)
    (epDataStore m) (pendingEndpointEvents m) (endpointEventsQueue m) (identityAllocator m)
    (installRoutes m) (policyMap m) (eventsBitmap m) (reconciliationTrigger m) (heap m)
    (host m) (calls m).
Definition set_nodes x (m : Manager) : Manager :=
  mkManager (cacheStatus m) (nodeDataStore m) x (policyConfigs m) (policyConfigsBySourceIP m)
    (epDataStore m) (pendingEndpointEvents m) (endpointEventsQueue m) (identityAllocator m)
    (installRoutes m) (policyMap m) (eventsBitmap m) (reconciliationTrigger m) (heap m)
    (host m) (calls m).
Definition set_policyConfigs x (m : Manager) : Manager :=
  mkManager (cacheStatus m) (nodeDataStore m) (nodes m) x (policyConfigsBySourceIP m)
    (epDataStore m) (pendingEndpointEvents m) (endpointEventsQueue m) (identityAllocator m)
    (installRoutes m) (policyMap m) (eventsBitmap m) (reconciliationTrigger m) (heap m)
    (host m) (calls m).
Definition set_policyConfigsBySourceIP x (m : Manager) : Manager :=
  mkManager (cacheStatus m) (nodeDataStore m) (nodes m) (policyConfigs m) x
    (epDataStore m) (pendingEndpointEvents m) (endpointEventsQueue m) (identityAllocator m)
    (installRoutes m) (policyMap m) (eventsBitmap m) (reconciliationTrigger m) (heap m)
    (host m) (calls m).
Definition set_epDataStore x (m : Manager) : Manager :=
  mkManager (cacheStatus m) (nodeDataStore m) (nodes m) (policyConfigs m) (policyConfigsBySourceIP m)
    x (pendingEndpointEvents m) (endpointEventsQueue m) (identityAllocator m)
    (installRoutes m) (policyMap m) (eventsBitmap m) (reconciliationTrigger m) (heap m)
    (host m) (calls m).
Definition set_pendingEndpointEvents x (m : Manager) : Manager :=
  mkManager (cacheStatus m) (nodeDataStore m) (nodes m) (policyConfigs m) (policyConfigsBySourceIP m)
    (epDataStore m) x (endpointEventsQueue m) (identityAllocator m)
    (installRoutes m) (policyMap m) (eventsBitmap m) (reconciliationTrigger m) (heap m)
    (host m) (calls m).
Definition set_endpointEventsQueue x (m : Manager) : Manager :=
  mkManager (cacheStatus m) (nodeDataStore m) (nodes m) (policyConfigs m) (policyConfigsBySourceIP m)
    (epDataStore m) (pendingEndpointEvents m) x (identityAllocator m)
    (installRoutes m) (policyMap m) (eventsBitmap m) (reconciliationTrigger m) (heap m)
    (host m) (calls m).
Definition set_policyMap x (m : Manager) : Manager :=
  mkManager (cacheStatus m) (nodeDataStore m) (nodes m) (policyConfigs m) (policyConfigsBySourceIP m)
    (epDataStore m) (pendingEndpointEvents m) (endpointEventsQueue m) (identityAllocator m)
    (installRoutes m) x (eventsBitmap m) (reconciliationTrigger m) (heap m)
    (host m) (calls m).
Definition set_eventsBitmap x (m : Manager) : Manager :=
  mkManager (cacheStatus m) (nodeDataStore m) (nodes m) (policyConfigs m) (policyConfigsBySourceIP m)
    (epDataStore m) (pendingEndpointEvents m) (endpointEventsQueue m) (identityAllocator m)
    (installRoutes m) (policyMap m) x (reconciliationTrigger m) (heap m)
    (host m) (calls m).
Definition set_reconciliationTrigger x (m : Manager) : Manager :=
  mkManager (cacheStatus m) (nodeDataStore m) (nodes m) (policyConfigs m) (policyConfigsBySourceIP m)
    (epDataStore m) (pendingEndpointEvents m) (endpointEventsQueue m) (identityAllocator m)
    (installRoutes m) (policyMap m) (eventsBitmap m) x (heap m)
    (host m) (calls m).
Definition set_heap x (m : Manager) : Manager :=
  mkManager (cacheStatus m) (nodeDataStore m) (nodes m) (policyConfigs m) (policyConfigsBySourceIP m)
    (epDataStore m) (pendingEndpointEvents m) (endpointEventsQueue m) (identityAllocator m)
    (installRoutes m) (policyMap m) (eventsBitmap m) (reconciliationTrigger m) x
    (host m) (calls m).
Definition set_host x (m : Manager) : Manager :=
  mkManager (cacheStatus m) (nodeDataStore m) (nodes m) (policyConfigs m) (policyConfigsBySourceIP m)
    (epDataStore m) (pendingEndpointEvents m) (endpointEventsQueue m) (identityAllocator m)
    (installRoutes m) (policyMap m) (eventsBitmap m) (reconciliationTrigger m) (heap m)
    x (calls m).
Definition set_calls x (m : Manager) : Manager :=
  mkManager (cacheStatus m) (nodeDataStore m) (nodes m) (policyConfigs m) (policyConfigsBySourceIP m)
    (epDataStore m) (pendingEndpointEvents m) (endpointEventsQueue m) (identityAllocator m)
    (installRoutes m) (policyMap m) (eventsBitmap m) (reconciliationTrigger m) (heap m)
    (host m) x.

(** [NewEgressGatewayManager]: the manager starts with empty caches. *)
Definition NewEgressGatewayManager (alloc : IdentityAllocator) (routes : bool)
    (pm : gmap EgressPolicyKey4 EgressPolicyVal4) (h : Host) : Manager :=
  mkManager false ∅ [] ∅ ∅ ∅ ∅ (mkWorkQueue [] ∅) alloc routes pm 0 [] ∅ h [].

(** [TriggerWithReason]: the trigger only records the reason; the reconciler
    runs later as a step of its own. *)
Definition TriggerWithReason (reason : string) (m : Manager) : Manager :=
  set_reconciliationTrigger (reconciliationTrigger m ++ [reason]) m.

Definition setEventBitmap (events : list eventType) (m : Manager) : Manager :=
  foldl (λ m e, set_eventsBitmap (Z.lor (eventsBitmap m) e) m) m events.

Definition eventBitmapIsSet (events : list eventType) (m : Manager) : bool :=
  existsb (λ e, negb (Z.land (eventsBitmap m) e =? 0)) events.

(** Outcome of code that can dereference a nil pointer. *)
Inductive Result (A : Type) :=
  | Ok (a : A)
  | Panic.
Arguments Ok {A} a.
Arguments Panic {A}.

(** The conversion [uint32(x)]. *)
Definition uint32 (x : Z) : Z := x mod 2 ^ 32.

(** [getIdentityLabels]: [None] stands for the returned error. *)
Definition getIdentityLabels (m : Manager) (securityIdentity : Z) : option Labels :=
  if negb (WaitForInitialGlobalIdentities (identityAllocator m)) then None
  else match LookupIdentityByID (identityAllocator m) securityIdentity with
       | None => None
       | Some labels => Some labels
       end.

(** Modelled from the spec: [getEndpointMetadata] is not in the source file.
    The metadata carries the namespaced name of the endpoint, its IPv4
    addresses and the identity labels; construction fails when the endpoint
    has no addressing. *)
Definition getEndpointMetadata (endpoint : CiliumEndpoint) (identityLabels : Labels)
    : option endpointMetadata :=
  match cepNetworking endpoint with
  | None => None
  | Some ips =>
      Some (mkEndpointMetadata
              (mkNamespacedName (cepNamespace endpoint) (cepName endpoint))
              ips identityLabels)
  end.

(** Modelled from the spec: [updateMatchedEndpointIDs] is not in the source
    file; it re-evaluates the selectors of the policy against [epDataStore]. *)
Definition updateMatchedEndpointIDs (epDataStore : gmap endpointID endpointMetadata)
    (config : PolicyConfig) : PolicyConfig :=
  set_matchedEndpoints
    (filter (λ kv, selectsEndpoint config kv.2 = true) epDataStore) config.

(** ** Event handlers *)

(** [OnAddEgressPolicy]: [&config] is a fresh object. *)
Definition OnAddEgressPolicy (config : PolicyConfig) (m : Manager) : Manager :=
  let config := updateMatchedEndpointIDs (epDataStore m) config in
  let p := fresh (dom (heap m)) in
  let m := set_heap (<[p := config]> (heap m)) m in
  let m := set_policyConfigs (<[policyId config := p]> (policyConfigs m)) m in
  let m := setEventBitmap [eventAddPolicy] m in
  TriggerWithReason "policy added" m.

Definition OnDeleteEgressPolicy (configID : policyID) (m : Manager) : Manager :=
  match policyConfigs m !! configID with
  | None => m
  | Some _ =>
      let m := set_policyConfigs (delete configID (policyConfigs m)) m in
      let m := setEventBitmap [eventDeletePolicy] m in
      TriggerWithReason "policy deleted" m
  end.

Definition endpointEventIsPending (id : endpointID) (m : Manager) : bool :=
  bool_decide (is_Some (pendingEndpointEvents m !! id)).

Definition addEndpoint (id : endpointID) (m : Manager) : Result Manager :=
  match pendingEndpointEvents m !! id with
  | None => Ok m
  | Some epEvent =>
      match evEndpoint epEvent with
      | None => Panic (* endpoint.Name on a nil endpoint *)
      | Some endpoint =>
          match getIdentityLabels m (uint32 (identityID (cepIdentity endpoint))) with
          | None => Ok m
          | Some identityLabels =>
              let m := set_pendingEndpointEvents (delete id (pendingEndpointEvents m)) m in
              match getEndpointMetadata endpoint identityLabels with
              | None => Ok m
              | Some epData =>
                  let m := set_epDataStore (<[epID epData := epData]> (epDataStore m)) m in
                  let m := setEventBitmap [eventUpdateEndpoint] m in
                  Ok (TriggerWithReason "endpoint updated" m)
              end
          end
      end
  end.

Definition deleteEndpoint (id : endpointID) (m : Manager) : Manager :=
  let m := set_epDataStore (delete id (epDataStore m)) m in
  let m := set_pendingEndpointEvents (delete id (pendingEndpointEvents m)) m in
  let m := setEventBitmap [eventDeleteEndpoint] m in
  TriggerWithReason "endpoint deleted" m.

Definition OnUpdateEndpoint (endpoint : CiliumEndpoint) (m : Manager) : Manager :=
  let id := mkNamespacedName (cepNamespace endpoint) (cepName endpoint) in
  let m := set_pendingEndpointEvents
             (<[id := mkEndpointEvent eventUpdateEndpoint (Some endpoint)]>
                (pendingEndpointEvents m)) m in
  set_endpointEventsQueue (queue_Add id (endpointEventsQueue m)) m.

Definition OnDeleteEndpoint (endpoint : CiliumEndpoint) (m : Manager) : Manager :=
  let id := mkNamespacedName (cepNamespace endpoint) (cepName endpoint) in
  let m := set_pendingEndpointEvents
             (<[id := mkEndpointEvent eventDeleteEndpoint None]>
                (pendingEndpointEvents m)) m in
  set_endpointEventsQueue (queue_Add id (endpointEventsQueue m)) m.

(** One iteration of the loop of [processCiliumEndpoints], for an item the
    queue returned, run without interference from the handlers. *)
Definition processCiliumEndpoints_item (id : endpointID) (m : Manager) : Result Manager :=
  let r :=
    match pendingEndpointEvents m !! id with
    | Some epEvent =>
        if bool_decide (evType epEvent = eventUpdateEndpoint) then addEndpoint id m
        else if bool_decide (evType epEvent = eventDeleteEndpoint) then Ok (deleteEndpoint id m)
        else Ok m
    | None => Ok m
    end in
  match r with
  | Panic => Panic
  | Ok m =>
      let q := endpointEventsQueue m in
      let q := if endpointEventIsPending id m then queue_AddRateLimited id q
               else queue_Forget id q in
      Ok (set_endpointEventsQueue (queue_Done id q) m)
  end.

(** ** Schedules and the code outside the file *)

(** What is left open by the language and by the environment: the order of
    a [range] over a map, and which external calls fail, given the calls
    issued so far. *)
Record Sched := mkSched {
  range : ∀ (K : Type) (EqK : EqDecision K) (CK : Countable K) (V : Type),
            gmap K V → list (K * V);
  callFails : list Call → Call → bool
}.
Arguments range _ {K _ _ V} _.

(** A schedule enumerates a map when every [range] visits each entry once. *)
Definition enumerates (s : Sched) : Prop :=
  ∀ (K : Type) (EqK : EqDecision K) (CK : Countable K) (V : Type) (m : gmap K V),
    range s m ≡ₚ map_to_list m.

(** Modelled from the spec: helpers of the package that are not in the
    source file.  [destinationMinusExcludedCIDRs] yields the effective
    destination CIDRs of a policy; [egressGatewayRoutingTableIdx] is the
    routing table of an interface; [RulePriorityEgressGateway] tags the ip
    rules of the egress gateway. *)
Record Env := mkEnv {
  destinationMinusExcludedCIDRs : list IPNet → list IPNet → list IPNet;
  egressGatewayRoutingTableIdx : Z → Z;
  RulePriorityEgressGateway : Z
}.

(** ** Node order *)

(** [a.Name < b.Name] on Go strings: lexicographic on bytes. *)
Definition name_lt (a b : string) : Prop := String_as_OT.compare a b = Lt.
Definition node_less (a b : Node) : Prop := name_lt (nodeName a) (nodeName b).
Definition node_le (a b : Node) : Prop := ¬ node_less b a.

Global Instance name_lt_dec a b : Decision (name_lt a b).
Proof. unfold name_lt. solve_decision. Defined.
Global Instance node_less_dec a b : Decision (node_less a b).
Proof. unfold node_less. apply _. Defined.
Global Instance node_le_dec a b : Decision (node_le a b).
Proof. unfold node_le. apply _. Defined.

(** [sort.Slice(nodes, less)]; the sort of the Go library is replaced by a
    merge sort on the same order. *)
Definition sort_Slice_nodes (l : list Node) : list Node := merge_sort node_le l.

Section Reconciler.
Variable env : Env.
Variable sched : Sched.

(** [for _, v := range m] *)
Definition range_values {K} `{Countable K} {V} (m : gmap K V) : list V :=
  (range sched m).*2.

Definition onChangeNodeLocked (e : eventType) (m : Manager) : Manager :=
  let m := set_nodes [] m in
  let m := foldl (λ m n, set_nodes (nodes m ++ [n]) m) m (range_values (nodeDataStore m)) in
  let m := set_nodes (sort_Slice_nodes (nodes m)) m in
  let reason :=
    if bool_decide (e = eventUpdateNode) then "node updated"
    else if bool_decide (e = eventDeleteNode) then "node deleted"
    else "" in
  let m := setEventBitmap [e] m in
  TriggerWithReason reason m.

Definition OnUpdateNode (node : Node) (m : Manager) : Manager :=
  let m := set_nodeDataStore (<[nodeName node := node]> (nodeDataStore m)) m in
  onChangeNodeLocked eventUpdateNode m.

Definition OnDeleteNode (node : Node) (m : Manager) : Manager :=
  let m := set_nodeDataStore (delete (nodeName node) (nodeDataStore m)) m in
  onChangeNodeLocked eventDeleteNode m.

(** *** Index refresh *)

(** A loop over [policyConfigs] visits the objects the pointers refer to; a
    location that is not allocated cannot arise in Go and is skipped. *)
Definition updatePoliciesMatchedEndpointIDs (m : Manager) : Manager :=
  set_heap
    (foldl (λ h p, alter (updateMatchedEndpointIDs (epDataStore m)) p h)
       (heap m) (range_values (policyConfigs m))) m.

Definition updatePoliciesBySourceIP (m : Manager) : Manager :=
  set_policyConfigsBySourceIP
    (foldl (λ idx p,
       match heap m !! p with
       | None => idx
       | Some policy =>
           foldl (λ idx ep,
             foldl (λ idx epIP,
               let ip := ip_String epIP in
               <[ip := default [] (idx !! ip) ++ [p]]> idx)
               idx (epIPs ep))
             idx (range_values (matchedEndpoints policy))
       end) ∅ (range_values (policyConfigs m))) m.

Definition policyMatches (m : Manager) (sourceIP : IP)
    (f : IP → IPNet → bool → gatewayConfig → bool) : bool :=
  existsb (λ p,
    match heap m !! p with
    | None => false
    | Some policy =>
        existsb (λ ep,
          existsb (λ endpointIP,
            if negb (ip_Equal endpointIP sourceIP) then false
            else
              existsb (λ dstCIDR, f endpointIP dstCIDR false (policyGatewayConfig policy))
                (dstCIDRs policy)
              || existsb (λ excludedCIDR, f endpointIP excludedCIDR true (policyGatewayConfig policy))
                   (excludedCIDRs policy))
            (epIPs ep))
          (range_values (matchedEndpoints policy))
    end) (default [] (policyConfigsBySourceIP m !! ip_String sourceIP)).

Definition policyMatchesMinusExcludedCIDRs (m : Manager) (sourceIP : IP)
    (f : IP → IPNet → gatewayConfig → bool) : bool :=
  existsb (λ p,
    match heap m !! p with
    | None => false
    | Some policy =>
        let cidrs := destinationMinusExcludedCIDRs env (dstCIDRs policy) (excludedCIDRs policy) in
        existsb (λ ep,
          existsb (λ endpointIP,
            if negb (ip_Equal endpointIP sourceIP) then false
            else existsb (λ cidr, f endpointIP cidr (policyGatewayConfig policy)) cidrs)
            (epIPs ep))
          (range_values (matchedEndpoints policy))
    end) (default [] (policyConfigsBySourceIP m !! ip_String sourceIP)).

(** Modelled from the spec: [regenerateGatewayConfig] is not in the source
    file; it recomputes the gateway configuration of the policy from the
    policy and the sorted [nodes] slice. *)
Definition regenerateGatewayConfig (m : Manager) (config : PolicyConfig) : PolicyConfig :=
  set_gatewayConfig (policyGwConfig config (nodes m)) config.

Definition regenerateGatewayConfigs (m : Manager) : Manager :=
  set_heap
    (foldl (λ h p, alter (regenerateGatewayConfig m) p h)
       (heap m) (range_values (policyConfigs m))) m.

(** Modelled from the spec: [forEachEndpointAndCIDR] is not in the source
    file; it visits every endpoint address of the policy with every
    destination CIDR ([excluded] false) and every excluded CIDR ([excluded]
    true), in the order [policyMatches] does. *)
Definition forEachEndpointAndCIDR {S : Type} (config : PolicyConfig)
    (f : IP → IPNet → bool → gatewayConfig → S → S) (s : S) : S :=
  foldl (λ s ep,
    foldl (λ s endpointIP,
      let s := foldl (λ s dstCIDR, f endpointIP dstCIDR false (policyGatewayConfig config) s)
                 s (dstCIDRs config) in
      foldl (λ s excludedCIDR, f endpointIP excludedCIDR true (policyGatewayConfig config) s)
        s (excludedCIDRs config))
      s (epIPs ep))
    s (range_values (matchedEndpoints config)).

(** Modelled from the spec: [forEachEndpointAndDestination] is not in the
    source file; it visits every endpoint address of the policy with every
    effective destination CIDR. *)
Definition forEachEndpointAndDestination {S : Type} (config : PolicyConfig)
    (f : IP → IPNet → gatewayConfig → S → S) (s : S) : S :=
  let cidrs := destinationMinusExcludedCIDRs env (dstCIDRs config) (excludedCIDRs config) in
  foldl (λ s ep,
    foldl (λ s endpointIP,
      foldl (λ s cidr, f endpointIP cidr (policyGatewayConfig config) s) s cidrs)
      s (epIPs ep))
    s (range_values (matchedEndpoints config)).

(** *** External calls *)

(** Issue a call: log it and learn whether it succeeded. *)
Definition issue (c : Call) (m : Manager) : bool * Manager :=
  (negb (callFails sched (calls m) c), set_calls (calls m ++ [c]) m).

Definition policyMap_IterateWithCallback (m : Manager)
    : gmap EgressPolicyKey4 EgressPolicyVal4 * Manager :=
  (policyMap m, (issue PolicyMapIterate m).2).

Definition policyMap_Update (sourceIP : IP) (dstCIDR : IPNet) (egress gateway : IP)
    (m : Manager) : bool * Manager :=
  let k := NewEgressPolicyKey4 sourceIP dstCIDR in
  let v := mkEgressPolicyVal4 egress gateway in
  let '(ok, m) := issue (PolicyMapUpdate k v) m in
  (ok, if ok then set_policyMap (<[k := v]> (policyMap m)) m else m).

Definition policyMap_Delete (sourceIP : IP) (dstCIDR : IPNet) (m : Manager) : bool * Manager :=
  let k := NewEgressPolicyKey4 sourceIP dstCIDR in
  let '(ok, m) := issue (PolicyMapDelete k) m in
  (ok, if ok then set_policyMap (delete k (policyMap m)) m else m).

(** Modelled from the spec: the netlink helpers are not in the source file. *)
Definition isEgressRule (r : Rule) : bool :=
  bool_decide (rulePriority r = RulePriorityEgressGateway env).

Definition listEgressIpRulesForRoutingTable (table : Z) (m : Manager)
    : option (list Rule) * Manager :=
  let '(ok, m) := issue (RuleListTable table) m in
  (if ok then
     Some (filter (λ r, isEgressRule r = true ∧ ruleTable r = table) (hostRules (host m)))
   else None, m).

Definition listEgressIpRules (m : Manager) : option (list Rule) * Manager :=
  let '(ok, m) := issue RuleList m in
  (if ok then Some (filter (λ r, isEgressRule r = true) (hostRules (host m))) else None, m).

Definition egressIPRuleMatches (r : Rule) (endpointIP : IP) (dstCIDR : IPNet) : bool :=
  ip_Equal (netIP (ruleSrc r)) endpointIP && bool_decide (ruleDst r = dstCIDR).

Definition newEgressIpRule (endpointIP : IP) (dstCIDR : IPNet) (table : Z) : Rule :=
  mkRule (RulePriorityEgressGateway env) (mkIPNet endpointIP 32) dstCIDR table.

Definition netlink_RuleAdd (r : Rule) (m : Manager) : bool * Manager :=
  let '(ok, m) := issue (RuleAdd r) m in
  (ok, if ok then set_host (mkHost (hostRules (host m) ++ [r]) (hostRoutes (host m))) m else m).

Definition deleteIpRule (r : Rule) (m : Manager) : Manager :=
  let '(ok, m) := issue (RuleDel r) m in
  if ok then set_host (mkHost (filter (λ r', r' ≠ r) (hostRules (host m))) (hostRoutes (host m))) m
  else m.

Definition addEgressIpRoutes (egress : IPNet) (iface : Z) (m : Manager) : bool * Manager :=
  let '(ok, m) := issue (RouteReplace egress iface) m in
  let rt := mkRoute iface (egressGatewayRoutingTableIdx env iface) egress in
  (ok, if ok then
         set_host (mkHost (hostRules (host m))
                     (filter (λ rt', rt' ≠ rt) (hostRoutes (host m)) ++ [rt])) m
       else m).

Definition netlink_RouteList (m : Manager) : option (list Route) * Manager :=
  let '(ok, m) := issue RouteList m in
  (if ok then Some (hostRoutes (host m)) else None, m).

Definition deleteIpRoute (rt : Route) (m : Manager) : Manager :=
  let '(ok, m) := issue (RouteDel rt) m in
  if ok then set_host (mkHost (hostRules (host m)) (filter (λ rt', rt' ≠ rt) (hostRoutes (host m)))) m
  else m.

(** *** IP rules and routes *)

Definition addMissingIpRulesAndRoutes (isRetry : bool) (m : Manager) : bool * Manager :=
  if negb (installRoutes m) then (false, m)
  else
    foldl (λ '(shouldRetry, m) p,
      match heap m !! p with
      | None => (shouldRetry, m)
      | Some policyConfig =>
          let gwc := policyGatewayConfig policyConfig in
          if negb (localNodeConfiguredAsGateway gwc)
             || bool_decide (size (matchedEndpoints policyConfig) = 0%nat)
          then (shouldRetry, m)
          else
            let routingTableIdx := egressGatewayRoutingTableIdx env (ifaceIndex gwc) in
            match listEgressIpRulesForRoutingTable routingTableIdx m with
            | (None, m) => (shouldRetry, m)
            | (Some ipRules, m) =>
                let addIPRulesForConfig (endpointIP : IP) (dstCIDR : IPNet)
                      (gwc : gatewayConfig) '(shouldRetry, m) :=
                  if existsb (λ ipRule, egressIPRuleMatches ipRule endpointIP dstCIDR) ipRules
                  then (shouldRetry, m)
                  else
                    let newRule := newEgressIpRule endpointIP dstCIDR routingTableIdx in
                    let '(ok, m) := netlink_RuleAdd newRule m in
                    if ok then (shouldRetry, m)
                    else if isRetry then (shouldRetry, m)
                    else (true, m) in
                let '(shouldRetry, m) :=
                  forEachEndpointAndDestination policyConfig addIPRulesForConfig
                    (shouldRetry, m) in
                let '(_, m) := addEgressIpRoutes (egressIP gwc) (ifaceIndex gwc) m in
                (shouldRetry, m)
            end
      end) (false, m) (range_values (policyConfigs m)).

Definition removeUnusedIpRulesAndRoutes (m : Manager) : Manager :=
  match listEgressIpRules m with
  | (None, m) => m
  | (Some ipRules, m) =>
      let m :=
        foldl (λ m ipRule,
          let matchFunc (endpointIP : IP) (dstCIDR : IPNet) (gwc : gatewayConfig) : bool :=
            if negb (installRoutes m) then false
            else if negb (localNodeConfiguredAsGateway gwc) then false
            else bool_decide (ruleDst ipRule = dstCIDR) in
          if policyMatchesMinusExcludedCIDRs m (netIP (ruleSrc ipRule)) matchFunc then m
          else deleteIpRule ipRule m) m ipRules in
      let activeEgressGwIfaceIndexes : gset Z :=
        foldl (λ active p,
          match heap m !! p with
          | None => active
          | Some policyConfig =>
              if bool_decide (size (matchedEndpoints policyConfig) ≠ 0%nat) then
                if localNodeConfiguredAsGateway (policyGatewayConfig policyConfig)
                then {[ifaceIndex (policyGatewayConfig policyConfig)]} ∪ active
                else active
              else active
          end) ∅ (range_values (policyConfigs m)) in
      match netlink_RouteList m with
      | (None, m) => m
      | (Some routes, m) =>
          foldl (λ m route,
            let linkIndex := routeLinkIndex route in
            if bool_decide (routeTable route ≠ egressGatewayRoutingTableIdx env linkIndex) then m
            else if bool_decide (linkIndex ∈ activeEgressGwIfaceIndexes) then m
            else deleteIpRoute route m) m routes
      end
  end.

(** *** Policy map *)

Definition addMissingEgressRules (m : Manager) : Manager :=
  let '(egressPolicies, m) := policyMap_IterateWithCallback m in
  let addEgressRule (endpointIP : IP) (dstCIDR : IPNet) (excludedCIDR : bool)
        (gwc : gatewayConfig) (m : Manager) : Manager :=
    let policyKey := NewEgressPolicyKey4 endpointIP dstCIDR in
    let gatewayIP := if excludedCIDR then ExcludedCIDRIPv4 else gatewayIP gwc in
    if match egressPolicies !! policyKey with
       | Some policyVal => val_Match policyVal (netIP (egressIP gwc)) gatewayIP
       | None => false
       end
    then m
    else (policyMap_Update endpointIP dstCIDR (netIP (egressIP gwc)) gatewayIP m).2 in
  foldl (λ m p,
    match heap m !! p with
    | None => m
    | Some policyConfig => forEachEndpointAndCIDR policyConfig addEgressRule m
    end) m (range_values (policyConfigs m)).

Definition removeUnusedEgressRules (m : Manager) : Manager :=
  let '(egressPolicies, m) := policyMap_IterateWithCallback m in
  foldl (λ m '(policyKey, policyVal),
    let matchPolicy (endpointIP : IP) (dstCIDR : IPNet) (excludedCIDR : bool)
          (gwc : gatewayConfig) : bool :=
      let gatewayIP := if excludedCIDR then ExcludedCIDRIPv4 else gatewayIP gwc in
      key_Match policyKey endpointIP dstCIDR
      && val_Match policyVal (netIP (egressIP gwc)) gatewayIP in
    if policyMatches m (keySourceIP policyKey) matchPolicy then m
    else (policyMap_Delete (keySourceIP policyKey) (keyDestCIDR policyKey) m).2)
    m (range sched egressPolicies).

(** *** The reconciler *)

Definition reconcileLocked (m : Manager) : Manager :=
  if negb (cacheStatus m) then m
  else
    let m :=
      if eventBitmapIsSet [eventUpdateEndpoint; eventDeleteEndpoint] m
      then updatePoliciesBySourceIP (updatePoliciesMatchedEndpointIDs m)
      else m in
    let m :=
      if eventBitmapIsSet [eventAddPolicy; eventDeletePolicy] m
      then updatePoliciesBySourceIP m
      else m in
    let m :=
      if eventBitmapIsSet [eventK8sSyncDone] m
      then updatePoliciesBySourceIP (updatePoliciesMatchedEndpointIDs m)
      else m in
    let m := regenerateGatewayConfigs m in
    let '(shouldRetry, m) := addMissingIpRulesAndRoutes false m in
    let m := removeUnusedIpRulesAndRoutes m in
    let m := if shouldRetry then (addMissingIpRulesAndRoutes true m).2 else m in
    let m := addMissingEgressRules m in
    let m := removeUnusedEgressRules m in
    set_eventsBitmap 0 m.

(** [runReconciliationAfterK8sSync]: the step taken when the cache status
    channel is closed. *)
Definition k8sSyncDone (m : Manager) : Manager :=
  let m := mkManager true (nodeDataStore m) (nodes m) (policyConfigs m)
             (policyConfigsBySourceIP m) (epDataStore m) (pendingEndpointEvents m)
             (endpointEventsQueue m) (identityAllocator m) (installRoutes m) (policyMap m)
             (eventsBitmap m) (reconciliationTrigger m) (heap m) (host m) (calls m) in
  let m := setEventBitmap [eventK8sSyncDone] m in
  TriggerWithReason "k8s sync done" m.

End Reconciler.

(** ** The endpoint worker next to the endpoint handlers *)

(** [OnUpdateEndpoint] and [OnDeleteEndpoint] do not take the manager mutex:
    they run between any two critical sections of the worker.  The worker
    is split where it releases [pendingEndpointEventsLock]: after
    [retryQueue.Get], after the read of the pending entry in
    [processCiliumEndpoints], and after the call it dispatches to. *)
Inductive WorkerState :=
  | WIdle
  | WGot (id : endpointID)
  | WRead (id : endpointID) (epEvent : option endpointEvent)
  | WHandled (id : endpointID).

Record System := mkSystem { sysManager : Manager; sysWorker : WorkerState }.

Inductive Action :=
  | ActOnUpdateEndpoint (endpoint : CiliumEndpoint)
  | ActOnDeleteEndpoint (endpoint : CiliumEndpoint)
  | ActWorker.

Definition workerStep (s : System) : Result System :=
  let m := sysManager s in
  match sysWorker s with
  | WIdle =>
      match queue_Get (endpointEventsQueue m) with
      | None => Ok s
      | Some (id, q) => Ok (mkSystem (set_endpointEventsQueue q m) (WGot id))
      end
  | WGot id => Ok (mkSystem m (WRead id (pendingEndpointEvents m !! id)))
  | WRead id None => Ok (mkSystem m (WHandled id))
  | WRead id (Some epEvent) =>
      if bool_decide (evType epEvent = eventUpdateEndpoint) then
        match addEndpoint id m with
        | Panic => Panic
        | Ok m => Ok (mkSystem m (WHandled id))
        end
      else if bool_decide (evType epEvent = eventDeleteEndpoint) then
        Ok (mkSystem (deleteEndpoint id m) (WHandled id))
      else Ok (mkSystem m (WHandled id))
  | WHandled id =>
      let q := endpointEventsQueue m in
      let q := if endpointEventIsPending id m then queue_AddRateLimited id q
               else queue_Forget id q in
      Ok (mkSystem (set_endpointEventsQueue (queue_Done id q) m) WIdle)
  end.

Definition act (a : Action) (s : System) : Result System :=
  match a with
  | ActOnUpdateEndpoint ep => Ok (mkSystem (OnUpdateEndpoint ep (sysManager s)) (sysWorker s))
  | ActOnDeleteEndpoint ep => Ok (mkSystem (OnDeleteEndpoint ep (sysManager s)) (sysWorker s))
  | ActWorker => workerStep s
  end.

Fixpoint run (acts : list Action) (s : System) : Result System :=
  match acts with
  | [] => Ok s
  | a :: acts =>
      match act a s with
      | Panic => Panic
      | Ok s => run acts s
      end
  end.

(** ** What the theorems speak about *)

(** Calls issued by [f] when started in [m]. *)
Definition issued (f : Manager → Manager) (m : Manager) : list Call :=
  drop (length (calls m)) (calls (f m)).

Definition isPolicyMapUpdate (c : Call) : bool :=
  match c with PolicyMapUpdate _ _ => true | _ => false end.
Definition isPolicyMapDelete (c : Call) : bool :=
  match c with PolicyMapDelete _ => true | _ => false end.
Definition isPolicyMapCall (c : Call) : bool :=
  match c with
  | PolicyMapIterate | PolicyMapUpdate _ _ | PolicyMapDelete _ => true
  | _ => false
  end.
Definition isRouteTableAdd (c : Call) : bool :=
  match c with RuleAdd _ | RouteReplace _ _ => true | _ => false end.
Definition isRouteTableDelete (c : Call) : bool :=
  match c with RuleDel _ | RouteDel _ => true | _ => false end.

(** Every update in the log comes before every delete. *)
Definition updatesPrecedeDeletes (tr : list Call) : Prop :=
  ∀ i j, (∃ c, tr !! i = Some c ∧ isPolicyMapUpdate c = true) →
         (∃ c, tr !! j = Some c ∧ isPolicyMapDelete c = true) → (i < j)%nat.

(** All writes to the policy map succeed. *)
Definition policyMapWritesSucceed (s : Sched) : Prop :=
  ∀ h c, isPolicyMapCall c = true → callFails s h c = false.

(** The entries a policy asks for: one per endpoint address and CIDR, with
    the gateway replaced by [ExcludedCIDRIPv4] for an excluded CIDR. *)
Definition policyEntry (P : PolicyConfig) (k : EgressPolicyKey4) (v : EgressPolicyVal4) : Prop :=
  ∃ id ep ip cidr,
    matchedEndpoints P !! id = Some ep ∧ ip ∈ epIPs ep ∧
    k = NewEgressPolicyKey4 ip cidr ∧
    ((cidr ∈ dstCIDRs P ∧
      v = mkEgressPolicyVal4 (netIP (egressIP (policyGatewayConfig P)))
            (gatewayIP (policyGatewayConfig P)))
     ∨ (cidr ∈ excludedCIDRs P ∧
        v = mkEgressPolicyVal4 (netIP (egressIP (policyGatewayConfig P))) ExcludedCIDRIPv4)).

(** The policy objects of the manager. *)
Definition policyAt (m : Manager) (p : loc) (P : PolicyConfig) : Prop :=
  (∃ id, policyConfigs m !! id = Some p) ∧ heap m !! p = Some P.

Definition wanted (m : Manager) (k : EgressPolicyKey4) (v : EgressPolicyVal4) : Prop :=
  ∃ p P, policyAt m p P ∧ policyEntry P k v.

(** No two policies (or CIDR lists of a policy) ask for different values
    under the same key. *)
Definition conflictFree (m : Manager) : Prop :=
  ∀ k v1 v2, wanted m k v1 → wanted m k v2 → v1 = v2.

(** The policy map holds exactly the wanted entries. *)
Definition policyMapExact (m : Manager) : Prop :=
  ∀ k v, policyMap m !! k = Some v ↔ wanted m k v.

(** [policyConfigsBySourceIP] lists under an address string exactly the
    policies with a matched endpoint of that address. *)
Definition indexCurrent (m : Manager) : Prop :=
  ∀ (s : string) (p : loc),
    p ∈ default [] (policyConfigsBySourceIP m !! s) ↔
    ∃ P id ep ip, policyAt m p P ∧ matchedEndpoints P !! id = Some ep ∧
                  ip ∈ epIPs ep ∧ ip_String ip = s.

(** A rebuild of the index is pending. *)
Definition rebuildPending (m : Manager) : bool :=
  eventBitmapIsSet [eventUpdateEndpoint; eventDeleteEndpoint; eventAddPolicy;
                    eventDeletePolicy; eventK8sSyncDone] m.

(** The index is current unless an event that rebuilds it is pending. *)
Definition indexInv (m : Manager) : Prop :=
  rebuildPending m = true ∨ indexCurrent m.

(** Every node is stored under its name. *)
Definition nodesByName (m : Manager) : Prop :=
  ∀ k n, nodeDataStore m !! k = Some n → nodeName n = k.

(** A pending update event holds its endpoint. *)
Definition pendingUpdatesHoldEndpoint (m : Manager) : Prop :=
  ∀ id epEvent, pendingEndpointEvents m !! id = Some epEvent →
                evType epEvent = eventUpdateEndpoint → is_Some (evEndpoint epEvent).

(** The states of the manager: what the handlers, the worker and the
    reconciler produce from a new manager, each run under the mutex. *)
Inductive reachable (env : Env) : Manager → Prop :=
  | reach_new alloc routes pm h :
      reachable env (NewEgressGatewayManager alloc routes pm h)
  | reach_OnAddEgressPolicy m config :
      reachable env m → reachable env (OnAddEgressPolicy config m)
  | reach_OnDeleteEgressPolicy m id :
      reachable env m → reachable env (OnDeleteEgressPolicy id m)
  | reach_OnUpdateEndpoint m ep :
      reachable env m → reachable env (OnUpdateEndpoint ep m)
  | reach_OnDeleteEndpoint m ep :
      reachable env m → reachable env (OnDeleteEndpoint ep m)
  | reach_addEndpoint m id m' :
      reachable env m → addEndpoint id m = Ok m' → reachable env m'
  | reach_deleteEndpoint m id :
      reachable env m → reachable env (deleteEndpoint id m)
  | reach_queue m q :
      reachable env m → reachable env (set_endpointEventsQueue q m)
  | reach_OnUpdateNode s m n :
      enumerates s → reachable env m → reachable env (OnUpdateNode s n m)
  | reach_OnDeleteNode s m n :
      enumerates s → reachable env m → reachable env (OnDeleteNode s n m)
  | reach_k8sSyncDone m :
      reachable env m → reachable env (k8sSyncDone m)
  | reach_reconcileLocked s m :
      enumerates s → reachable env m → reachable env (reconcileLocked env s m).

(** The visits of [forEachEndpointAndCIDR], as a list. *)
Definition tuplesOf (s : Sched) (P : PolicyConfig) : list (IP * IPNet * bool) :=
  ep ← (range s (matchedEndpoints P)).*2;
  ip ← epIPs ep;
  ((λ c, (ip, c, false)) <$> dstCIDRs P) ++ ((λ c, (ip, c, true)) <$> excludedCIDRs P).

(** The entry [addEgressRule] writes on a visit, and [matchPolicy] accepts. *)
Definition entryOf (gwc : gatewayConfig) (t : IP * IPNet * bool)
    : EgressPolicyKey4 * EgressPolicyVal4 :=
  (NewEgressPolicyKey4 t.1.1 t.1.2,
   mkEgressPolicyVal4 (netIP (egressIP gwc))
     (if t.2 then ExcludedCIDRIPv4 else gatewayIP gwc)).

Definition entriesOf (s : Sched) (P : PolicyConfig)
    : list (EgressPolicyKey4 * EgressPolicyVal4) :=
  entryOf (policyGatewayConfig P) <$> tuplesOf s P.

Definition allEntries (s : Sched) (m : Manager)
    : list (EgressPolicyKey4 * EgressPolicyVal4) :=
  p ← (range s (policyConfigs m)).*2;
  match heap m !! p with
  | None => []
  | Some P => entriesOf s P
  end.

(** The schedule that ranges in the order of [map_to_list], without failures. *)
Definition canonical : Sched := mkSched (λ K _ _ V m, map_to_list m) (λ _ _, false).

(** The schedule that ranges in the opposite order. *)
Definition backwards : Sched := mkSched (λ K _ _ V m, reverse (map_to_list m)) (λ _ _, false).

(** [conflictFree], decided. *)
Definition conflictFreeb (m : Manager) : bool :=
  let es := allEntries canonical m in
  forallb (λ e1, forallb (λ e2,
    if decide (e1.1 = e2.1) then bool_decide (e1.2 = e2.2) else true) es) es.

(** ** Auxiliary notions of the proofs *)

Abbreviation PolicyMap := (gmap EgressPolicyKey4 EgressPolicyVal4).
Abbreviation Entry := (EgressPolicyKey4 * EgressPolicyVal4)%type.

(** The pairs [updatePoliciesBySourceIP] appends, in order. *)
Definition indexPairs (s : Sched) (m : Manager) : list (string * positive) :=
  p ← range_values s (policyConfigs m);
  match heap m !! p with
  | None => []
  | Some policy =>
      ep ← range_values s (matchedEndpoints policy);
      ip ← epIPs ep;
      [(ip_String ip, p)]
  end.

Definition indexAppend (idx : gmap string (list positive)) (sp : string * positive)
    : gmap string (list positive) :=
  <[sp.1 := default [] (idx !! sp.1) ++ [sp.2]]> idx.

(** [m'] differs from [m] in the host tables and by further calls, all of
    which satisfy [ok]. *)
Definition hostPhase (ok : Call → bool) (m m' : Manager) : Prop :=
  ∃ h tr, Forall (λ c, ok c = true) tr ∧ m' = set_calls (calls m ++ tr) (set_host h m).

(** [m'] differs from [m] in the policy map and by further calls, all of
    which satisfy [ok]. *)
Definition mapPhase (ok : Call → bool) (m m' : Manager) : Prop :=
  ∃ pm tr, Forall (λ c, ok c = true) tr ∧ m' = set_calls (calls m ++ tr) (set_policyMap pm m).

(** The calls of the netlink part of the reconciler, of
    [addMissingEgressRules] and of [removeUnusedEgressRules]. *)
Definition isNetlinkCall (c : Call) : bool := negb (isPolicyMapCall c).
Definition isMapAdd (c : Call) : bool := isPolicyMapCall c && negb (isPolicyMapDelete c).
Definition isMapRemove (c : Call) : bool := isPolicyMapCall c && negb (isPolicyMapUpdate c).
Definition isRouteTableRemoval (c : Call) : bool :=
  isNetlinkCall c && negb (isRouteTableAdd c).

(** No ip rule and no ip route is added or deleted. *)
Definition noRouteTableWrites (tr : list Call) : Prop :=
  ∀ c, c ∈ tr → isRouteTableAdd c = false ∧ isRouteTableDelete c = false.

(** The index refresh of [reconcileLocked]. *)
Definition refreshIndexes (sched : Sched) (m : Manager) : Manager :=
  let m :=
    if eventBitmapIsSet [eventUpdateEndpoint; eventDeleteEndpoint] m
    then updatePoliciesBySourceIP sched (updatePoliciesMatchedEndpointIDs sched m)
    else m in
  let m :=
    if eventBitmapIsSet [eventAddPolicy; eventDeletePolicy] m
    then updatePoliciesBySourceIP sched m
    else m in
  if eventBitmapIsSet [eventK8sSyncDone] m
  then updatePoliciesBySourceIP sched (updatePoliciesMatchedEndpointIDs sched m)
  else m.

(** The ip rule and route part of [reconcileLocked]. *)
Definition reconcileRoutes (env : Env) (sched : Sched) (m : Manager) : Manager :=
  let '(shouldRetry, m) := addMissingIpRulesAndRoutes env sched false m in
  let m := removeUnusedIpRulesAndRoutes env sched m in
  if shouldRetry then (addMissingIpRulesAndRoutes env sched true m).2 else m.

(** [matchPolicy] of [removeUnusedEgressRules]. *)
Definition matchPolicy (policyKey : EgressPolicyKey4) (policyVal : EgressPolicyVal4)
    (endpointIP : IP) (dstCIDR : IPNet) (excludedCIDR : bool) (gwc : gatewayConfig) : bool :=
  let gatewayIP := if excludedCIDR then ExcludedCIDRIPv4 else gatewayIP gwc in
  key_Match policyKey endpointIP dstCIDR
  && val_Match policyVal (netIP (egressIP gwc)) gatewayIP.

(** [addEgressRule] of [addMissingEgressRules]. *)
Definition addEgressRule (sched : Sched) (egressPolicies : PolicyMap)
    (endpointIP : IP) (dstCIDR : IPNet) (excludedCIDR : bool)
    (gwc : gatewayConfig) (m : Manager) : Manager :=
  let policyKey := NewEgressPolicyKey4 endpointIP dstCIDR in
  let gatewayIP := if excludedCIDR then ExcludedCIDRIPv4 else gatewayIP gwc in
  if match egressPolicies !! policyKey with
     | Some policyVal => val_Match policyVal (netIP (egressIP gwc)) gatewayIP
     | None => false
     end
  then m
  else (policyMap_Update sched endpointIP dstCIDR (netIP (egressIP gwc)) gatewayIP m).2.

(** The entries [addMissingEgressRules] writes: those the snapshot does not
    hold. *)
Definition missing (snapshot : PolicyMap) (es : list Entry) : list Entry :=
  filter (λ e, snapshot !! e.1 ≠ Some e.2) es.

(** The entries [removeUnusedEgressRules] deletes: those no policy matches. *)
Definition unused (sched : Sched) (m : Manager) (es : list Entry) : list Entry :=
  filter (λ e, policyMatches sched m (keySourceIP e.1) (matchPolicy e.1 e.2) = false) es.

Definition insertEntry (pm : PolicyMap) (e : Entry) : PolicyMap := <[e.1 := e.2]> pm.
Definition deleteEntry (pm : PolicyMap) (e : Entry) : PolicyMap := delete e.1 pm.

(** The gateway configuration of every policy is the one computed from the
    current [nodes]. *)
Definition gatewaysCurrent (m : Manager) : Prop :=
  ∀ p P, policyAt m p P → policyGatewayConfig P = policyGwConfig P (nodes m).

(** ** Examples: the scenarios of the specification *)

Module Scenario.

(** An environment: nothing excluded from the effective destinations, the
    routing table of interface [i] is [300 + i], rules are tagged 8. *)
Definition env : Env := mkEnv (λ dst _, dst) (λ i, 300 + i) 8.

Definition podIP : IP := IPv4 10 0 0 5.
Definition pod : CiliumEndpoint :=
  mkCiliumEndpoint "pod" "default" (mkEndpointIdentity 7) (Some [podIP]).
Definition podID : endpointID := mkNamespacedName "default" "pod".

Definition gateway (egress : IP) : gatewayConfig :=
  mkGatewayConfig (mkIPNet egress 24) 2 (IPv4 192 0 2 1) true.
Definition noGateway : gatewayConfig :=
  mkGatewayConfig (mkIPNet 0 0) 0 GatewayNotFoundIPv4 false.

Definition policy (name : string) (egress : IP) (dst excluded : list IPNet) : PolicyConfig :=
  mkPolicyConfig (mkNamespacedName "" name) (λ _, true) (λ _, gateway egress)
    dst excluded ∅ noGateway.

Definition net16 : IPNet := mkIPNet (IPv4 1 2 0 0) 16.
Definition net24 : IPNet := mkIPNet (IPv4 1 2 3 0) 24.

(** Scenario 1: one policy, one endpoint. *)
Definition P1 : PolicyConfig := policy "p" (IPv4 192 0 2 10) [net24] [].
(** Scenario 2: an excluded CIDR. *)
Definition P2 : PolicyConfig := policy "p" (IPv4 192 0 2 10) [net16] [net24].
(** Scenario 3: the policy of scenario 1 with another egress address. *)
Definition P3 : PolicyConfig := policy "p" (IPv4 192 0 2 11) [net24] [].
(** A second policy for the destination of scenario 1. *)
Definition Q1 : PolicyConfig := policy "q" (IPv4 192 0 2 11) [net24] [].
(** The policy of scenario 1 with another destination. *)
Definition P5 : PolicyConfig := policy "p" (IPv4 192 0 2 10) [net16] [].
(** A policy that lists a CIDR as destination and as excluded. *)
Definition P4 : PolicyConfig := policy "p" (IPv4 192 0 2 10) [net24] [net24].

Definition resolving : IdentityAllocator := mkIdentityAllocator true (λ _, Some ∅).
Definition unresolving : IdentityAllocator := mkIdentityAllocator true (λ _, None).

Definition new : Manager := NewEgressGatewayManager resolving false ∅ (mkHost [] []).

Definition get (r : Result Manager) : Manager :=
  match r with Ok m => m | Panic => new end.

(** A manager with the endpoint in its cache. *)
Definition withPod (m : Manager) : Manager :=
  get (addEndpoint podID (OnUpdateEndpoint pod m)).

(** Before the cache is synchronized. *)
Definition unsynced : Manager := withPod (OnAddEgressPolicy P2 new).
(** Scenario 2 before and after its reconciliation. *)
Definition s2_before : Manager := k8sSyncDone unsynced.
Definition s2_after : Manager := reconcileLocked env canonical s2_before.
(** Scenario 1 reconciled, then the policy replaced as in scenario 3. *)
Definition s1_after : Manager :=
  reconcileLocked env canonical (k8sSyncDone (withPod (OnAddEgressPolicy P1 new))).
Definition s3_before : Manager := OnAddEgressPolicy P3 s1_after.
(** Scenario 4: the endpoint of scenario 1 deleted. *)
Definition s4_before : Manager :=
  deleteEndpoint podID (OnDeleteEndpoint pod s1_after).
(** Two policies that want different values under one key. *)
Definition conflict_before : Manager :=
  k8sSyncDone (withPod (OnAddEgressPolicy Q1 (OnAddEgressPolicy P1 new))).
(** One policy with a CIDR both as destination and excluded. *)
Definition overlap_before : Manager := k8sSyncDone (withPod (OnAddEgressPolicy P4 new)).

(** A host that still has an ip rule of the egress gateway, with routes
    not to be installed. *)
Definition staleRule : Rule := mkRule 8 (mkIPNet podIP 32) net24 302.
Definition stale_before : Manager :=
  k8sSyncDone (NewEgressGatewayManager resolving false ∅ (mkHost [staleRule] [])).

Definition nodeA : Node := mkNode "a" [IPv4 192 0 2 1].
Definition nodeB : Node := mkNode "b" [IPv4 192 0 2 2].
Definition oneNode : Manager := OnUpdateNode canonical nodeB new.

End Scenario.

(** ** Further notions the properties speak about *)

(** The event types of the manager. *)
Definition eventTypes : list eventType :=
  [eventNone; eventK8sSyncDone; eventAddPolicy; eventDeletePolicy;
   eventUpdateNode; eventDeleteNode; eventUpdateEndpoint; eventDeleteEndpoint].

(** The policy object stored under an id. *)
Definition policyOf (m : Manager) (id : policyID) : option PolicyConfig :=
  policyConfigs m !! id ≫= λ p, heap m !! p.

(** Every pointer of [policyConfigs] refers to an object. *)
Definition policiesAllocated (m : Manager) : Prop :=
  ∀ id p, policyConfigs m !! id = Some p → is_Some (heap m !! p).

(** The matched endpoints of every policy are the endpoints of the cache
    that the policy selects. *)
Definition matchedCurrent (m : Manager) : Prop :=
  ∀ p P, policyAt m p P →
         matchedEndpoints P = filter (λ kv, selectsEndpoint P kv.2 = true) (epDataStore m).

(** An event after which the reconciler recomputes the matched endpoints is
    pending. *)
Definition matchedPending (m : Manager) : bool :=
  eventBitmapIsSet [eventUpdateEndpoint; eventDeleteEndpoint; eventK8sSyncDone] m.

Definition matchedInv (m : Manager) : Prop :=
  matchedPending m = true ∨ matchedCurrent m.

(** The policy map after the updates for the entries [es], issued one after
    the other once the calls [c] have been issued: an update that the
    schedule makes fail leaves the map as it is. *)
Fixpoint writeEntries (s : Sched) (c : list Call) (pm : PolicyMap) (es : list Entry)
    : PolicyMap :=
  match es with
  | [] => pm
  | e :: es =>
      writeEntries s (c ++ [PolicyMapUpdate e.1 e.2])
        (if callFails s c (PolicyMapUpdate e.1 e.2) then pm else insertEntry pm e) es
  end.

(** The same for deletes. *)
Fixpoint removeEntries (s : Sched) (c : list Call) (pm : PolicyMap) (es : list Entry)
    : PolicyMap :=
  match es with
  | [] => pm
  | e :: es =>
      removeEntries s (c ++ [PolicyMapDelete e.1])
        (if callFails s c (PolicyMapDelete e.1) then pm else deleteEntry pm e) es
  end.

(** The schedule that ranges in the order of [map_to_list] and makes every
    call fail. *)
Definition failing : Sched := mkSched (λ K _ _ V m, map_to_list m) (λ _ _, true).

(** Two policy objects differ at most in their matched endpoints and their
    gateway configuration. *)
Definition samePolicy (P P' : PolicyConfig) : Prop :=
  policyId P' = policyId P ∧ selectsEndpoint P' = selectsEndpoint P
  ∧ policyGwConfig P' = policyGwConfig P
  ∧ dstCIDRs P' = dstCIDRs P ∧ excludedCIDRs P' = excludedCIDRs P.

(** The policy objects of [m'] are those of [m], up to matched endpoints and
    gateway configuration. *)
Definition samePolicies (m m' : Manager) : Prop :=
  ∀ q, match heap m !! q, heap m' !! q with
       | Some P, Some P' => samePolicy P P'
       | None, None => True
       | _, _ => False
       end.

Definition isRuleAdd (c : Call) : bool :=
  match c with RuleAdd _ => true | _ => false end.

(** The calls of [addMissingIpRulesAndRoutes]. *)
Definition isRouteTableGrowth (c : Call) : bool :=
  match c with RuleListTable _ | RuleAdd _ | RouteReplace _ _ => true | _ => false end.

(** Some [RuleAdd] among the calls [tr], issued one after the other once the
    calls [c] have been issued, fails. *)
Fixpoint ruleAddFails (s : Sched) (c tr : list Call) : bool :=
  match tr with
  | [] => false
  | call :: tr => isRuleAdd call && callFails s c call || ruleAddFails s (c ++ [call]) tr
  end.

(** A step of [addMissingIpRulesAndRoutes] on the flag [shouldRetry] and the
    manager: further calls, none of which deletes, and the flag raised when
    an ip rule could not be added in a first pass. *)
Definition addPhase (s : Sched) (isRetry : bool) (a b : bool * Manager) : Prop :=
  ∃ h tr, b.2 = set_calls (calls a.2 ++ tr) (set_host h a.2)
          ∧ Forall (λ c, isRouteTableGrowth c = true) tr
          ∧ b.1 = a.1 || negb isRetry && ruleAddFails s (calls a.2) tr.

(** [matchFunc] of [removeUnusedIpRulesAndRoutes]. *)
Definition ruleMatchFunc (m : Manager) (ipRule : Rule)
    (endpointIP : IP) (dstCIDR : IPNet) (gwc : gatewayConfig) : bool :=
  if negb (installRoutes m) then false
  else if negb (localNodeConfiguredAsGateway gwc) then false
  else bool_decide (ruleDst ipRule = dstCIDR).

(** The ip rules [removeUnusedIpRulesAndRoutes] deletes: those no policy
    matches. *)
Definition unmatchedRules (env : Env) (s : Sched) (m : Manager) (rules : list Rule)
    : list Rule :=
  filter (λ r, policyMatchesMinusExcludedCIDRs env s m (netIP (ruleSrc r)) (ruleMatchFunc m r)
               = false) rules.

(** [activeEgressGwIfaceIndexes] of [removeUnusedIpRulesAndRoutes]. *)
Definition activeEgressGwIfaceIndexes (s : Sched) (m : Manager) : gset Z :=
  foldl (λ active p,
    match heap m !! p with
    | None => active
    | Some policyConfig =>
        if bool_decide (size (matchedEndpoints policyConfig) ≠ 0%nat) then
          if localNodeConfiguredAsGateway (policyGatewayConfig policyConfig)
          then {[ifaceIndex (policyGatewayConfig policyConfig)]} ∪ active
          else active
        else active
    end) ∅ (range_values s (policyConfigs m)).

(** The ip routes [removeUnusedIpRulesAndRoutes] deletes: those in the
    routing table of the egress gateway for their link, when the link is not
    in use. *)
Definition staleRoutes (env : Env) (active : gset Z) (routes : list Route) : list Route :=
  filter (λ rt, routeTable rt = egressGatewayRoutingTableIdx env (routeLinkIndex rt)
                ∧ routeLinkIndex rt ∉ active) routes.

(** A call that a stored policy with the local node as gateway asks of
    [addMissingIpRulesAndRoutes]: the listing of the rules of the routing
    table of its interface, the addition of the ip rule for an address of a
    matched endpoint and an effective destination, or the replacement of the
    routes of its egress address and interface. *)
Definition wantedCall (env : Env) (m : Manager) (c : Call) : Prop :=
  ∃ p P, policyAt m p P
    ∧ localNodeConfiguredAsGateway (policyGatewayConfig P) = true
    ∧ size (matchedEndpoints P) ≠ 0%nat
    ∧ match c with
      | RuleListTable table =>
          table = egressGatewayRoutingTableIdx env (ifaceIndex (policyGatewayConfig P))
      | RuleAdd r =>
          ∃ id ep ip cidr,
            matchedEndpoints P !! id = Some ep ∧ ip ∈ epIPs ep
            ∧ cidr ∈ destinationMinusExcludedCIDRs env (dstCIDRs P) (excludedCIDRs P)
            ∧ r = mkRule (RulePriorityEgressGateway env) (mkIPNet ip 32) cidr
                    (egressGatewayRoutingTableIdx env (ifaceIndex (policyGatewayConfig P)))
      | RouteReplace egress iface =>
          egress = egressIP (policyGatewayConfig P)
          ∧ iface = ifaceIndex (policyGatewayConfig P)
      | _ => False
      end.

(** [b] differs from [a] in the host tables and by further calls, all of
    which satisfy [ok]; the flag is not looked at. *)
Definition hostPhaseP (ok : Call → Prop) (a b : bool * Manager) : Prop :=
  ∃ h tr, Forall ok tr ∧ b.2 = set_calls (calls a.2 ++ tr) (set_host h a.2).

(** ** Examples with routes to be installed *)

Module Routed.

(** The policy and the endpoint of scenario 1 in a manager that installs
    routes, with the caches refreshed as the reconciler does. *)
Definition before : Manager :=
  updatePoliciesBySourceIP canonical
    (regenerateGatewayConfigs canonical
       (updatePoliciesMatchedEndpointIDs canonical
          (k8sSyncDone
             (Scenario.withPod
                (OnAddEgressPolicy Scenario.P1
                   (NewEgressGatewayManager Scenario.resolving true ∅ (mkHost [] []))))))).

(** The ip rule of the policy for the endpoint. *)
Definition rule : Rule := mkRule 8 (mkIPNet Scenario.podIP 32) Scenario.net24 302.


End Routed.

(** ** Examples for the policy map part *)

Module Shared.

(** A second policy that asks for the entry of scenario 1. *)
Definition Q : PolicyConfig :=
  Scenario.policy "q" (IPv4 192 0 2 10) [Scenario.net24] [].

(** Both policies and the endpoint, with the caches refreshed as the
    reconciler does. *)
Definition before : Manager :=
  updatePoliciesBySourceIP canonical
    (regenerateGatewayConfigs canonical
       (updatePoliciesMatchedEndpointIDs canonical
          (k8sSyncDone
             (Scenario.withPod
                (OnAddEgressPolicy Q (OnAddEgressPolicy Scenario.P1 Scenario.new)))))).

(** Scenario 1 reconciled, then its policy deleted and the index rebuilt:
    the policy map still holds the entry of the policy. *)
Definition orphaned : Manager :=
  updatePoliciesBySourceIP canonical
    (OnDeleteEgressPolicy (mkNamespacedName "" "p") Scenario.s1_after).

End Shared.

(** * Properties *)

(** Projections of updated managers. *)
Ltac msimpl :=
  cbn [cacheStatus nodeDataStore nodes policyConfigs policyConfigsBySourceIP epDataStore
       pendingEndpointEvents endpointEventsQueue identityAllocator installRoutes policyMap
       eventsBitmap reconciliationTrigger heap host calls
       set_nodeDataStore set_nodes set_policyConfigs set_policyConfigsBySourceIP
       set_epDataStore set_pendingEndpointEvents set_endpointEventsQueue set_policyMap
       set_eventsBitmap set_reconciliationTrigger set_heap set_host set_calls
       fst snd] in *.

(** ** Unknown policy *)

(** C7: deleting a policy that is not in [policyConfigs] returns the manager
    as it was: the trigger is not fired and [policyConfigs],
    [policyConfigsBySourceIP] and the events bitmap are unchanged. *)
Theorem OnDeleteEgressPolicy_unknown (configID : policyID) (m : Manager) :
  policyConfigs m !! configID = None →
  OnDeleteEgressPolicy configID m = m
  ∧ reconciliationTrigger (OnDeleteEgressPolicy configID m) = reconciliationTrigger m
  ∧ policyConfigs (OnDeleteEgressPolicy configID m) = policyConfigs m
  ∧ policyConfigsBySourceIP (OnDeleteEgressPolicy configID m) = policyConfigsBySourceIP m
  ∧ eventsBitmap (OnDeleteEgressPolicy configID m) = eventsBitmap m.
Proof.
  intros Hnone. unfold OnDeleteEgressPolicy. rewrite Hnone. done.
Qed.

(** C7 at the manager of scenario 2 and a policy it does not hold. *)
Lemma OnDeleteEgressPolicy_unknown_witness :
  policyConfigs Scenario.s2_after !! mkNamespacedName "" "other" = None
  ∧ OnDeleteEgressPolicy (mkNamespacedName "" "other") Scenario.s2_after = Scenario.s2_after.
Proof.
  assert (H : policyConfigs Scenario.s2_after !! mkNamespacedName "" "other" = None)
    by (vm_compute; reflexivity).
  split; [exact H |].
  exact (proj1 (OnDeleteEgressPolicy_unknown _ _ H)).
Defined.

(** A known policy is removed and the reconciler is triggered. *)
Lemma OnDeleteEgressPolicy_known (configID : policyID) (m : Manager) p :
  policyConfigs m !! configID = Some p →
  policyConfigs (OnDeleteEgressPolicy configID m) = delete configID (policyConfigs m)
  ∧ reconciliationTrigger (OnDeleteEgressPolicy configID m)
    = reconciliationTrigger m ++ ["policy deleted"]
  ∧ eventsBitmap (OnDeleteEgressPolicy configID m) = Z.lor (eventsBitmap m) eventDeletePolicy.
Proof.
  intros Hsome. unfold OnDeleteEgressPolicy. rewrite Hsome. done.
Qed.

(** ** Before the cache is synchronized *)

Section NotSynchronized.
Variable env : Env.
Variable sched : Sched.

(** C9: while the cache status is not synchronized [reconcileLocked] returns
    the manager as it was: no call is issued to the policy map or to netlink,
    the index and the matched endpoints of the policies are not rebuilt, and
    the events bitmap keeps its bits. *)
Theorem reconcileLocked_not_synchronized (m : Manager) :
  cacheStatus m = false →
  reconcileLocked env sched m = m
  ∧ issued (reconcileLocked env sched) m = []
  ∧ policyConfigsBySourceIP (reconcileLocked env sched m) = policyConfigsBySourceIP m
  ∧ heap (reconcileLocked env sched m) = heap m
  ∧ eventsBitmap (reconcileLocked env sched m) = eventsBitmap m.
Proof.
  intros Hsync. unfold issued, reconcileLocked. rewrite Hsync. simpl.
  rewrite drop_all. done.
Qed.

End NotSynchronized.

(** C9 at a manager with a policy and an endpoint, before the sync: the
    bits of the two events stay in the bitmap. *)
Lemma reconcileLocked_not_synchronized_witness :
  cacheStatus Scenario.unsynced = false
  ∧ reconcileLocked Scenario.env canonical Scenario.unsynced = Scenario.unsynced
  ∧ eventsBitmap Scenario.unsynced = Z.lor eventAddPolicy eventUpdateEndpoint.
Proof.
  assert (H : cacheStatus Scenario.unsynced = false) by (vm_compute; reflexivity).
  split; [exact H |]. split.
  - exact (proj1 (reconcileLocked_not_synchronized Scenario.env canonical _ H)).
  - vm_compute; reflexivity.
Defined.

(** ** The endpoint worker *)

Lemma eventBit_set (e : eventType) (m : Manager) :
  eventsBitmap (setEventBitmap [e] m) = Z.lor (eventsBitmap m) e.
Proof. reflexivity. Qed.

Lemma OnUpdateEndpoint_pending (ep : CiliumEndpoint) (m : Manager) :
  pendingEndpointEvents (OnUpdateEndpoint ep m)
    !! mkNamespacedName (cepNamespace ep) (cepName ep)
  = Some (mkEndpointEvent eventUpdateEndpoint (Some ep)).
Proof. unfold OnUpdateEndpoint. simpl. apply lookup_insert_eq. Qed.

Lemma OnDeleteEndpoint_pending (ep : CiliumEndpoint) (m : Manager) :
  pendingEndpointEvents (OnDeleteEndpoint ep m)
    !! mkNamespacedName (cepNamespace ep) (cepName ep)
  = Some (mkEndpointEvent eventDeleteEndpoint None).
Proof. unfold OnDeleteEndpoint. simpl. apply lookup_insert_eq. Qed.

Lemma land_lor_absorb (b e : Z) : Z.land (Z.lor b e) e = e.
Proof.
  apply Z.bits_inj'. intros n _. rewrite Z.land_spec, Z.lor_spec.
  destruct (Z.testbit b n), (Z.testbit e n); done.
Qed.

(** The worker steps, run without a handler in between, are one iteration
    of the loop. *)
Lemma run_worker_item (id : endpointID) (m : Manager) :
  run [ActWorker; ActWorker; ActWorker] (mkSystem m (WGot id))
  = match processCiliumEndpoints_item id m with
    | Ok m' => Ok (mkSystem m' WIdle)
    | Panic => Panic
    end.
Proof.
  unfold processCiliumEndpoints_item. simpl. unfold workerStep at 1. simpl.
  destruct (pendingEndpointEvents m !! id) as [epEvent|]; simpl; [| done].
  unfold workerStep at 1. simpl.
  destruct (bool_decide (evType epEvent = eventUpdateEndpoint)).
  - destruct (addEndpoint id m); done.
  - destruct (bool_decide (evType epEvent = eventDeleteEndpoint)); done.
Qed.

(** C8: [addEndpoint] on a pending entry for [id] that holds the endpoint
    [ep].  If the identity labels cannot be fetched the manager is unchanged:
    the entry stays pending, [epDataStore] is as before, and the worker adds
    the id back to the queue.  Otherwise the entry is deleted; if no metadata
    can be built [epDataStore] is unchanged, nothing is triggered and the
    worker forgets the id; if metadata is built it is stored under [id], the
    [eventUpdateEndpoint] bit is set and the trigger is fired. *)
Theorem addEndpoint_outcomes (id : endpointID) (m : Manager)
    (epEvent : endpointEvent) (ep : CiliumEndpoint) :
  pendingEndpointEvents m !! id = Some epEvent →
  evType epEvent = eventUpdateEndpoint →
  evEndpoint epEvent = Some ep →
  id = mkNamespacedName (cepNamespace ep) (cepName ep) →
  match getIdentityLabels m (uint32 (identityID (cepIdentity ep))) with
  | None =>
      addEndpoint id m = Ok m
      ∧ processCiliumEndpoints_item id m
        = Ok (set_endpointEventsQueue
                (queue_AddRateLimited id (endpointEventsQueue m)) m)
  | Some identityLabels =>
      ∃ m', addEndpoint id m = Ok m'
        ∧ pendingEndpointEvents m' = delete id (pendingEndpointEvents m)
        ∧ processCiliumEndpoints_item id m
          = Ok (set_endpointEventsQueue (queue_Forget id (endpointEventsQueue m)) m')
        ∧ match getEndpointMetadata ep identityLabels with
          | None =>
              epDataStore m' = epDataStore m
              ∧ eventsBitmap m' = eventsBitmap m
              ∧ reconciliationTrigger m' = reconciliationTrigger m
          | Some epData =>
              epDataStore m' = <[id := epData]> (epDataStore m)
              ∧ Z.land (eventsBitmap m') eventUpdateEndpoint = eventUpdateEndpoint
              ∧ reconciliationTrigger m' = reconciliationTrigger m ++ ["endpoint updated"]
          end
  end.
Proof.
  intros Hpend Htype Hep Hid.
  unfold processCiliumEndpoints_item, addEndpoint. rewrite Hpend, Hep.
  rewrite (bool_decide_eq_true_2 _ Htype).
  destruct (getIdentityLabels m (uint32 (identityID (cepIdentity ep)))) as [identityLabels|].
  - unfold getEndpointMetadata.
    destruct (cepNetworking ep) as [ips|]; simpl.
    + eexists. split; [reflexivity |]. simpl.
      unfold endpointEventIsPending. simpl. rewrite lookup_delete_eq.
      rewrite bool_decide_eq_false_2 by (intros [? ?]; done).
      rewrite <- Hid. repeat split; try done.
      apply land_lor_absorb.
    + eexists. split; [reflexivity |]. simpl.
      unfold endpointEventIsPending. simpl. rewrite lookup_delete_eq.
      rewrite bool_decide_eq_false_2 by (intros [? ?]; done).
      done.
  - split; [done |]. unfold endpointEventIsPending. rewrite Hpend.
    rewrite bool_decide_eq_true_2 by eauto. done.
Qed.

(** C8 at a new manager that received the endpoint of the scenarios and
    resolves its identity. *)
Lemma addEndpoint_outcomes_witness :
  epDataStore (Scenario.get (addEndpoint Scenario.podID (OnUpdateEndpoint Scenario.pod Scenario.new)))
    !! Scenario.podID
  = Some (mkEndpointMetadata Scenario.podID [Scenario.podIP] ∅).
Proof.
  pose proof (addEndpoint_outcomes Scenario.podID
                (OnUpdateEndpoint Scenario.pod Scenario.new)
                (mkEndpointEvent eventUpdateEndpoint (Some Scenario.pod)) Scenario.pod
                ltac:(vm_compute; reflexivity) eq_refl eq_refl eq_refl) as H.
  change (getIdentityLabels _ _) with (Some (∅ : gmap string string)) in H.
  destruct H as (m' & Hadd & _ & _ & Hmeta).
  rewrite Hadd. simpl in *. destruct Hmeta as (-> & _).
  apply lookup_insert_eq.
Defined.

(** An endpoint whose identity cannot be resolved stays pending and is put
    back on the queue (scenario 5). *)
Lemma addEndpoint_unresolved_example :
  let m := OnUpdateEndpoint Scenario.pod
             (NewEgressGatewayManager Scenario.unresolving false ∅ (mkHost [] [])) in
  addEndpoint Scenario.podID m = Ok m
  ∧ epDataStore m !! Scenario.podID = None
  ∧ endpointEventIsPending Scenario.podID m = true.
Proof. vm_compute. done. Qed.

(** ** A delete event between the two reads of the worker *)

(** C10 fails on the code: [processCiliumEndpoints] reads the pending entry,
    sees an update and calls [addEndpoint]; when [OnDeleteEndpoint] stores
    its entry (with a nil endpoint) between that read and the read in
    [addEndpoint], [addEndpoint] finds an entry whose endpoint is nil and
    dereferences it. *)
Theorem addEndpoint_reads_nil_endpoint :
  run [ActOnUpdateEndpoint Scenario.pod; ActWorker; ActWorker;
       ActOnDeleteEndpoint Scenario.pod; ActWorker]
      (mkSystem Scenario.new WIdle) = Panic.
Proof. vm_compute. reflexivity. Qed.

(** Without the delete event in between the same steps do not panic. *)
Lemma addEndpoint_without_interference :
  ∃ s, run [ActOnUpdateEndpoint Scenario.pod; ActWorker; ActWorker; ActWorker;
            ActOnDeleteEndpoint Scenario.pod]
           (mkSystem Scenario.new WIdle) = Ok s.
Proof. eexists. vm_compute. reflexivity. Qed.

(** Run without a handler in between, the worker does not panic: the entry
    it dispatches on is the entry [addEndpoint] reads. *)
Lemma processCiliumEndpoints_item_safe (id : endpointID) (m : Manager) :
  pendingUpdatesHoldEndpoint m → processCiliumEndpoints_item id m ≠ Panic.
Proof.
  intros Hwf. unfold processCiliumEndpoints_item.
  destruct (pendingEndpointEvents m !! id) as [epEvent|] eqn:Hpend; [| done].
  case_bool_decide as Htype.
  - destruct (Hwf id epEvent Hpend Htype) as [ep Hep].
    unfold addEndpoint. rewrite Hpend, Hep.
    destruct (getIdentityLabels _ _); [| done].
    destruct (getEndpointMetadata _ _); done.
  - case_bool_decide; done.
Qed.

(** [addEndpoint] panics exactly on a pending entry with a nil endpoint. *)
Lemma addEndpoint_Panic_iff (id : endpointID) (m : Manager) :
  addEndpoint id m = Panic ↔
  ∃ epEvent, pendingEndpointEvents m !! id = Some epEvent ∧ evEndpoint epEvent = None.
Proof.
  unfold addEndpoint. split.
  - destruct (pendingEndpointEvents m !! id) as [epEvent|]; [| done].
    destruct (evEndpoint epEvent) as [ep|] eqn:Hep; [| eauto].
    destruct (getIdentityLabels _ _); [| done].
    destruct (getEndpointMetadata _ _); done.
  - intros (epEvent & -> & ->). done.
Qed.

(** ** The sorted node slice *)

Lemma name_lt_irrefl (a : string) : ¬ name_lt a a.
Proof. apply (StrictOrder_Irreflexive (R := String_as_OT.lt)). Qed.

Lemma name_lt_trans (a b c : string) : name_lt a b → name_lt b c → name_lt a c.
Proof. apply (StrictOrder_Transitive (R := String_as_OT.lt)). Qed.

Lemma name_lt_trichotomy (a b : string) : name_lt a b ∨ a = b ∨ name_lt b a.
Proof.
  destruct (String_as_OT.compare_spec a b) as [Heq|Hlt|Hgt]; auto.
Qed.

Global Instance node_le_total : Total node_le.
Proof.
  intros a b. unfold node_le, node_less.
  destruct (name_lt_trichotomy (nodeName a) (nodeName b)) as [H|[H|H]].
  - left. intros H'. eapply name_lt_irrefl, name_lt_trans; eauto.
  - left. rewrite H. apply name_lt_irrefl.
  - right. intros H'. eapply name_lt_irrefl, name_lt_trans; eauto.
Qed.

Global Instance node_le_trans : Transitive node_le.
Proof.
  intros a b c. unfold node_le, node_less. intros Hab Hbc Hca.
  destruct (name_lt_trichotomy (nodeName a) (nodeName b)) as [H|[H|H]]; [| | done].
  - apply Hbc. eapply name_lt_trans; eauto.
  - apply Hbc. by rewrite <- H.
Qed.

Lemma node_le_less (a b : Node) : node_le a b → nodeName a ≠ nodeName b → node_less a b.
Proof.
  unfold node_le, node_less. intros Hle Hne.
  destruct (name_lt_trichotomy (nodeName a) (nodeName b)) as [H|[H|H]]; done.
Qed.

Lemma StronglySorted_strict (l : list Node) :
  StronglySorted node_le l → NoDup (nodeName <$> l) → StronglySorted node_less l.
Proof.
  induction 1 as [|a l Hl IH Ha]; [constructor |].
  rewrite fmap_cons, NoDup_cons. intros [Hnotin Hnd].
  constructor; [by apply IH |].
  rewrite Forall_forall in Ha |- *. intros b Hb.
  apply node_le_less; [by apply Ha |].
  intros Heq. apply Hnotin. rewrite Heq. by apply list_elem_of_fmap_2.
Qed.

Lemma foldl_append_nodes (l : list Node) (m : Manager) :
  nodes (foldl (λ m n, set_nodes (nodes m ++ [n]) m) m l) = nodes m ++ l.
Proof.
  revert m. induction l as [|n l IH]; intros m; simpl.
  - by rewrite app_nil_r.
  - rewrite IH. simpl. by rewrite <- app_assoc.
Qed.

Lemma nodesByName_NoDup (store : gmap string Node) :
  (∀ k n, store !! k = Some n → nodeName n = k) →
  NoDup (nodeName <$> (map_to_list store).*2).
Proof.
  intros Hwf.
  assert (Heq : nodeName <$> (map_to_list store).*2 = (map_to_list store).*1).
  { rewrite <- list_fmap_compose. apply Forall_fmap_ext_1, Forall_forall.
    intros [k n] Hin. simpl. apply Hwf. by apply elem_of_map_to_list. }
  rewrite Heq. apply NoDup_fst_map_to_list.
Qed.

Section Nodes.
Variable sched : Sched.
Hypothesis sched_enumerates : enumerates sched.

Lemma range_values_Permutation {K} `{Countable K} {V} (m : gmap K V) :
  range_values sched m ≡ₚ (map_to_list m).*2.
Proof. unfold range_values. apply fmap_Permutation, sched_enumerates. Qed.

Lemma foldl_append_nodeDataStore (l : list Node) (m : Manager) :
  nodeDataStore (foldl (λ m n, set_nodes (nodes m ++ [n]) m) m l) = nodeDataStore m.
Proof.
  revert m. induction l as [|n l IH]; intros m; simpl; [done |]. by rewrite IH.
Qed.

Lemma onChangeNodeLocked_nodes (e : eventType) (m : Manager) :
  nodes (onChangeNodeLocked sched e m) = sort_Slice_nodes (range_values sched (nodeDataStore m))
  ∧ nodeDataStore (onChangeNodeLocked sched e m) = nodeDataStore m.
Proof.
  unfold onChangeNodeLocked. simpl. rewrite foldl_append_nodes. simpl.
  split; [done |]. by rewrite foldl_append_nodeDataStore.
Qed.

Lemma onChangeNodeLocked_sorted (e : eventType) (m : Manager) :
  nodesByName m →
  nodes (onChangeNodeLocked sched e m) ≡ₚ (map_to_list (nodeDataStore m)).*2
  ∧ StronglySorted node_less (nodes (onChangeNodeLocked sched e m)).
Proof.
  intros Hwf. destruct (onChangeNodeLocked_nodes e m) as [-> _].
  unfold sort_Slice_nodes.
  assert (Hperm : merge_sort node_le (range_values sched (nodeDataStore m))
                  ≡ₚ (map_to_list (nodeDataStore m)).*2).
  { rewrite merge_sort_Permutation. apply range_values_Permutation. }
  split; [done |].
  apply StronglySorted_strict.
  - apply StronglySorted_merge_sort; apply _.
  - rewrite Hperm. by apply nodesByName_NoDup.
Qed.

Lemma nodesByName_OnUpdateNode (n : Node) (m : Manager) :
  nodesByName m → nodesByName (OnUpdateNode sched n m).
Proof.
  intros Hwf k n'. unfold OnUpdateNode.
  rewrite (proj2 (onChangeNodeLocked_nodes _ _)). simpl.
  rewrite lookup_insert. case_decide; [naive_solver | apply Hwf].
Qed.

Lemma nodesByName_OnDeleteNode (n : Node) (m : Manager) :
  nodesByName m → nodesByName (OnDeleteNode sched n m).
Proof.
  intros Hwf k n'. unfold OnDeleteNode.
  rewrite (proj2 (onChangeNodeLocked_nodes _ _)). simpl.
  rewrite lookup_delete. case_decide; [done | apply Hwf].
Qed.

(** C6: after [OnUpdateNode] and after [OnDeleteNode] the [nodes] slice
    holds exactly the values of [nodeDataStore] and is strictly ascending by
    node name. *)
Theorem node_events_sort_nodes (n : Node) (m : Manager) :
  nodesByName m →
  (nodes (OnUpdateNode sched n m) ≡ₚ (map_to_list (nodeDataStore (OnUpdateNode sched n m))).*2
   ∧ StronglySorted node_less (nodes (OnUpdateNode sched n m)))
  ∧ (nodes (OnDeleteNode sched n m) ≡ₚ (map_to_list (nodeDataStore (OnDeleteNode sched n m))).*2
     ∧ StronglySorted node_less (nodes (OnDeleteNode sched n m))).
Proof.
  intros Hwf. split.
  - unfold OnUpdateNode. rewrite (proj2 (onChangeNodeLocked_nodes _ _)).
    apply onChangeNodeLocked_sorted.
    intros k n'. simpl. rewrite lookup_insert. case_decide; [naive_solver | apply Hwf].
  - unfold OnDeleteNode. rewrite (proj2 (onChangeNodeLocked_nodes _ _)).
    apply onChangeNodeLocked_sorted.
    intros k n'. simpl. rewrite lookup_delete. case_decide; [done | apply Hwf].
Qed.

End Nodes.

Lemma canonical_enumerates : enumerates canonical.
Proof. intros K EqK CK V m. reflexivity. Qed.

Lemma backwards_enumerates : enumerates backwards.
Proof. intros K EqK CK V m. simpl. apply reverse_Permutation. Qed.

Lemma nodesByName_new alloc routes pm h :
  nodesByName (NewEgressGatewayManager alloc routes pm h).
Proof. intros k n. simpl. by rewrite lookup_empty. Qed.

(** C6 at a manager that holds node [b] and receives node [a]. *)
Lemma node_events_sort_nodes_witness :
  nodes (OnUpdateNode canonical Scenario.nodeA Scenario.oneNode)
  = [Scenario.nodeA; Scenario.nodeB]
  ∧ StronglySorted node_less (nodes (OnUpdateNode canonical Scenario.nodeA Scenario.oneNode)).
Proof.
  split; [vm_compute; reflexivity |].
  apply (node_events_sort_nodes canonical canonical_enumerates Scenario.nodeA Scenario.oneNode).
  apply nodesByName_OnUpdateNode, nodesByName_new.
Defined.

(** ** Loops as folds over the list of their visits *)

Lemma foldl_bind {A B C} (f : A → C → A) (g : B → list C) (a : A) (l : list B) :
  foldl f a (l ≫= g) = foldl (λ a x, foldl f a (g x)) a l.
Proof.
  revert a. induction l as [|x l IH]; intros a; simpl; [done |].
  by rewrite foldl_app, IH.
Qed.

Lemma foldl_ext_in {A B} (f g : A → B → A) (a : A) (l : list B) :
  (∀ a x, x ∈ l → f a x = g a x) → foldl f a l = foldl g a l.
Proof.
  revert a. induction l as [|x l IH]; intros a Hfg; simpl; [done |].
  rewrite Hfg by left. apply IH. intros a' y Hy. apply Hfg. by right.
Qed.

(** ** The index by source address *)

Lemma updatePoliciesBySourceIP_fold (s : Sched) (m : Manager) :
  policyConfigsBySourceIP (updatePoliciesBySourceIP s m)
  = foldl indexAppend ∅ (indexPairs s m).
Proof.
  unfold updatePoliciesBySourceIP, indexPairs. msimpl.
  rewrite foldl_bind. apply foldl_ext_in. intros idx p _.
  destruct (heap m !! p) as [policy|]; [| done].
  rewrite foldl_bind. apply foldl_ext_in. intros idx' ep _.
  rewrite foldl_bind. apply foldl_ext_in. intros idx'' ip _. done.
Qed.

Lemma indexAppend_lookup (idx : gmap string (list positive)) (l : list (string * positive))
    (s : string) (p : positive) :
  p ∈ default [] (foldl indexAppend idx l !! s)
  ↔ p ∈ default [] (idx !! s) ∨ (s, p) ∈ l.
Proof.
  revert idx. induction l as [|[s' p'] l IH]; intros idx; simpl.
  - rewrite elem_of_nil. tauto.
  - rewrite IH. unfold indexAppend at 1. simpl. rewrite lookup_insert.
    rewrite elem_of_cons.
    case_decide as Hs; simpl.
    + subst s'. rewrite elem_of_app, list_elem_of_singleton.
      split; [intros [[?|?]|?]|intros [?|[?|?]]]; subst; auto. simplify_eq. auto.
    + split; [intros [?|?]|intros [?|[?|?]]]; auto. simplify_eq.
Qed.

Lemma indexAppend_nonempty (idx : gmap string (list positive)) (l : list (string * positive)) :
  (∀ s ps, idx !! s = Some ps → ps ≠ []) →
  ∀ s ps, foldl indexAppend idx l !! s = Some ps → ps ≠ [].
Proof.
  revert idx. induction l as [|[s' p'] l IH]; intros idx Hne; simpl; [done |].
  apply IH. intros s ps. unfold indexAppend. simpl. rewrite lookup_insert.
  case_decide; [| apply Hne].
  intros [= <-]. by destruct (default [] (idx !! s')).
Qed.

Section Index.
Variable sched : Sched.
Hypothesis sched_enumerates : enumerates sched.

Lemma elem_of_range_values {K} `{Countable K} {V} (mp : gmap K V) (v : V) :
  v ∈ range_values sched mp ↔ ∃ k, mp !! k = Some v.
Proof.
  unfold range_values. rewrite list_elem_of_fmap. split.
  - intros ([k v'] & -> & Hin). exists k. apply elem_of_map_to_list.
    by rewrite <- (sched_enumerates _ _ _ _ mp).
  - intros [k Hk]. exists (k, v). split; [done |].
    rewrite (sched_enumerates _ _ _ _ mp). by apply elem_of_map_to_list.
Qed.

Lemma elem_of_indexPairs (m : Manager) (s : string) (p : positive) :
  (s, p) ∈ indexPairs sched m ↔
  ∃ P id ep ip, policyAt m p P ∧ matchedEndpoints P !! id = Some ep ∧
                ip ∈ epIPs ep ∧ ip_String ip = s.
Proof.
  unfold indexPairs, policyAt. rewrite list_elem_of_bind. split.
  - intros (p' & Hin & Hp'). apply elem_of_range_values in Hp'.
    destruct (heap m !! p') as [policy|] eqn:Hheap; [| by apply elem_of_nil in Hin].
    apply list_elem_of_bind in Hin as (ep & Hin & Hep).
    apply list_elem_of_bind in Hin as (ip & Hin & Hip).
    apply list_elem_of_singleton in Hin as [= -> ->].
    apply elem_of_range_values in Hep as [id Hid].
    exists policy, id, ep, ip. done.
  - intros (P & id & ep & ip & [Hp Hheap] & Hid & Hip & <-).
    exists p. split; [| by apply elem_of_range_values].
    rewrite Hheap. apply list_elem_of_bind. exists ep.
    split; [| apply elem_of_range_values; eauto].
    apply list_elem_of_bind. exists ip. split; [| done]. by apply list_elem_of_singleton.
Qed.

Lemma updatePoliciesBySourceIP_current (m : Manager) :
  indexCurrent (updatePoliciesBySourceIP sched m).
Proof.
  intros s p. rewrite updatePoliciesBySourceIP_fold, indexAppend_lookup.
  rewrite lookup_empty. simpl. rewrite elem_of_indexPairs.
  unfold policyAt. msimpl. rewrite elem_of_nil. tauto.
Qed.

(** C5: after [updatePoliciesBySourceIP] the index lists under every address
    string exactly the policies of [policyConfigs] that have a matched
    endpoint with that address, and it has no key with an empty list. *)
Theorem updatePoliciesBySourceIP_index (m : Manager) :
  indexCurrent (updatePoliciesBySourceIP sched m)
  ∧ ∀ s ps, policyConfigsBySourceIP (updatePoliciesBySourceIP sched m) !! s = Some ps →
            ps ≠ [].
Proof.
  split; [apply updatePoliciesBySourceIP_current |].
  rewrite updatePoliciesBySourceIP_fold. apply indexAppend_nonempty.
  intros s ps. by rewrite lookup_empty.
Qed.

End Index.

(** C5 at the manager of scenario 2: the policy is listed under the address
    of the endpoint. *)
Lemma updatePoliciesBySourceIP_index_witness :
  policyConfigsBySourceIP
    (updatePoliciesBySourceIP canonical
       (updatePoliciesMatchedEndpointIDs canonical Scenario.unsynced))
    !! "10.0.0.5" = Some [1%positive]
  ∧ indexCurrent
      (updatePoliciesBySourceIP canonical
         (updatePoliciesMatchedEndpointIDs canonical Scenario.unsynced)).
Proof.
  split; [vm_compute; reflexivity |].
  apply (updatePoliciesBySourceIP_index canonical canonical_enumerates).
Defined.

(** ** Phases of the reconciler *)

Lemma hostPhase_refl ok m : hostPhase ok m m.
Proof. exists (host m), []. split; [constructor |]. rewrite app_nil_r. by destruct m. Qed.

Lemma hostPhase_trans ok m1 m2 m3 :
  hostPhase ok m1 m2 → hostPhase ok m2 m3 → hostPhase ok m1 m3.
Proof.
  intros (h & tr & Htr & ->) (h' & tr' & Htr' & ->).
  exists h', (tr ++ tr'). split; [by apply Forall_app |].
  msimpl. by rewrite app_assoc.
Qed.

Lemma hostPhase_weaken (ok ok' : Call → bool) m m' :
  (∀ c, ok c = true → ok' c = true) → hostPhase ok m m' → hostPhase ok' m m'.
Proof.
  intros Hok (h & tr & Htr & ->). exists h, tr. split; [| done].
  eapply Forall_impl; eauto.
Qed.

Lemma mapPhase_refl ok m : mapPhase ok m m.
Proof. exists (policyMap m), []. split; [constructor |]. rewrite app_nil_r. by destruct m. Qed.

Lemma mapPhase_trans ok m1 m2 m3 :
  mapPhase ok m1 m2 → mapPhase ok m2 m3 → mapPhase ok m1 m3.
Proof.
  intros (h & tr & Htr & ->) (h' & tr' & Htr' & ->).
  exists h', (tr ++ tr'). split; [by apply Forall_app |].
  msimpl. by rewrite app_assoc.
Qed.

Lemma foldl_preserves {A B} (R : A → A → Prop) (f : A → B → A) (l : list B) (a : A) :
  (∀ a, R a a) → (∀ a b c, R a b → R b c → R a c) →
  (∀ a x, x ∈ l → R a (f a x)) → R a (foldl f a l).
Proof.
  intros Hrefl Htrans. revert a. induction l as [|x l IH]; intros a Hf; simpl; [done |].
  eapply Htrans; [apply Hf; left |]. apply IH. intros a' y Hy. apply Hf. by right.
Qed.

Section Phases.
Variable env : Env.
Variable sched : Sched.

Lemma issue_eq (c : Call) (m : Manager) :
  issue sched c m = (negb (callFails sched (calls m) c), set_calls (calls m ++ [c]) m).
Proof. done. Qed.

Lemma hostPhase_issue ok c m : ok c = true → hostPhase ok m (issue sched c m).2.
Proof.
  intros Hc. exists (host m), [c]. split; [by repeat constructor |]. by destruct m.
Qed.

Lemma hostPhase_issue_host ok c m h :
  ok c = true → hostPhase ok m (set_host h (issue sched c m).2).
Proof. intros Hc. exists h, [c]. split; [by repeat constructor |]. done. Qed.

Lemma hostPhase_listEgressIpRulesForRoutingTable ok table m :
  ok (RuleListTable table) = true →
  hostPhase ok m (listEgressIpRulesForRoutingTable env sched table m).2.
Proof. intros Hc. unfold listEgressIpRulesForRoutingTable. by apply hostPhase_issue. Qed.

Lemma hostPhase_listEgressIpRules ok m :
  ok RuleList = true → hostPhase ok m (listEgressIpRules env sched m).2.
Proof. intros Hc. unfold listEgressIpRules. by apply hostPhase_issue. Qed.

Lemma hostPhase_netlink_RouteList ok m :
  ok RouteList = true → hostPhase ok m (netlink_RouteList sched m).2.
Proof. intros Hc. unfold netlink_RouteList. by apply hostPhase_issue. Qed.

Lemma hostPhase_netlink_RuleAdd ok r m :
  ok (RuleAdd r) = true → hostPhase ok m (netlink_RuleAdd sched r m).2.
Proof.
  intros Hc. unfold netlink_RuleAdd. rewrite issue_eq.
  destruct (negb _); [by apply hostPhase_issue_host | by apply hostPhase_issue].
Qed.

Lemma hostPhase_deleteIpRule ok r m :
  ok (RuleDel r) = true → hostPhase ok m (deleteIpRule sched r m).
Proof.
  intros Hc. unfold deleteIpRule. rewrite issue_eq.
  destruct (negb _); [by apply hostPhase_issue_host | by apply hostPhase_issue].
Qed.

Lemma hostPhase_deleteIpRoute ok rt m :
  ok (RouteDel rt) = true → hostPhase ok m (deleteIpRoute sched rt m).
Proof.
  intros Hc. unfold deleteIpRoute. rewrite issue_eq.
  destruct (negb _); [by apply hostPhase_issue_host | by apply hostPhase_issue].
Qed.

Lemma hostPhase_addEgressIpRoutes ok egress iface m :
  ok (RouteReplace egress iface) = true →
  hostPhase ok m (addEgressIpRoutes env sched egress iface m).2.
Proof.
  intros Hc. unfold addEgressIpRoutes. rewrite issue_eq.
  destruct (negb _); [by apply hostPhase_issue_host | by apply hostPhase_issue].
Qed.

Lemma hostPhase_addMissingIpRulesAndRoutes isRetry m :
  hostPhase isNetlinkCall m (addMissingIpRulesAndRoutes env sched isRetry m).2.
Proof.
  unfold addMissingIpRulesAndRoutes.
  destruct (negb (installRoutes m)); [apply hostPhase_refl |].
  generalize (range_values sched (policyConfigs m)). intros l.
  generalize false. intros sr.
  revert sr m. induction l as [|p l IH]; intros sr m; cbn [foldl]; [apply hostPhase_refl |].
  match goal with |- hostPhase _ _ (foldl _ ?x _).2 =>
    assert (Hx : hostPhase isNetlinkCall m x.2); [| destruct x as [sr' m'];
      eapply hostPhase_trans; [exact Hx | apply IH]] end.
  destruct (heap m !! p) as [policyConfig|]; [| apply hostPhase_refl].
  destruct (_ || _); [apply hostPhase_refl |].
  pose proof (hostPhase_listEgressIpRulesForRoutingTable isNetlinkCall
     (egressGatewayRoutingTableIdx env (ifaceIndex (policyGatewayConfig policyConfig)))
     m eq_refl) as Hlist.
  destruct (listEgressIpRulesForRoutingTable _ _ _ m) as [[ipRules|] m1]; msimpl; [| done].

  match goal with |- hostPhase _ _ (let '(_, _) := ?y in _).2 =>
    assert (Hy : hostPhase isNetlinkCall m1 y.2) end.
  { unfold forEachEndpointAndDestination.
    apply (foldl_preserves (λ a b, hostPhase isNetlinkCall a.2 b.2));
      [intros; apply hostPhase_refl | intros ? ? ?; apply hostPhase_trans |].
    intros a ep _.
    apply (foldl_preserves (λ a b, hostPhase isNetlinkCall a.2 b.2));
      [intros; apply hostPhase_refl | intros ? ? ?; apply hostPhase_trans |].
    intros a' ip _.
    apply (foldl_preserves (λ a b, hostPhase isNetlinkCall a.2 b.2));
      [intros; apply hostPhase_refl | intros ? ? ?; apply hostPhase_trans |].
    intros [sr0 m0] cidr _.
    destruct (existsb _ ipRules); [apply hostPhase_refl |].
    pose proof (hostPhase_netlink_RuleAdd isNetlinkCall
      (newEgressIpRule env ip cidr
         (egressGatewayRoutingTableIdx env (ifaceIndex (policyGatewayConfig policyConfig))))
      m0 eq_refl) as Hadd.
    destruct (netlink_RuleAdd _ _ m0) as [ok m0'].
    destruct ok; [done |]. destruct isRetry; done. }
  match goal with |- hostPhase _ _ (let '(_, _) := ?y in _).2 => destruct y as [sr2 m2] end.
  pose proof (hostPhase_addEgressIpRoutes isNetlinkCall
     (egressIP (policyGatewayConfig policyConfig))
     (ifaceIndex (policyGatewayConfig policyConfig)) m2 eq_refl) as Hroutes.
  destruct (addEgressIpRoutes _ _ _ _ m2) as [ok m3]. msimpl.
  eapply hostPhase_trans; [exact Hlist |]. eapply hostPhase_trans; [exact Hy | exact Hroutes].
Qed.

Lemma hostPhase_removeUnusedIpRulesAndRoutes (ok : Call → bool) m :
  ok RuleList = true → (∀ r, ok (RuleDel r) = true) →
  ok RouteList = true → (∀ rt, ok (RouteDel rt) = true) →
  hostPhase ok m (removeUnusedIpRulesAndRoutes env sched m).
Proof.
  intros Hrl Hrd Htl Htd. unfold removeUnusedIpRulesAndRoutes.
  pose proof (hostPhase_listEgressIpRules ok m Hrl) as Hlist.
  destruct (listEgressIpRules env sched m) as [[ipRules|] m1]; msimpl; [| done].
  eapply hostPhase_trans; [exact Hlist |].
  match goal with |- hostPhase _ _ (match netlink_RouteList _ ?x with _ => _ end) =>
    assert (Hx : hostPhase ok m1 x); [| generalize dependent x; intros m2 Hx] end.
  { apply foldl_preserves; [apply hostPhase_refl | apply hostPhase_trans |].
    intros m0 ipRule _. destruct (policyMatchesMinusExcludedCIDRs _ _ _ _ _);
      [apply hostPhase_refl | by apply hostPhase_deleteIpRule]. }
  eapply hostPhase_trans; [exact Hx |].
  match goal with |- context [foldl ?f ∅ ?l] => generalize (foldl f ∅ l) end.
  intros active.
  pose proof (hostPhase_netlink_RouteList ok m2 Htl) as Hroutes.
  destruct (netlink_RouteList sched m2) as [[routes|] m3]; msimpl; [| done].
  eapply hostPhase_trans; [exact Hroutes |].
  apply foldl_preserves; [apply hostPhase_refl | apply hostPhase_trans |].
  intros m0 route _. destruct (bool_decide _); [apply hostPhase_refl |].
  destruct (bool_decide _); [apply hostPhase_refl | by apply hostPhase_deleteIpRoute].
Qed.

Lemma reconcileLocked_synchronized (m : Manager) :
  cacheStatus m = true →
  reconcileLocked env sched m
  = set_eventsBitmap 0
      (removeUnusedEgressRules sched
         (addMissingEgressRules sched
            (reconcileRoutes env sched (regenerateGatewayConfigs sched (refreshIndexes sched m))))).
Proof.
  intros Hsync. unfold reconcileLocked, reconcileRoutes, refreshIndexes. rewrite Hsync.
  cbn [negb].
  destruct (addMissingIpRulesAndRoutes env sched false _) as [shouldRetry m1]. done.
Qed.

Lemma hostPhase_reconcileRoutes (m : Manager) :
  hostPhase isNetlinkCall m (reconcileRoutes env sched m).
Proof.
  unfold reconcileRoutes.
  pose proof (hostPhase_addMissingIpRulesAndRoutes false m) as H1.
  destruct (addMissingIpRulesAndRoutes env sched false m) as [shouldRetry m1]. msimpl.
  eapply hostPhase_trans; [exact H1 |].
  pose proof (hostPhase_removeUnusedIpRulesAndRoutes isNetlinkCall m1
                eq_refl (λ _, eq_refl) eq_refl (λ _, eq_refl)) as H2.
  destruct shouldRetry; [| done].
  eapply hostPhase_trans; [exact H2 |]. apply hostPhase_addMissingIpRulesAndRoutes.
Qed.

(** *** The policy map part *)

Lemma forEachEndpointAndCIDR_fold {S : Type} (config : PolicyConfig)
    (f : IP → IPNet → bool → gatewayConfig → S → S) (s : S) :
  forEachEndpointAndCIDR sched config f s
  = foldl (λ s t, f t.1.1 t.1.2 t.2 (policyGatewayConfig config) s) s (tuplesOf sched config).
Proof.
  unfold forEachEndpointAndCIDR, tuplesOf, range_values.
  rewrite foldl_bind. apply foldl_ext_in. intros s1 ep _.
  rewrite foldl_bind. apply foldl_ext_in. intros s2 ip _.
  by rewrite foldl_app, !foldl_fmap.
Qed.

Lemma mapPhase_issue ok c m : ok c = true → mapPhase ok m (issue sched c m).2.
Proof.
  intros Hc. exists (policyMap m), [c]. split; [by repeat constructor |]. by destruct m.
Qed.

Lemma mapPhase_issue_map ok c m pm :
  ok c = true → mapPhase ok m (set_policyMap pm (issue sched c m).2).
Proof. intros Hc. exists pm, [c]. split; [by repeat constructor |]. done. Qed.

Lemma mapPhase_policyMap_Update ok sourceIP dstCIDR egress gateway m :
  (∀ k v, ok (PolicyMapUpdate k v) = true) →
  mapPhase ok m (policyMap_Update sched sourceIP dstCIDR egress gateway m).2.
Proof.
  intros Hc. unfold policyMap_Update. rewrite issue_eq.
  destruct (negb _); [by apply mapPhase_issue_map | by apply mapPhase_issue].
Qed.

Lemma mapPhase_policyMap_Delete ok sourceIP dstCIDR m :
  (∀ k, ok (PolicyMapDelete k) = true) →
  mapPhase ok m (policyMap_Delete sched sourceIP dstCIDR m).2.
Proof.
  intros Hc. unfold policyMap_Delete. rewrite issue_eq.
  destruct (negb _); [by apply mapPhase_issue_map | by apply mapPhase_issue].
Qed.

Lemma mapPhase_addMissingEgressRules (m : Manager) :
  mapPhase isMapAdd m (addMissingEgressRules sched m).
Proof.
  unfold addMissingEgressRules, policyMap_IterateWithCallback.
  eapply mapPhase_trans; [by apply (mapPhase_issue isMapAdd PolicyMapIterate) |].
  generalize (policyMap m). intros egressPolicies.
  apply foldl_preserves; [apply mapPhase_refl | apply mapPhase_trans |].
  intros m0 p _. destruct (heap m0 !! p) as [policyConfig|]; [| apply mapPhase_refl].
  rewrite forEachEndpointAndCIDR_fold.
  apply foldl_preserves; [apply mapPhase_refl | apply mapPhase_trans |].
  intros m1 t _. cbv beta zeta.
  destruct (match egressPolicies !! _ with Some _ => _ | None => _ end);
    [apply mapPhase_refl | by apply mapPhase_policyMap_Update].
Qed.

Lemma mapPhase_removeUnusedEgressRules (m : Manager) :
  mapPhase isMapRemove m (removeUnusedEgressRules sched m).
Proof.
  unfold removeUnusedEgressRules, policyMap_IterateWithCallback.
  eapply mapPhase_trans; [by apply (mapPhase_issue isMapRemove PolicyMapIterate) |].
  generalize (policyMap m). intros egressPolicies.
  apply foldl_preserves; [apply mapPhase_refl | apply mapPhase_trans |].
  intros m0 [policyKey policyVal] _.
  destruct (policyMatches _ _ _ _); [apply mapPhase_refl | by apply mapPhase_policyMap_Delete].
Qed.

End Phases.

Lemma hostPhase_calls ok m m' :
  hostPhase ok m m' → ∃ tr, calls m' = calls m ++ tr ∧ Forall (λ c, ok c = true) tr.
Proof. intros (h & tr & Htr & ->). by exists tr. Qed.

Lemma mapPhase_calls ok m m' :
  mapPhase ok m m' → ∃ tr, calls m' = calls m ++ tr ∧ Forall (λ c, ok c = true) tr.
Proof. intros (h & tr & Htr & ->). by exists tr. Qed.

Lemma updatesPrecedeDeletes_app (a b : list Call) :
  Forall (λ c, isPolicyMapDelete c = false) a →
  Forall (λ c, isPolicyMapUpdate c = false) b →
  updatesPrecedeDeletes (a ++ b).
Proof.
  intros Ha Hb i j (c & Hi & Hc) (c' & Hj & Hc').
  destruct (decide (i < length a)%nat) as [Hlt|Hge].
  - destruct (decide (j < length a)%nat) as [Hlt'|Hge']; [| lia].
    rewrite lookup_app_l in Hj by done.
    rewrite Forall_forall in Ha. apply list_elem_of_lookup_2, Ha in Hj. congruence.
  - rewrite lookup_app_r in Hi by lia.
    rewrite Forall_forall in Hb. apply list_elem_of_lookup_2, Hb in Hi. congruence.
Qed.

Section Order.
Variable env : Env.
Variable sched : Sched.

Lemma calls_refreshIndexes (m : Manager) :
  calls (refreshIndexes sched m) = calls m
  ∧ host (refreshIndexes sched m) = host m
  ∧ installRoutes (refreshIndexes sched m) = installRoutes m
  ∧ policyMap (refreshIndexes sched m) = policyMap m.
Proof.
  unfold refreshIndexes. repeat (destruct (eventBitmapIsSet _ _)); done.
Qed.

(** The calls of a synchronized run: netlink calls, then the calls of
    [addMissingEgressRules], then the calls of [removeUnusedEgressRules]. *)
Lemma reconcileLocked_calls (m : Manager) :
  cacheStatus m = true →
  ∃ trRoutes trAdd trRemove,
    issued (reconcileLocked env sched) m = trRoutes ++ trAdd ++ trRemove
    ∧ Forall (λ c, isNetlinkCall c = true) trRoutes
    ∧ calls (reconcileRoutes env sched (regenerateGatewayConfigs sched (refreshIndexes sched m)))
      = calls m ++ trRoutes
    ∧ Forall (λ c, isMapAdd c = true) trAdd
    ∧ Forall (λ c, isMapRemove c = true) trRemove.
Proof.
  intros Hsync. unfold issued. rewrite reconcileLocked_synchronized by done.
  set (m1 := regenerateGatewayConfigs sched (refreshIndexes sched m)).
  assert (Hc1 : calls m1 = calls m) by apply calls_refreshIndexes.
  pose proof (hostPhase_reconcileRoutes env sched m1) as Hh.
  destruct (hostPhase_calls _ _ _ Hh) as (trRoutes & Hc2 & HtrRoutes).
  set (m2 := reconcileRoutes env sched m1) in *.
  destruct (mapPhase_calls _ _ _ (mapPhase_addMissingEgressRules sched m2))
    as (trAdd & Hc3 & HtrAdd).
  set (m3 := addMissingEgressRules sched m2) in *.
  destruct (mapPhase_calls _ _ _ (mapPhase_removeUnusedEgressRules sched m3))
    as (trRemove & Hc4 & HtrRemove).
  exists trRoutes, trAdd, trRemove. msimpl.
  rewrite Hc4, Hc3, Hc2, Hc1, <- !app_assoc, drop_app_length. done.
Qed.

(** C2: in a run of [reconcileLocked] every update of the policy map is
    issued before every delete, whatever calls fail. *)
Theorem reconcileLocked_updates_before_deletes (m : Manager) :
  updatesPrecedeDeletes (issued (reconcileLocked env sched) m).
Proof.
  destruct (cacheStatus m) eqn:Hsync.
  - destruct (reconcileLocked_calls m Hsync)
      as (trRoutes & trAdd & trRemove & -> & HtrRoutes & _ & HtrAdd & HtrRemove).
    rewrite app_assoc. apply updatesPrecedeDeletes_app.
    + apply Forall_app. split.
      * eapply Forall_impl; [exact HtrRoutes |]. by intros [].
      * eapply Forall_impl; [exact HtrAdd |]. by intros [].
    + eapply Forall_impl; [exact HtrRemove |]. by intros [].
  - unfold issued, reconcileLocked. rewrite Hsync. cbn [negb]. rewrite drop_all.
    intros i j (c & Hi & _). by rewrite lookup_nil in Hi.
Qed.

(** *** Routes not to be installed *)

Lemma existsb_false {A} (f : A → bool) (l : list A) :
  (∀ x, x ∈ l → f x = false) → existsb f l = false.
Proof.
  induction l as [|x l IH]; intros Hf; simpl; [done |].
  rewrite Hf by left. apply IH. intros y Hy. apply Hf. by right.
Qed.

Lemma policyMatchesMinusExcludedCIDRs_never (m : Manager) (sourceIP : IP)
    (f : IP → IPNet → gatewayConfig → bool) :
  (∀ ip cidr gwc, f ip cidr gwc = false) →
  policyMatchesMinusExcludedCIDRs env sched m sourceIP f = false.
Proof.
  intros Hf. unfold policyMatchesMinusExcludedCIDRs.
  apply existsb_false. intros p _. destruct (heap m !! p) as [policy|]; [| done].
  apply existsb_false. intros ep _. apply existsb_false. intros ip _.
  destruct (negb _); [done |]. apply existsb_false. intros cidr _. apply Hf.
Qed.

Lemma deleteIpRule_calls (r : Rule) (m : Manager) :
  ∃ h, deleteIpRule sched r m = set_calls (calls m ++ [RuleDel r]) (set_host h m).
Proof.
  unfold deleteIpRule. rewrite issue_eq. destruct (negb _).
  - by eexists.
  - exists (host m). by destruct m.
Qed.

Lemma removeUnusedIpRules_disabled (ipRules : list Rule) (m : Manager) :
  installRoutes m = false →
  ∃ h tr,
    foldl (λ m ipRule,
      let matchFunc (endpointIP : IP) (dstCIDR : IPNet) (gwc : gatewayConfig) : bool :=
        if negb (installRoutes m) then false
        else if negb (localNodeConfiguredAsGateway gwc) then false
        else bool_decide (ruleDst ipRule = dstCIDR) in
      if policyMatchesMinusExcludedCIDRs env sched m (netIP (ruleSrc ipRule)) matchFunc then m
      else deleteIpRule sched ipRule m) m ipRules
    = set_calls (calls m ++ tr) (set_host h m)
    ∧ ∀ r, r ∈ ipRules → RuleDel r ∈ tr.
Proof.
  revert m. induction ipRules as [|r l IH]; intros m Hoff; cbn [foldl].
  - exists (host m), []. rewrite app_nil_r. split; [by destruct m |].
    intros r Hr. by apply elem_of_nil in Hr.
  - rewrite policyMatchesMinusExcludedCIDRs_never by (intros; by rewrite Hoff).
    cbv iota.
    destruct (deleteIpRule_calls r m) as [h ->].
    destruct (IH (set_calls (calls m ++ [RuleDel r]) (set_host h m)) Hoff)
      as (h' & tr & Heq & Htr).
    exists h', (RuleDel r :: tr). split.
    + etrans; [exact Heq |]. msimpl. by rewrite <- app_assoc.
    + intros r' [->|Hr']%elem_of_cons; [left | right; by apply Htr].
Qed.

Lemma removeUnusedIpRulesAndRoutes_disabled (m : Manager) :
  installRoutes m = false →
  callFails sched (calls m) RuleList = false →
  ∃ tr, calls (removeUnusedIpRulesAndRoutes env sched m) = calls m ++ tr
        ∧ ∀ r, r ∈ hostRules (host m) → isEgressRule env r = true → RuleDel r ∈ tr.
Proof.
  intros Hoff Hlist. unfold removeUnusedIpRulesAndRoutes, listEgressIpRules.
  rewrite issue_eq, Hlist. cbn [negb].
  destruct (removeUnusedIpRules_disabled
              (filter (λ r, isEgressRule env r = true)
                 (hostRules (host (set_calls (calls m ++ [RuleList]) m))))
              (set_calls (calls m ++ [RuleList]) m) Hoff) as (h & tr & Heq & Htr).
  cbn [fst snd].
  match goal with |- context [foldl ?f (set_calls ?c m) ?l] =>
    assert (Heq' : foldl f (set_calls c m) l
                   = set_calls (calls (set_calls c m) ++ tr) (set_host h (set_calls c m)))
      by exact Heq;
    rewrite !Heq'; clear Heq Heq' end.
  match goal with |- context [foldl ?f ∅ ?l] => generalize (foldl f ∅ l) end.
  intros active.
  set (m2 := set_calls _ (set_host h _)).
  assert (Hm2 : calls m2 = calls m ++ RuleList :: tr).
  { unfold m2. msimpl. by rewrite <- app_assoc. }
  assert (Hin : ∀ r, r ∈ hostRules (host m) → isEgressRule env r = true →
                     RuleDel r ∈ RuleList :: tr).
  { intros r Hr Hegress. right. apply Htr. msimpl. by apply list_elem_of_filter. }
  clearbody m2.
  pose proof (hostPhase_netlink_RouteList sched (λ _, true) m2 eq_refl) as Hroutes.
  destruct (netlink_RouteList sched m2) as [[routes|] m3]; msimpl.
  - match goal with |- ∃ _, calls (foldl ?f _ _) = _ ∧ _ =>
      assert (Hfold : hostPhase (λ _, true) m3 (foldl f m3 routes)) end.
    { apply foldl_preserves; [apply hostPhase_refl | apply hostPhase_trans |].
      intros m0 route _. destruct (bool_decide _); [apply hostPhase_refl |].
      destruct (bool_decide _); [apply hostPhase_refl | by apply hostPhase_deleteIpRoute]. }
    destruct (hostPhase_calls _ _ _ (hostPhase_trans _ _ _ _ Hroutes Hfold)) as (tr' & -> & _).
    exists ((RuleList :: tr) ++ tr'). rewrite Hm2, <- app_assoc. split; [done |].
    intros r Hr Hegress. apply elem_of_app. left. by apply Hin.
  - destruct (hostPhase_calls _ _ _ Hroutes) as (tr' & -> & _).
    exists ((RuleList :: tr) ++ tr'). rewrite Hm2, <- app_assoc. split; [done |].
    intros r Hr Hegress. apply elem_of_app. left. by apply Hin.
Qed.

Lemma reconcileRoutes_disabled (m : Manager) :
  installRoutes m = false →
  reconcileRoutes env sched m = removeUnusedIpRulesAndRoutes env sched m.
Proof.
  intros Hoff. unfold reconcileRoutes, addMissingIpRulesAndRoutes. by rewrite Hoff.
Qed.

End Order.

(** C4 as the specification states it fails on a host that still has an ip
    rule of the egress gateway: the run deletes the rule. *)
Lemma reconcileLocked_routes_disabled_deletes :
  installRoutes Scenario.stale_before = false
  ∧ ¬ noRouteTableWrites (issued (reconcileLocked Scenario.env canonical) Scenario.stale_before).
Proof.
  split; [reflexivity |]. intros H.
  destruct (H (RuleDel Scenario.staleRule)) as [_ Hdel]; [| discriminate].
  vm_compute. right. left.
Qed.

(** ** What the policy map part computes *)

Lemma val_Match_eq (v : EgressPolicyVal4) (egress gateway : IP) :
  val_Match v egress gateway = true ↔ v = mkEgressPolicyVal4 egress gateway.
Proof.
  unfold val_Match, ip_Equal. rewrite andb_true_iff, !bool_decide_eq_true.
  destruct v; simpl. split; [intros [-> ->] | intros [= -> ->]]; done.
Qed.

Lemma key_Match_eq (k : EgressPolicyKey4) (sourceIP : IP) (dstCIDR : IPNet) :
  key_Match k sourceIP dstCIDR = true ↔ k = NewEgressPolicyKey4 sourceIP dstCIDR.
Proof.
  unfold key_Match, ip_Equal, NewEgressPolicyKey4.
  rewrite andb_true_iff, !bool_decide_eq_true. destruct k; simpl.
  split; [intros [-> ->] | intros [= -> ->]]; done.
Qed.

Section Entries.
Variable sched : Sched.
Hypothesis sched_enumerates : enumerates sched.

Lemma elem_of_range_snd {K} `{Countable K} {V} (mp : gmap K V) (v : V) :
  v ∈ (range sched mp).*2 ↔ ∃ k, mp !! k = Some v.
Proof.
  rewrite list_elem_of_fmap. split.
  - intros ([k v'] & -> & Hin). exists k. apply elem_of_map_to_list.
    by rewrite <- (sched_enumerates _ _ _ _ mp).
  - intros [k Hk]. exists (k, v). split; [done |].
    rewrite (sched_enumerates _ _ _ _ mp). by apply elem_of_map_to_list.
Qed.

Lemma elem_of_range {K} `{Countable K} {V} (mp : gmap K V) (k : K) (v : V) :
  (k, v) ∈ range sched mp ↔ mp !! k = Some v.
Proof. rewrite (sched_enumerates _ _ _ _ mp). apply elem_of_map_to_list. Qed.

Lemma elem_of_tuplesOf (P : PolicyConfig) (ip : IP) (cidr : IPNet) (excluded : bool) :
  (ip, cidr, excluded) ∈ tuplesOf sched P ↔
  ∃ id ep, matchedEndpoints P !! id = Some ep ∧ ip ∈ epIPs ep ∧
           cidr ∈ (if excluded then excludedCIDRs P else dstCIDRs P).
Proof.
  unfold tuplesOf. rewrite list_elem_of_bind. split.
  - intros (ep & Hin & [id Hid]%elem_of_range_snd).
    apply list_elem_of_bind in Hin as (ip' & Hin & Hip).
    exists id, ep. split; [done |].
    apply elem_of_app in Hin as [Hin|Hin];
      apply list_elem_of_fmap in Hin as (c & [= -> -> ->] & Hc); done.
  - intros (id & ep & Hid & Hip & Hc). exists ep.
    split; [| apply elem_of_range_snd; eauto].
    apply list_elem_of_bind. exists ip. split; [| done].
    apply elem_of_app. destruct excluded; [right | left];
      apply list_elem_of_fmap; eauto.
Qed.

Lemma elem_of_entriesOf (P : PolicyConfig) (k : EgressPolicyKey4) (v : EgressPolicyVal4) :
  (k, v) ∈ entriesOf sched P ↔ policyEntry P k v.
Proof.
  unfold entriesOf, policyEntry. rewrite list_elem_of_fmap. split.
  - intros ([[ip cidr] excluded] & [= -> ->] & Hin).
    apply elem_of_tuplesOf in Hin as (id & ep & Hid & Hip & Hc).
    exists id, ep, ip, cidr. repeat split; try done.
    destruct excluded; [right | left]; done.
  - intros (id & ep & ip & cidr & Hid & Hip & -> & [[Hc ->]|[Hc ->]]).
    + exists (ip, cidr, false). split; [done |]. apply elem_of_tuplesOf. eauto.
    + exists (ip, cidr, true). split; [done |]. apply elem_of_tuplesOf. eauto.
Qed.

Lemma elem_of_allEntries (m : Manager) (k : EgressPolicyKey4) (v : EgressPolicyVal4) :
  (k, v) ∈ allEntries sched m ↔ wanted m k v.
Proof.
  unfold allEntries, wanted, policyAt. rewrite list_elem_of_bind. split.
  - intros (p & Hin & [id Hid]%elem_of_range_snd).
    destruct (heap m !! p) as [P|] eqn:Hheap; [| by apply elem_of_nil in Hin].
    exists p, P. split; [eauto |]. by apply elem_of_entriesOf.
  - intros (p & P & [[id Hid] Hheap] & Hentry). exists p.
    rewrite Hheap. split; [by apply elem_of_entriesOf | apply elem_of_range_snd; eauto].
Qed.

Lemma matchPolicy_eq k v ip cidr excluded gwc :
  matchPolicy k v ip cidr excluded gwc = true ↔ (k, v) = entryOf gwc (ip, cidr, excluded).
Proof.
  unfold matchPolicy, entryOf. rewrite andb_true_iff, key_Match_eq, val_Match_eq.
  simpl. split; [intros [-> ->] | intros [= -> ->]]; done.
Qed.

(** [policyMatches] finds a policy under the source address of the key
    exactly when one of the policies listed there asks for the entry. *)
Lemma policyMatches_entries (m : Manager) (k : EgressPolicyKey4) (v : EgressPolicyVal4) :
  policyMatches sched m (keySourceIP k) (matchPolicy k v) = true ↔
  ∃ p P, p ∈ default [] (policyConfigsBySourceIP m !! ip_String (keySourceIP k))
         ∧ heap m !! p = Some P ∧ (k, v) ∈ entriesOf sched P.
Proof.
  unfold policyMatches. rewrite existsb_exists. split.
  - intros (p & Hp%list_elem_of_In & Hmatch). exists p.
    destruct (heap m !! p) as [P|]; [| done]. exists P. split; [done |]. split; [done |].
    apply existsb_exists in Hmatch as (ep & Hep%list_elem_of_In & Hmatch).
    apply existsb_exists in Hmatch as (ip & Hip%list_elem_of_In & Hmatch).
    destruct (ip_Equal ip (keySourceIP k)); [| done]. cbn [negb] in Hmatch.
    unfold entriesOf. apply list_elem_of_fmap.
    apply orb_true_iff in Hmatch as [Hmatch|Hmatch];
      apply existsb_exists in Hmatch as (cidr & Hc%list_elem_of_In & Hmatch);
      apply matchPolicy_eq in Hmatch.
    + exists (ip, cidr, false). split; [done |]. unfold tuplesOf.
      apply list_elem_of_bind. exists ep. split; [| done].
      apply list_elem_of_bind. exists ip. split; [| done].
      apply elem_of_app. left. apply list_elem_of_fmap. eauto.
    + exists (ip, cidr, true). split; [done |]. unfold tuplesOf.
      apply list_elem_of_bind. exists ep. split; [| done].
      apply list_elem_of_bind. exists ip. split; [| done].
      apply elem_of_app. right. apply list_elem_of_fmap. eauto.
  - intros (p & P & Hp & Hheap & Hin). exists p. split; [by apply list_elem_of_In |].
    rewrite Hheap. unfold entriesOf in Hin.
    apply list_elem_of_fmap in Hin as ([[ip cidr] excluded] & Heq & Hin).
    unfold tuplesOf in Hin.
    apply list_elem_of_bind in Hin as (ep & Hin & Hep).
    apply list_elem_of_bind in Hin as (ip' & Hin & Hip).
    apply existsb_exists. exists ep. split; [by apply list_elem_of_In |].
    apply existsb_exists. exists ip'. split; [by apply list_elem_of_In |].
    assert (Hip' : ip' = ip ∧ cidr ∈ (if excluded then excludedCIDRs P else dstCIDRs P)).
    { apply elem_of_app in Hin as [Hin|Hin];
        apply list_elem_of_fmap in Hin as (c & [= -> -> ->] & Hc); done. }
    destruct Hip' as [-> Hc].
    assert (Hsrc : keySourceIP k = ip) by (by injection Heq as -> _).
    unfold ip_Equal. rewrite bool_decide_eq_true_2 by done. cbn [negb].
    apply orb_true_iff. destruct excluded; [right | left];
      apply existsb_exists; exists cidr; (split; [by apply list_elem_of_In |]);
      by apply matchPolicy_eq.
Qed.

Lemma policyMatches_wanted (m : Manager) (k : EgressPolicyKey4) (v : EgressPolicyVal4) :
  indexCurrent m →
  policyMatches sched m (keySourceIP k) (matchPolicy k v) = true ↔ wanted m k v.
Proof.
  intros Hindex. rewrite policyMatches_entries. unfold wanted. split.
  - intros (p & P & Hp & Hheap & Hin). exists p, P.
    apply Hindex in Hp as (P' & _ & _ & _ & [Hat _] & _).
    split; [by split |]. by apply elem_of_entriesOf.
  - intros (p & P & [Hat Hheap] & Hentry). exists p, P.
    split; [| split; [done | by apply elem_of_entriesOf]].
    apply Hindex. destruct Hentry as (id & ep & ip & cidr & Hid & Hip & -> & _).
    exists P, id, ep, ip. done.
Qed.

End Entries.

Lemma insertEntries_notin (l : list Entry) (pm : PolicyMap) (k : EgressPolicyKey4) :
  k ∉ l.*1 → foldl insertEntry pm l !! k = pm !! k.
Proof.
  revert pm. induction l as [|e l IH]; intros pm Hk; cbn [foldl]; [done |].
  rewrite fmap_cons, not_elem_of_cons in Hk. destruct Hk as [Hne Hk].
  rewrite IH by done. unfold insertEntry. by rewrite lookup_insert_ne.
Qed.

Lemma insertEntries_in (l : list Entry) (pm : PolicyMap) (k : EgressPolicyKey4) :
  k ∈ l.*1 → ∃ v, (k, v) ∈ l ∧ foldl insertEntry pm l !! k = Some v.
Proof.
  revert pm. induction l as [|e l IH]; intros pm Hk; cbn [foldl].
  - by apply elem_of_nil in Hk.
  - destruct (decide (k ∈ l.*1)) as [Hin|Hnotin].
    + destruct (IH (insertEntry pm e) Hin) as (v & Hv & Hlookup).
      exists v. split; [by right | done].
    + rewrite fmap_cons, elem_of_cons in Hk. destruct Hk as [->|Hk]; [| done].
      exists e.2. split; [destruct e; left |].
      rewrite insertEntries_notin by done. unfold insertEntry. apply lookup_insert_eq.
Qed.

Lemma deleteEntries_lookup (l : list Entry) (pm : PolicyMap) (k : EgressPolicyKey4) :
  foldl deleteEntry pm l !! k = if decide (k ∈ l.*1) then None else pm !! k.
Proof.
  revert pm. induction l as [|e l IH]; intros pm; cbn [foldl].
  - rewrite decide_False; [done |]. apply not_elem_of_nil.
  - rewrite IH, fmap_cons. unfold deleteEntry.
    destruct (decide (k ∈ l.*1)) as [Hin|Hnotin].
    + rewrite decide_True; [done | by right].
    + destruct (decide (k = e.1)) as [->|Hne].
      * rewrite decide_True by left. apply lookup_delete_eq.
      * rewrite decide_False by (by rewrite not_elem_of_cons).
        by rewrite lookup_delete_ne.
Qed.

Section MapPart.
Variable sched : Sched.
Hypothesis writes_succeed : policyMapWritesSucceed sched.

Lemma addMissingEgressRules_unfold (m : Manager) :
  addMissingEgressRules sched m
  = foldl (λ m' p,
      match heap m' !! p with
      | None => m'
      | Some policyConfig =>
          forEachEndpointAndCIDR sched policyConfig (addEgressRule sched (policyMap m)) m'
      end) (set_calls (calls m ++ [PolicyMapIterate]) m) (range_values sched (policyConfigs m)).
Proof. reflexivity. Qed.

Lemma addEgressRule_step (snapshot pm : PolicyMap) (c : list Call) (m : Manager)
    (gwc : gatewayConfig) (t : IP * IPNet * bool) :
  addEgressRule sched snapshot t.1.1 t.1.2 t.2 gwc (set_calls c (set_policyMap pm m))
  = set_calls (c ++ ((λ e, PolicyMapUpdate e.1 e.2) <$> missing snapshot [entryOf gwc t]))
      (set_policyMap (foldl insertEntry pm (missing snapshot [entryOf gwc t])) m).
Proof.
  unfold addEgressRule, missing. rewrite filter_cons, filter_nil.
  cbn [entryOf fst snd].
  set (k := NewEgressPolicyKey4 t.1.1 t.1.2).
  set (gw := if t.2 then ExcludedCIDRIPv4 else gatewayIP gwc).
  destruct (decide (snapshot !! k ≠ Some (mkEgressPolicyVal4 (netIP (egressIP gwc)) gw)))
    as [Hne|Heq].
  - assert (Hmatch : match snapshot !! k with
                     | Some policyVal => val_Match policyVal (netIP (egressIP gwc)) gw
                     | None => false
                     end = false).
    { destruct (snapshot !! k) as [v|]; [| done].
      apply not_true_is_false. rewrite val_Match_eq. naive_solver. }
    rewrite Hmatch. unfold policyMap_Update. rewrite issue_eq.
    rewrite writes_succeed by done. done.
  - apply dec_stable in Heq. rewrite Heq.
    rewrite (proj2 (val_Match_eq _ _ _) eq_refl). cbn [fmap list_fmap foldl].
    by rewrite app_nil_r.
Qed.

Lemma missing_app snapshot (l1 l2 : list Entry) :
  missing snapshot (l1 ++ l2) = missing snapshot l1 ++ missing snapshot l2.
Proof. apply filter_app. Qed.

Lemma missing_cons snapshot (e : Entry) (l : list Entry) :
  missing snapshot (e :: l) = missing snapshot [e] ++ missing snapshot l.
Proof. apply (missing_app snapshot [e] l). Qed.

Lemma addEgressRule_fold (snapshot : PolicyMap) (m : Manager) (gwc : gatewayConfig)
    (ts : list (IP * IPNet * bool)) (c : list Call) (pm : PolicyMap) :
  foldl (λ s t, addEgressRule sched snapshot t.1.1 t.1.2 t.2 gwc s)
    (set_calls c (set_policyMap pm m)) ts
  = set_calls (c ++ ((λ e, PolicyMapUpdate e.1 e.2) <$> missing snapshot (entryOf gwc <$> ts)))
      (set_policyMap (foldl insertEntry pm (missing snapshot (entryOf gwc <$> ts))) m).
Proof.
  revert c pm. induction ts as [|t ts IH]; intros c pm; cbn [foldl].
  - cbn. by rewrite app_nil_r.
  - rewrite addEgressRule_step, IH.
    rewrite fmap_cons, (missing_cons snapshot (entryOf gwc t) (entryOf gwc <$> ts)).
    by rewrite fmap_app, foldl_app, app_assoc.
Qed.

Lemma addMissingEgressRules_fold (snapshot : PolicyMap) (m : Manager)
    (l : list positive) (c : list Call) (pm : PolicyMap) :
  let es := l ≫= (λ p, match heap m !! p with
                        | None => []
                        | Some P => entriesOf sched P
                        end) in
  foldl (λ m' p,
      match heap m' !! p with
      | None => m'
      | Some policyConfig =>
          forEachEndpointAndCIDR sched policyConfig (addEgressRule sched snapshot) m'
      end) (set_calls c (set_policyMap pm m)) l
  = set_calls (c ++ ((λ e, PolicyMapUpdate e.1 e.2) <$> missing snapshot es))
      (set_policyMap (foldl insertEntry pm (missing snapshot es)) m).
Proof.
  revert c pm. induction l as [|p l IH]; intros c pm; cbn [foldl mbind list_bind].
  - cbn. by rewrite app_nil_r.
  - cbn zeta in IH. msimpl. destruct (heap m !! p) as [P|].
    + rewrite forEachEndpointAndCIDR_fold, addEgressRule_fold, IH.
      rewrite missing_app, fmap_app, foldl_app, app_assoc. done.
    + rewrite IH. done.
Qed.

(** When the writes succeed [addMissingEgressRules] inserts the missing
    entries, in the order of its visits, and logs one update for each. *)
Lemma addMissingEgressRules_eq (m : Manager) :
  let es := missing (policyMap m) (allEntries sched m) in
  addMissingEgressRules sched m
  = set_calls (calls m ++ PolicyMapIterate :: ((λ e, PolicyMapUpdate e.1 e.2) <$> es))
      (set_policyMap (foldl insertEntry (policyMap m) es) m).
Proof.
  cbn zeta. rewrite addMissingEgressRules_unfold.
  replace (set_calls (calls m ++ [PolicyMapIterate]) m)
    with (set_calls (calls m ++ [PolicyMapIterate]) (set_policyMap (policyMap m) m))
    by (by destruct m).
  pose proof (addMissingEgressRules_fold (policyMap m) m (range_values sched (policyConfigs m))
                (calls m ++ [PolicyMapIterate]) (policyMap m)) as H.
  cbn zeta in H. etrans; [exact H |]. unfold allEntries, range_values.
  by rewrite <- app_assoc.
Qed.

Lemma policyMap_Delete_step (k : EgressPolicyKey4) (c : list Call) (pm : PolicyMap)
    (m : Manager) :
  (policyMap_Delete sched (keySourceIP k) (keyDestCIDR k) (set_calls c (set_policyMap pm m))).2
  = set_calls (c ++ [PolicyMapDelete k]) (set_policyMap (delete k pm) m).
Proof.
  unfold policyMap_Delete. rewrite issue_eq. rewrite writes_succeed by done.
  destruct k. reflexivity.
Qed.

Lemma removeUnusedEgressRules_fold (m : Manager) (es : list Entry)
    (c : list Call) (pm : PolicyMap) :
  foldl (λ m' '(policyKey, policyVal),
      if policyMatches sched m' (keySourceIP policyKey) (matchPolicy policyKey policyVal)
      then m'
      else (policyMap_Delete sched (keySourceIP policyKey) (keyDestCIDR policyKey) m').2)
    (set_calls c (set_policyMap pm m)) es
  = set_calls (c ++ ((λ e, PolicyMapDelete e.1) <$> unused sched m es))
      (set_policyMap (foldl deleteEntry pm (unused sched m es)) m).
Proof.
  revert c pm. induction es as [|[k v] es IH]; intros c pm; cbn [foldl].
  - cbn. by rewrite app_nil_r.
  - unfold unused. rewrite filter_cons. cbn [fst snd]. fold (unused sched m es).
    change (policyMatches sched (set_calls c (set_policyMap pm m)))
      with (policyMatches sched m).
    destruct (policyMatches sched m (keySourceIP k) (matchPolicy k v)) eqn:Hmatch.
    + rewrite decide_False by done. apply IH.
    + rewrite decide_True by done. rewrite policyMap_Delete_step, IH.
      cbn [fmap list_fmap foldl]. by rewrite <- app_assoc.
Qed.

(** When the writes succeed [removeUnusedEgressRules] deletes the entries
    no policy matches and logs one delete for each. *)
Lemma removeUnusedEgressRules_eq (m : Manager) :
  let es := unused sched m (range sched (policyMap m)) in
  removeUnusedEgressRules sched m
  = set_calls (calls m ++ PolicyMapIterate :: ((λ e, PolicyMapDelete e.1) <$> es))
      (set_policyMap (foldl deleteEntry (policyMap m) es) m).
Proof.
  cbn zeta.
  pose proof (removeUnusedEgressRules_fold m (range sched (policyMap m))
                (calls m ++ [PolicyMapIterate]) (policyMap m)) as H.
  rewrite <- app_assoc in H. cbn [app] in H. rewrite <- H.
  replace (set_calls (calls m ++ [PolicyMapIterate]) (set_policyMap (policyMap m) m))
    with (set_calls (calls m ++ [PolicyMapIterate]) m) by (by destruct m).
  reflexivity.
Qed.

End MapPart.

Lemma foldl_alter_lookup {A} (f : A → A) (l : list positive) (h : gmap positive A)
    (q : positive) :
  (∀ x, f (f x) = f x) →
  foldl (λ h p, alter f p h) h l !! q = if decide (q ∈ l) then f <$> h !! q else h !! q.
Proof.
  intros Hidem. revert h. induction l as [|p l IH]; intros h; cbn [foldl].
  - rewrite decide_False; [done | apply not_elem_of_nil].
  - rewrite IH, lookup_alter. destruct (decide (p = q)) as [->|Hpq].
    + rewrite (decide_True (P := q ∈ q :: l)) by left.
      destruct (decide (q ∈ l)); [| done].
      destruct (h !! q); cbn; [by rewrite Hidem | done].
    + destruct (decide (q ∈ l)) as [Hin|Hnotin].
      * rewrite (decide_True (P := q ∈ p :: l)) by (by right). done.
      * rewrite (decide_False (P := q ∈ p :: l)); [done |].
        intros [?|?]%elem_of_cons; done.
Qed.

Section MapSpec.
Variable sched : Sched.
Hypothesis sched_enumerates : enumerates sched.

(** After the missing entries are inserted every wanted key holds a wanted
    value. *)
Lemma missing_inserted (snapshot : PolicyMap) (es : list Entry) k v :
  (k, v) ∈ es →
  ∃ v', foldl insertEntry snapshot (missing snapshot es) !! k = Some v' ∧ (k, v') ∈ es.
Proof.
  intros Hin. destruct (decide (k ∈ (missing snapshot es).*1)) as [Hk|Hk].
  - destruct (insertEntries_in _ snapshot k Hk) as (v' & Hv' & Hlookup).
    exists v'. split; [done |]. unfold missing in Hv'.
    by apply list_elem_of_filter in Hv' as [_ ?].
  - rewrite insertEntries_notin by done. exists v. split; [| done].
    destruct (decide (snapshot !! k = Some v)) as [|Hne]; [done |].
    exfalso. apply Hk. apply list_elem_of_fmap. exists (k, v). split; [done |].
    unfold missing. by apply list_elem_of_filter.
Qed.

(** After the unused entries are deleted the map holds the entries that
    were there and that a policy matches. *)
Lemma unused_deleted (m : Manager) (pm : PolicyMap) k v :
  foldl deleteEntry pm (unused sched m (range sched pm)) !! k = Some v ↔
  pm !! k = Some v ∧ policyMatches sched m (keySourceIP k) (matchPolicy k v) = true.
Proof.
  rewrite deleteEntries_lookup. split.
  - case_decide as Hk; [done |]. intros Hlookup. split; [done |].
    apply not_false_is_true. intros Hunused. apply Hk.
    apply list_elem_of_fmap. exists (k, v). split; [done |].
    unfold unused. apply list_elem_of_filter. split; [done |].
    by apply (elem_of_range sched sched_enumerates).
  - intros [Hlookup Hused]. rewrite decide_False; [done |].
    intros ([k' v'] & Heq & Hin)%list_elem_of_fmap. cbn in Heq. subst k'.
    unfold unused in Hin. apply list_elem_of_filter in Hin as [Hunused Hin].
    apply (elem_of_range sched sched_enumerates) in Hin.
    cbn [fst snd] in Hunused. congruence.
Qed.

Lemma mapPart_spec (m : Manager) (snapshot : PolicyMap) :
  indexCurrent m →
  let added := foldl insertEntry snapshot (missing snapshot (allEntries sched m)) in
  let final := foldl deleteEntry added (unused sched m (range sched added)) in
  (∀ k v, final !! k = Some v → wanted m k v)
  ∧ (∀ k v, wanted m k v → ∃ v', final !! k = Some v').
Proof.
  intros Hindex added final. split.
  - intros k v [_ Hused]%unused_deleted.
    by apply (policyMatches_wanted sched sched_enumerates).
  - intros k v Hwanted.
    apply (elem_of_allEntries sched sched_enumerates) in Hwanted.
    destruct (missing_inserted snapshot _ k v Hwanted) as (v' & Hlookup & Hin).
    exists v'. apply unused_deleted. split; [done |].
    apply (policyMatches_wanted sched sched_enumerates); [done |].
    by apply (elem_of_allEntries sched sched_enumerates).
Qed.

(** *** The index refresh and the gateway configurations *)

Lemma rebuildPending_split (m : Manager) :
  rebuildPending m
  = eventBitmapIsSet [eventUpdateEndpoint; eventDeleteEndpoint] m
    || eventBitmapIsSet [eventAddPolicy; eventDeletePolicy] m
    || eventBitmapIsSet [eventK8sSyncDone] m.
Proof.
  unfold rebuildPending, eventBitmapIsSet. cbn [existsb].
  rewrite !orb_false_r, !orb_assoc. done.
Qed.

Lemma eventBitmapIsSet_updatePoliciesBySourceIP l (m : Manager) :
  eventBitmapIsSet l (updatePoliciesBySourceIP sched m) = eventBitmapIsSet l m.
Proof. reflexivity. Qed.

Lemma eventBitmapIsSet_updatePoliciesMatchedEndpointIDs l (m : Manager) :
  eventBitmapIsSet l (updatePoliciesMatchedEndpointIDs sched m) = eventBitmapIsSet l m.
Proof. reflexivity. Qed.

Lemma refreshIndexes_indexCurrent (m : Manager) :
  indexInv m → indexCurrent (refreshIndexes sched m).
Proof.
  intros Hinv. unfold refreshIndexes.
  destruct (eventBitmapIsSet [eventUpdateEndpoint; eventDeleteEndpoint] m) eqn:H1;
    rewrite ?eventBitmapIsSet_updatePoliciesBySourceIP,
            ?eventBitmapIsSet_updatePoliciesMatchedEndpointIDs;
    destruct (eventBitmapIsSet [eventAddPolicy; eventDeletePolicy] m) eqn:H2;
    rewrite ?eventBitmapIsSet_updatePoliciesBySourceIP,
            ?eventBitmapIsSet_updatePoliciesMatchedEndpointIDs;
    destruct (eventBitmapIsSet [eventK8sSyncDone] m) eqn:H3;
    try apply (updatePoliciesBySourceIP_current sched sched_enumerates).
  destruct Hinv as [Hpending|Hcurrent]; [| done].
  rewrite rebuildPending_split, H1, H2, H3 in Hpending. done.
Qed.

Lemma eventBitmapIsSet_idle l (m : Manager) :
  eventsBitmap m = 0 → eventBitmapIsSet l m = false.
Proof.
  intros Hbits. unfold eventBitmapIsSet. rewrite Hbits.
  induction l as [|e l IH]; cbn [existsb]; [done |]. by rewrite Z.land_0_l, IH.
Qed.

Lemma refreshIndexes_idle (m : Manager) :
  eventsBitmap m = 0 → refreshIndexes sched m = m.
Proof.
  intros Hbits. unfold refreshIndexes.
  repeat (rewrite (eventBitmapIsSet_idle _ m) by done; cbv iota). done.
Qed.

Lemma regenerateGatewayConfig_idem (m : Manager) (P : PolicyConfig) :
  regenerateGatewayConfig m (regenerateGatewayConfig m P) = regenerateGatewayConfig m P.
Proof. reflexivity. Qed.

Lemma regenerateGatewayConfigs_lookup (m : Manager) (p : positive) :
  heap (regenerateGatewayConfigs sched m) !! p
  = if decide (p ∈ range_values sched (policyConfigs m))
    then regenerateGatewayConfig m <$> heap m !! p
    else heap m !! p.
Proof.
  unfold regenerateGatewayConfigs. msimpl.
  apply foldl_alter_lookup, regenerateGatewayConfig_idem.
Qed.

Lemma policyAt_regenerateGatewayConfigs (m : Manager) (p : positive) (P' : PolicyConfig) :
  policyAt (regenerateGatewayConfigs sched m) p P' ↔
  ∃ P, policyAt m p P ∧ P' = regenerateGatewayConfig m P.
Proof.
  unfold policyAt. rewrite regenerateGatewayConfigs_lookup.
  change (policyConfigs (regenerateGatewayConfigs sched m)) with (policyConfigs m).
  split.
  - intros [Hid Hheap].
    rewrite decide_True in Hheap by (by apply (elem_of_range_snd sched sched_enumerates)).
    destruct (heap m !! p) as [P|]; [| done]. exists P.
    cbn in Hheap. split; [done | congruence].
  - intros (P & [Hid Hheap] & ->). split; [done |].
    rewrite decide_True by (by apply (elem_of_range_snd sched sched_enumerates)).
    by rewrite Hheap.
Qed.

Lemma regenerateGatewayConfigs_indexCurrent (m : Manager) :
  indexCurrent m → indexCurrent (regenerateGatewayConfigs sched m).
Proof.
  intros Hindex s p.
  change (policyConfigsBySourceIP (regenerateGatewayConfigs sched m))
    with (policyConfigsBySourceIP m).
  etrans; [apply Hindex |]. split.
  - intros (P & id & ep & ip & Hat & Hid & Hip & Hs).
    exists (regenerateGatewayConfig m P), id, ep, ip.
    split; [| done]. apply policyAt_regenerateGatewayConfigs. eauto.
  - intros (P' & id & ep & ip & Hat & Hid & Hip & Hs).
    apply policyAt_regenerateGatewayConfigs in Hat as (P & Hat & ->).
    exists P, id, ep, ip. done.
Qed.

Lemma regenerateGatewayConfigs_gatewaysCurrent (m : Manager) :
  gatewaysCurrent (regenerateGatewayConfigs sched m).
Proof.
  intros p P' (P & Hat & ->)%policyAt_regenerateGatewayConfigs. reflexivity.
Qed.

Lemma regenerateGatewayConfigs_current (m : Manager) :
  gatewaysCurrent m → regenerateGatewayConfigs sched m = m.
Proof.
  intros Hcurrent.
  assert (Hheap : heap (regenerateGatewayConfigs sched m) = heap m).
  { apply map_eq. intros p. rewrite regenerateGatewayConfigs_lookup.
    case_decide as Hid; [| done].
    apply (elem_of_range_snd sched sched_enumerates) in Hid.
    destruct (heap m !! p) as [P|] eqn:Hp; [| done]. cbn. f_equal.
    unfold regenerateGatewayConfig. rewrite <- (Hcurrent p P) by done. by destruct P. }
  unfold regenerateGatewayConfigs in *. msimpl. rewrite Hheap. by destruct m.
Qed.

End MapSpec.

Lemma foldl_fixed {A B} (f : A → B → A) (a : A) (l : list B) :
  (∀ x, x ∈ l → f a x = a) → foldl f a l = a.
Proof.
  induction l as [|x l IH]; intros Hf; cbn [foldl]; [done |].
  rewrite Hf by left. apply IH. intros y Hy. apply Hf. by right.
Qed.

Section Reconcile.
Variable env : Env.
Variable sched : Sched.
Hypothesis sched_enumerates : enumerates sched.

Lemma cacheStatus_refreshIndexes (m : Manager) :
  cacheStatus (regenerateGatewayConfigs sched (refreshIndexes sched m)) = cacheStatus m
  ∧ nodes (regenerateGatewayConfigs sched (refreshIndexes sched m)) = nodes m.
Proof.
  unfold refreshIndexes. repeat (destruct (eventBitmapIsSet _ _)); done.
Qed.

(** What a synchronized run establishes when the writes to the policy map
    succeed. *)
Lemma reconcileLocked_post (m : Manager) :
  policyMapWritesSucceed sched →
  cacheStatus m = true → indexInv m →
  cacheStatus (reconcileLocked env sched m) = true
  ∧ eventsBitmap (reconcileLocked env sched m) = 0
  ∧ indexCurrent (reconcileLocked env sched m)
  ∧ gatewaysCurrent (reconcileLocked env sched m)
  ∧ (∀ k v, policyMap (reconcileLocked env sched m) !! k = Some v →
            wanted (reconcileLocked env sched m) k v)
  ∧ (∀ k v, wanted (reconcileLocked env sched m) k v →
            ∃ v', policyMap (reconcileLocked env sched m) !! k = Some v').
Proof.
  intros Hwrites Hsync Hinv. rewrite reconcileLocked_synchronized by done.
  pose proof (regenerateGatewayConfigs_indexCurrent sched sched_enumerates _
                (refreshIndexes_indexCurrent sched sched_enumerates m Hinv)) as Hindex.
  pose proof (regenerateGatewayConfigs_gatewaysCurrent sched sched_enumerates
                (refreshIndexes sched m)) as Hgw.
  pose proof (proj1 (cacheStatus_refreshIndexes m)) as Hsync1. rewrite Hsync in Hsync1.
  set (m1 := regenerateGatewayConfigs sched (refreshIndexes sched m)) in *.
  destruct (hostPhase_reconcileRoutes env sched m1) as (h & tr & _ & ->).
  rewrite addMissingEgressRules_eq by done. cbn zeta.
  rewrite removeUnusedEgressRules_eq by done. cbn zeta.
  clearbody m1. 
  pose proof (mapPart_spec sched sched_enumerates m1 (policyMap m1) Hindex) as Hspec.
  cbn zeta in Hspec.
  split; [exact Hsync1 |]. split; [reflexivity |]. split; [exact Hindex |].
  split; [exact Hgw |]. exact Hspec.
Qed.

Lemma reconcileLocked_exact (m : Manager) :
  policyMapWritesSucceed sched →
  cacheStatus m = true → indexInv m →
  conflictFree (reconcileLocked env sched m) →
  policyMapExact (reconcileLocked env sched m).
Proof.
  intros Hwrites Hsync Hinv Hfree.
  destruct (reconcileLocked_post m Hwrites Hsync Hinv) as (_ & _ & _ & _ & Hsound & Hcomplete).
  intros k v. split; [apply Hsound |].
  intros Hwanted. destruct (Hcomplete k v Hwanted) as [v' Hv'].
  by rewrite (Hfree k v v' Hwanted (Hsound k v' Hv')).
Qed.

Lemma reconcileLocked_skip (m : Manager) :
  cacheStatus m = false → reconcileLocked env sched m = m.
Proof. intros Hsync. unfold reconcileLocked. by rewrite Hsync. Qed.

(** C1, as the code has it: after a synchronized run whose writes to the
    policy map succeed, every entry of the policy map is an entry some
    policy wants (for an endpoint address of a matched endpoint and a
    destination or excluded CIDR, with [ExcludedCIDRIPv4] as gateway for an
    excluded CIDR), and every wanted key has one entry, holding a value
    wanted for that key.  When no two wanted entries disagree on a key the
    map holds exactly the wanted entries. *)
Theorem reconcileLocked_policy_map (m : Manager) :
  policyMapWritesSucceed sched →
  cacheStatus m = true → indexInv m →
  (∀ k v, policyMap (reconcileLocked env sched m) !! k = Some v →
          wanted (reconcileLocked env sched m) k v)
  ∧ (∀ k v, wanted (reconcileLocked env sched m) k v →
            ∃ v', policyMap (reconcileLocked env sched m) !! k = Some v'
                  ∧ wanted (reconcileLocked env sched m) k v')
  ∧ (conflictFree (reconcileLocked env sched m) →
     policyMapExact (reconcileLocked env sched m)).
Proof.
  intros Hwrites Hsync Hinv.
  destruct (reconcileLocked_post m Hwrites Hsync Hinv) as (_ & _ & _ & _ & Hsound & Hcomplete).
  split; [exact Hsound |]. split.
  - intros k v Hwanted. destruct (Hcomplete k v Hwanted) as [v' Hv']. eauto.
  - by apply reconcileLocked_exact.
Qed.

(** *** A run that finds nothing to do *)

Lemma addMissingEgressRules_noop (m : Manager) :
  (∀ e, e ∈ allEntries sched m → policyMap m !! e.1 = Some e.2) →
  addMissingEgressRules sched m = set_calls (calls m ++ [PolicyMapIterate]) m.
Proof.
  intros Hheld. rewrite addMissingEgressRules_unfold.
  apply foldl_fixed. intros p Hp. msimpl.
  destruct (heap m !! p) as [P|] eqn:Hheap; [| done].
  rewrite forEachEndpointAndCIDR_fold. apply foldl_fixed. intros t Ht.
  unfold addEgressRule.
  assert (Hin : entryOf (policyGatewayConfig P) t ∈ allEntries sched m).
  { unfold allEntries. apply list_elem_of_bind. exists p. split; [| done].
    rewrite Hheap. unfold entriesOf. by apply list_elem_of_fmap_2. }
  apply Hheld in Hin. cbn [entryOf fst snd] in Hin. rewrite Hin.
  by rewrite (proj2 (val_Match_eq _ _ _) eq_refl).
Qed.

Lemma removeUnusedEgressRules_noop (m : Manager) :
  (∀ k v, (k, v) ∈ range sched (policyMap m) →
          policyMatches sched m (keySourceIP k) (matchPolicy k v) = true) →
  removeUnusedEgressRules sched m = set_calls (calls m ++ [PolicyMapIterate]) m.
Proof.
  intros Hused. unfold removeUnusedEgressRules, policyMap_IterateWithCallback.
  cbn [issue fst snd]. apply foldl_fixed. intros [k v] Hin.
  change (policyMatches sched (set_calls (calls m ++ [PolicyMapIterate]) m))
    with (policyMatches sched m).
  pose proof (Hused k v Hin) as Hkv. unfold matchPolicy in Hkv. by rewrite Hkv.
Qed.

(** A synchronized run on a manager that an earlier run left behind, with
    the policy map holding exactly the wanted entries, writes nothing to
    the policy map. *)
Lemma reconcileLocked_settled (m : Manager) :
  cacheStatus m = true → eventsBitmap m = 0 →
  indexCurrent m → gatewaysCurrent m → policyMapExact m →
  Forall (λ c, isPolicyMapUpdate c = false ∧ isPolicyMapDelete c = false)
    (issued (reconcileLocked env sched) m).
Proof.
  intros Hsync Hbits Hindex Hgw Hexact. unfold issued.
  rewrite reconcileLocked_synchronized by done.
  rewrite refreshIndexes_idle by done.
  rewrite regenerateGatewayConfigs_current by done.
  destruct (hostPhase_reconcileRoutes env sched m) as (h & tr & Htr & ->).
  rewrite addMissingEgressRules_noop.
  2:{ intros [k v] Hin. apply (elem_of_allEntries sched sched_enumerates) in Hin.
      by apply Hexact. }
  rewrite removeUnusedEgressRules_noop.
  2:{ intros k v Hin. apply (elem_of_range sched sched_enumerates) in Hin.
      apply (policyMatches_wanted sched sched_enumerates); [done |]. by apply Hexact. }
  msimpl. rewrite <- !app_assoc, drop_app_length.
  apply Forall_app. split.
  - eapply Forall_impl; [exact Htr |]. by intros [].
  - by repeat constructor.
Qed.

End Reconcile.

(** C3, as the code has it: when a run of [reconcileLocked] whose writes to
    the policy map succeed leaves no two wanted entries that disagree on a
    key, the next run on the same caches issues no update and no delete to
    the policy map, whatever the order of its loops. *)
Theorem reconcileLocked_idempotent (env : Env) (s1 s2 : Sched) (m : Manager) :
  enumerates s1 → enumerates s2 → policyMapWritesSucceed s1 →
  indexInv m → conflictFree (reconcileLocked env s1 m) →
  Forall (λ c, isPolicyMapUpdate c = false ∧ isPolicyMapDelete c = false)
    (issued (reconcileLocked env s2) (reconcileLocked env s1 m)).
Proof.
  intros Hs1 Hs2 Hwrites Hinv Hfree. destruct (cacheStatus m) eqn:Hsync.
  - destruct (reconcileLocked_post env s1 Hs1 m Hwrites Hsync Hinv)
      as (Hsync1 & Hbits & Hindex & Hgw & _).
    apply reconcileLocked_settled; try done.
    by apply (reconcileLocked_exact env s1 Hs1 m).
  - unfold issued. rewrite !reconcileLocked_skip by done. rewrite drop_all. constructor.
Qed.

(** [conflictFreeb] decides [conflictFree]. *)
Lemma conflictFreeb_sound (m : Manager) : conflictFreeb m = true → conflictFree m.
Proof.
  unfold conflictFreeb. intros Hall k v1 v2 H1 H2.
  apply (elem_of_allEntries canonical canonical_enumerates) in H1, H2.
  rewrite forallb_forall in Hall. apply list_elem_of_In, Hall in H1.
  rewrite forallb_forall in H1. apply list_elem_of_In, H1 in H2.
  cbn [fst snd] in H2. rewrite decide_True in H2 by done.
  by apply bool_decide_eq_true in H2.
Qed.

(** C1 at scenario 2: the map holds the two entries of the policy. *)
Lemma reconcileLocked_policy_map_witness :
  policyMap Scenario.s2_after
  = {[ mkEgressPolicyKey4 Scenario.podIP Scenario.net16
         := mkEgressPolicyVal4 (IPv4 192 0 2 10) (IPv4 192 0 2 1);
       mkEgressPolicyKey4 Scenario.podIP Scenario.net24
         := mkEgressPolicyVal4 (IPv4 192 0 2 10) ExcludedCIDRIPv4 ]}
  ∧ policyMapExact Scenario.s2_after.
Proof.
  split; [vm_compute; reflexivity |].
  apply (reconcileLocked_policy_map Scenario.env canonical canonical_enumerates
           Scenario.s2_before).
  - intros h c _. reflexivity.
  - reflexivity.
  - left. vm_compute. reflexivity.
  - apply conflictFreeb_sound. vm_compute. reflexivity.
Defined.

(** C1 as the specification states it fails when two policies want
    different values under one key: the map holds one of them. *)
Lemma reconcileLocked_policy_map_conflict :
  cacheStatus Scenario.conflict_before = true
  ∧ indexInv Scenario.conflict_before
  ∧ ¬ policyMapExact (reconcileLocked Scenario.env canonical Scenario.conflict_before).
Proof.
  split; [reflexivity |]. split; [left; vm_compute; reflexivity |].
  intros Hexact.
  set (k := mkEgressPolicyKey4 Scenario.podIP Scenario.net24).
  set (v1 := mkEgressPolicyVal4 (IPv4 192 0 2 10) (IPv4 192 0 2 1)).
  set (v2 := mkEgressPolicyVal4 (IPv4 192 0 2 11) (IPv4 192 0 2 1)).
  assert (H1 : policyMap (reconcileLocked Scenario.env canonical Scenario.conflict_before)
               !! k = Some v1).
  { apply Hexact. apply (elem_of_allEntries canonical canonical_enumerates).
    vm_compute. right. left. }
  assert (H2 : policyMap (reconcileLocked Scenario.env canonical Scenario.conflict_before)
               !! k = Some v2).
  { apply Hexact. apply (elem_of_allEntries canonical canonical_enumerates).
    vm_compute. left. }
  rewrite H1 in H2. discriminate.
Qed.

(** C3 at scenario 2, with the second run ranging in the opposite order. *)
Lemma reconcileLocked_idempotent_witness :
  Forall (λ c, isPolicyMapUpdate c = false ∧ isPolicyMapDelete c = false)
    (issued (reconcileLocked Scenario.env backwards) Scenario.s2_after).
Proof.
  apply (reconcileLocked_idempotent Scenario.env canonical backwards Scenario.s2_before).
  - exact canonical_enumerates.
  - exact backwards_enumerates.
  - intros h c _. reflexivity.
  - left. vm_compute. reflexivity.
  - apply conflictFreeb_sound. vm_compute. reflexivity.
Defined.

(** C3 as the specification states it fails when two policies want
    different values under one key: the second run writes the value the
    first run overwrote. *)
Lemma reconcileLocked_not_idempotent :
  cacheStatus Scenario.conflict_before = true
  ∧ indexInv Scenario.conflict_before
  ∧ ¬ Forall (λ c, isPolicyMapUpdate c = false ∧ isPolicyMapDelete c = false)
        (issued (reconcileLocked Scenario.env canonical)
           (reconcileLocked Scenario.env canonical Scenario.conflict_before)).
Proof.
  split; [reflexivity |]. split; [left; vm_compute; reflexivity |].
  intros Hall. rewrite Forall_forall in Hall.
  destruct (Hall (PolicyMapUpdate (mkEgressPolicyKey4 Scenario.podIP Scenario.net24)
                    (mkEgressPolicyVal4 (IPv4 192 0 2 11) (IPv4 192 0 2 1)))) as [Hupd _];
    [| discriminate].
  vm_compute. right. right. right. left.
Qed.

(** ** The invariants hold in every state of the manager *)

Lemma eventBitmapIsSet_lor (l : list eventType) (m m' : Manager) (e : eventType) :
  eventsBitmap m' = Z.lor (eventsBitmap m) e →
  eventBitmapIsSet l m = true → eventBitmapIsSet l m' = true.
Proof.
  intros Hbits. unfold eventBitmapIsSet. rewrite Hbits, !existsb_exists.
  intros (x & Hx & Hset). exists x. split; [done |].
  rewrite negb_true_iff, Z.eqb_neq in Hset |- *.
  rewrite Z.land_lor_distr_l, Z.lor_eq_0_iff. tauto.
Qed.

Lemma eventBitmapIsSet_bit (l : list eventType) (m : Manager) (b e : eventType) :
  eventsBitmap m = Z.lor b e → e ≠ 0 → e ∈ l → eventBitmapIsSet l m = true.
Proof.
  intros Hbits Hne Hin. unfold eventBitmapIsSet. rewrite Hbits, existsb_exists.
  exists e. split; [by apply list_elem_of_In |].
  rewrite negb_true_iff, Z.eqb_neq, land_lor_absorb. done.
Qed.

Lemma indexInv_pending (m : Manager) (b e : eventType) :
  eventsBitmap m = Z.lor b e → e ≠ 0 →
  e ∈ [eventUpdateEndpoint; eventDeleteEndpoint; eventAddPolicy; eventDeletePolicy;
       eventK8sSyncDone] →
  indexInv m.
Proof. intros Hbits Hne Hin. left. by apply (eventBitmapIsSet_bit _ m b e). Qed.

(** [indexInv] only reads the policies, the index and the events bitmap. *)
Lemma indexInv_frame (m m' : Manager) (e : eventType) :
  policyConfigs m' = policyConfigs m → heap m' = heap m →
  policyConfigsBySourceIP m' = policyConfigsBySourceIP m →
  eventsBitmap m' = eventsBitmap m ∨ eventsBitmap m' = Z.lor (eventsBitmap m) e →
  indexInv m → indexInv m'.
Proof.
  intros Hpc Hheap Hidx Hbits [Hpending|Hcurrent].
  - left. destruct Hbits as [Hbits|Hbits].
    + unfold rebuildPending, eventBitmapIsSet in *. by rewrite Hbits.
    + by apply (eventBitmapIsSet_lor _ m m' e).
  - right. unfold indexCurrent, policyAt in *. by rewrite Hpc, Hheap, Hidx.
Qed.

Lemma indexCurrent_new alloc routes pm h :
  indexCurrent (NewEgressGatewayManager alloc routes pm h).
Proof.
  intros s p. unfold policyAt, NewEgressGatewayManager. msimpl. rewrite lookup_empty.
  split; [by intros ?%elem_of_nil |].
  intros (P & id & ep & ip & [[id' Hid] _] & _). by rewrite lookup_empty in Hid.
Qed.

Lemma addEndpoint_frame (id : endpointID) (m m' : Manager) :
  addEndpoint id m = Ok m' →
  policyConfigs m' = policyConfigs m ∧ heap m' = heap m
  ∧ policyConfigsBySourceIP m' = policyConfigsBySourceIP m
  ∧ nodeDataStore m' = nodeDataStore m
  ∧ (eventsBitmap m' = eventsBitmap m
     ∨ eventsBitmap m' = Z.lor (eventsBitmap m) eventUpdateEndpoint).
Proof.
  unfold addEndpoint. destruct (pendingEndpointEvents m !! id) as [epEvent|].
  2:{ intros [= <-]. tauto. }
  destruct (evEndpoint epEvent) as [ep|]; [| done].
  destruct (getIdentityLabels m _) as [labels|].
  2:{ intros [= <-]. tauto. }
  destruct (getEndpointMetadata ep labels) as [epData|]; intros [= <-]; msimpl; tauto.
Qed.

Section Invariants.
Variable env : Env.

Lemma onChangeNodeLocked_frame (s : Sched) (e : eventType) (m : Manager) :
  policyConfigs (onChangeNodeLocked s e m) = policyConfigs m
  ∧ heap (onChangeNodeLocked s e m) = heap m
  ∧ policyConfigsBySourceIP (onChangeNodeLocked s e m) = policyConfigsBySourceIP m
  ∧ eventsBitmap (onChangeNodeLocked s e m) = Z.lor (eventsBitmap m) e.
Proof.
  unfold onChangeNodeLocked.
  assert (Hloop : ∀ l m0, foldl (λ m n, set_nodes (nodes m ++ [n]) m) m0 l
                          = set_nodes (nodes m0 ++ l) m0).
  { induction l as [|n l IH]; intros m0; cbn [foldl].
    - rewrite app_nil_r. by destruct m0.
    - rewrite IH. msimpl. by rewrite <- app_assoc. }
  rewrite Hloop. done.
Qed.

Lemma reconcileLocked_frame (s : Sched) (m : Manager) :
  cacheStatus m = true →
  ∃ pm h c,
    reconcileLocked env s m
    = set_eventsBitmap 0
        (set_calls c (set_policyMap pm (set_host h
           (regenerateGatewayConfigs s (refreshIndexes s m))))).
Proof.
  intros Hsync. rewrite reconcileLocked_synchronized by done.
  destruct (hostPhase_reconcileRoutes env s (regenerateGatewayConfigs s (refreshIndexes s m)))
    as (h & tr & _ & ->).
  destruct (mapPhase_addMissingEgressRules s
              (set_calls (calls (regenerateGatewayConfigs s (refreshIndexes s m)) ++ tr)
                 (set_host h (regenerateGatewayConfigs s (refreshIndexes s m)))))
    as (pm & tr' & _ & ->).
  match goal with |- context [removeUnusedEgressRules s ?x] =>
    destruct (mapPhase_removeUnusedEgressRules s x) as (pm' & tr'' & _ & ->) end.
  by eexists pm', h, _.
Qed.

Lemma nodeDataStore_refreshIndexes (s : Sched) (m : Manager) :
  nodeDataStore (regenerateGatewayConfigs s (refreshIndexes s m)) = nodeDataStore m.
Proof. unfold refreshIndexes. repeat (destruct (eventBitmapIsSet _ _)); done. Qed.

Lemma pendingEndpointEvents_refreshIndexes (s : Sched) (m : Manager) :
  pendingEndpointEvents (regenerateGatewayConfigs s (refreshIndexes s m))
  = pendingEndpointEvents m.
Proof. unfold refreshIndexes. repeat (destruct (eventBitmapIsSet _ _)); done. Qed.

Lemma foldl_append_pending (l : list Node) (m : Manager) :
  pendingEndpointEvents (foldl (λ m n, set_nodes (nodes m ++ [n]) m) m l)
  = pendingEndpointEvents m.
Proof.
  revert m. induction l as [|n l IH]; intros m; cbn [foldl]; [done |]. by rewrite IH.
Qed.

(** Every state of the manager keeps the index current unless a rebuild is
    pending, and stores every node under its name. *)
Theorem reachable_invariants (m : Manager) :
  reachable env m → indexInv m ∧ nodesByName m.
Proof.
  induction 1 as [alloc routes pm h | m config _ [IHi IHn] | m id _ [IHi IHn]
                 | m ep _ [IHi IHn] | m ep _ [IHi IHn] | m id m' _ [IHi IHn] Hadd
                 | m id _ [IHi IHn] | m q _ [IHi IHn] | s m n Hs _ [IHi IHn]
                 | s m n Hs _ [IHi IHn] | m _ [IHi IHn] | s m Hs _ [IHi IHn]].
  - split; [right; apply indexCurrent_new | apply nodesByName_new].
  - split; [| exact IHn].
    by apply (indexInv_pending _ (eventsBitmap m) eventAddPolicy); [| | set_solver].
  - unfold OnDeleteEgressPolicy. destruct (policyConfigs m !! id); [| done].
    split; [| exact IHn].
    by apply (indexInv_pending _ (eventsBitmap m) eventDeletePolicy); [| | set_solver].
  - done.
  - done.
  - destruct (addEndpoint_frame id m m' Hadd) as (Hpc & Hheap & Hidx & Hnds & Hbits).
    split; [by apply (indexInv_frame m m' eventUpdateEndpoint) |].
    unfold nodesByName. by rewrite Hnds.
  - split; [| exact IHn].
    by apply (indexInv_pending _ (eventsBitmap m) eventDeleteEndpoint); [| | set_solver].
  - done.
  - split; [| by apply nodesByName_OnUpdateNode].
    unfold OnUpdateNode.
    destruct (onChangeNodeLocked_frame s eventUpdateNode
                (set_nodeDataStore (<[nodeName n := n]> (nodeDataStore m)) m))
      as (Hpc & Hheap & Hidx & Hbits).
    apply (indexInv_frame m _ eventUpdateNode); auto.
  - split; [| by apply nodesByName_OnDeleteNode].
    unfold OnDeleteNode.
    destruct (onChangeNodeLocked_frame s eventDeleteNode
                (set_nodeDataStore (delete (nodeName n) (nodeDataStore m)) m))
      as (Hpc & Hheap & Hidx & Hbits).
    apply (indexInv_frame m _ eventDeleteNode); auto.
  - split; [| exact IHn].
    by apply (indexInv_pending _ (eventsBitmap m) eventK8sSyncDone); [| | set_solver].
  - destruct (cacheStatus m) eqn:Hsync.
    + destruct (reconcileLocked_frame s m Hsync) as (pm & h & c & ->). split.
      * right.
        exact (regenerateGatewayConfigs_indexCurrent s Hs _
                 (refreshIndexes_indexCurrent s Hs m IHi)).
      * unfold nodesByName. msimpl. by rewrite nodeDataStore_refreshIndexes.
    + by rewrite reconcileLocked_skip.
Qed.

(** In every state of the manager the pending update events hold their
    endpoint: the nil endpoint of a delete event reaches [addEndpoint] only
    through the window between the two reads of the worker. *)
Theorem reachable_pendingUpdatesHoldEndpoint (m : Manager) :
  reachable env m → pendingUpdatesHoldEndpoint m.
Proof.
  induction 1 as [alloc routes pm h | m config _ IH | m id _ IH
                 | m ep _ IH | m ep _ IH | m id m' _ IH Hadd
                 | m id _ IH | m q _ IH | s m n Hs _ IH
                 | s m n Hs _ IH | m _ IH | s m Hs _ IH]; intros id' epEvent.
  - unfold NewEgressGatewayManager. msimpl. by rewrite lookup_empty.
  - apply IH.
  - unfold OnDeleteEgressPolicy. destruct (policyConfigs m !! id); apply IH.
  - unfold OnUpdateEndpoint. msimpl. rewrite lookup_insert.
    case_decide; [by intros [= <-] | apply IH].
  - unfold OnDeleteEndpoint. msimpl. rewrite lookup_insert.
    case_decide; [by intros [= <-] | apply IH].
  - revert Hadd. unfold addEndpoint.
    destruct (pendingEndpointEvents m !! id) as [ev|]; [| intros [= <-]; apply IH].
    destruct (evEndpoint ev) as [ep|]; [| done].
    destruct (getIdentityLabels m _) as [labels|]; [| intros [= <-]; apply IH].
    destruct (getEndpointMetadata ep labels) as [epData|]; intros [= <-];
      unfold TriggerWithReason, setEventBitmap; cbn [foldl]; msimpl;
      rewrite lookup_delete; (case_decide; [done | apply IH]).
  - unfold deleteEndpoint, TriggerWithReason, setEventBitmap. cbn [foldl]. msimpl.
    rewrite lookup_delete.
    case_decide; [done | apply IH].
  - apply IH.
  - unfold OnUpdateNode.
    change (pendingEndpointEvents (onChangeNodeLocked s eventUpdateNode
              (set_nodeDataStore (<[nodeName n := n]> (nodeDataStore m)) m)))
      with (pendingEndpointEvents
              (foldl (λ m n, set_nodes (nodes m ++ [n]) m)
                 (set_nodes [] (set_nodeDataStore (<[nodeName n := n]> (nodeDataStore m)) m))
                 (range_values s (<[nodeName n := n]> (nodeDataStore m))))).
    rewrite foldl_append_pending. apply IH.
  - unfold OnDeleteNode.
    change (pendingEndpointEvents (onChangeNodeLocked s eventDeleteNode
              (set_nodeDataStore (delete (nodeName n) (nodeDataStore m)) m)))
      with (pendingEndpointEvents
              (foldl (λ m n, set_nodes (nodes m ++ [n]) m)
                 (set_nodes [] (set_nodeDataStore (delete (nodeName n) (nodeDataStore m)) m))
                 (range_values s (delete (nodeName n) (nodeDataStore m))))).
    rewrite foldl_append_pending. apply IH.
  - apply IH.
  - destruct (cacheStatus m) eqn:Hsync.
    + destruct (reconcileLocked_frame s m Hsync) as (pm & h & c & ->). msimpl.
      rewrite pendingEndpointEvents_refreshIndexes. apply IH.
    + rewrite reconcileLocked_skip by done. apply IH.
Qed.

(** In every state of the manager a synchronized run whose writes succeed
    leaves the policy map with exactly the wanted entries, unless two of
    them disagree on a key. *)
Corollary reachable_policyMapExact (s : Sched) (m : Manager) :
  reachable env m → enumerates s → policyMapWritesSucceed s →
  cacheStatus m = true →
  conflictFree (reconcileLocked env s m) →
  policyMapExact (reconcileLocked env s m).
Proof.
  intros Hreach Hs Hwrites Hsync Hfree.
  apply reconcileLocked_exact; try done. by apply reachable_invariants.
Qed.

(** In every state of the manager a node event leaves [nodes] strictly
    ascending by name. *)
Corollary reachable_nodes_sorted (s : Sched) (n : Node) (m : Manager) :
  reachable env m → enumerates s →
  StronglySorted node_less (nodes (OnUpdateNode s n m))
  ∧ StronglySorted node_less (nodes (OnDeleteNode s n m)).
Proof.
  intros Hreach Hs. apply reachable_invariants in Hreach as [_ Hn].
  split.
  - unfold OnUpdateNode. apply (onChangeNodeLocked_sorted s Hs).
    intros k n'. msimpl. rewrite lookup_insert.
    case_decide; [by intros [= <-] | apply Hn].
  - unfold OnDeleteNode. apply (onChangeNodeLocked_sorted s Hs).
    intros k n'. msimpl. rewrite lookup_delete. case_decide; [done | apply Hn].
Qed.

End Invariants.

(** ** The scenarios of the specification *)

(** Scenario 1: one policy, one endpoint. *)
Lemma scenario_single_policy :
  policyMap Scenario.s1_after
  = {[ mkEgressPolicyKey4 Scenario.podIP Scenario.net24
         := mkEgressPolicyVal4 (IPv4 192 0 2 10) (IPv4 192 0 2 1) ]}.
Proof. vm_compute. reflexivity. Qed.

(** Scenario 3: the egress address of the policy changes; the entry is
    updated in place and nothing is deleted. *)
Lemma scenario_rotation :
  issued (reconcileLocked Scenario.env canonical) Scenario.s3_before
  = [RuleList; RouteList; PolicyMapIterate;
     PolicyMapUpdate (mkEgressPolicyKey4 Scenario.podIP Scenario.net24)
       (mkEgressPolicyVal4 (IPv4 192 0 2 11) (IPv4 192 0 2 1));
     PolicyMapIterate].
Proof. vm_compute. reflexivity. Qed.

(** Scenario 4: the endpoint is deleted; the map and the index are empty. *)
Lemma scenario_endpoint_deleted :
  policyMap (reconcileLocked Scenario.env canonical Scenario.s4_before) = ∅
  ∧ policyConfigsBySourceIP (reconcileLocked Scenario.env canonical Scenario.s4_before)
      !! "10.0.0.5" = None.
Proof. vm_compute. done. Qed.

(** Scenario 6: routes are not installed; the run writes to the policy map
    and only lists rules and routes. *)
Lemma scenario_routes_disabled :
  issued (reconcileLocked Scenario.env canonical) Scenario.s2_before
  = [RuleList; RouteList; PolicyMapIterate;
     PolicyMapUpdate (mkEgressPolicyKey4 Scenario.podIP Scenario.net16)
       (mkEgressPolicyVal4 (IPv4 192 0 2 10) (IPv4 192 0 2 1));
     PolicyMapUpdate (mkEgressPolicyKey4 Scenario.podIP Scenario.net24)
       (mkEgressPolicyVal4 (IPv4 192 0 2 10) ExcludedCIDRIPv4);
     PolicyMapIterate].
Proof. vm_compute. reflexivity. Qed.

(** A destination replaced by another: the new entry is written before the
    old one is deleted. *)
Lemma scenario_update_then_delete :
  issued (reconcileLocked Scenario.env canonical)
    (OnAddEgressPolicy Scenario.P5 Scenario.s1_after)
  = [RuleList; RouteList; PolicyMapIterate;
     PolicyMapUpdate (mkEgressPolicyKey4 Scenario.podIP Scenario.net16)
       (mkEgressPolicyVal4 (IPv4 192 0 2 10) (IPv4 192 0 2 1));
     PolicyMapIterate;
     PolicyMapDelete (mkEgressPolicyKey4 Scenario.podIP Scenario.net24)].
Proof. vm_compute. reflexivity. Qed.

(** One policy that lists a CIDR both as destination and as excluded: the
    second run writes again. *)
Lemma scenario_overlap_not_idempotent :
  issued (reconcileLocked Scenario.env canonical)
    (reconcileLocked Scenario.env canonical Scenario.overlap_before)
  = [RuleList; RouteList; PolicyMapIterate;
     PolicyMapUpdate (mkEgressPolicyKey4 Scenario.podIP Scenario.net24)
       (mkEgressPolicyVal4 (IPv4 192 0 2 10) (IPv4 192 0 2 1));
     PolicyMapIterate].
Proof. vm_compute. reflexivity. Qed.

(** * Further properties of the code *)

(** ** The events bitmap *)

Lemma eventTypes_land (a b : eventType) :
  a ∈ eventTypes → b ∈ eventTypes → Z.land a b = if decide (a = b) then b else 0.
Proof.
  unfold eventTypes. rewrite !elem_of_cons, !elem_of_nil.
  intros Ha Hb.
  repeat (destruct Ha as [->|Ha]; [| try done]);
    repeat (destruct Hb as [->|Hb]; [| try done]); by vm_compute.
Qed.

Lemma eventTypes_nonzero (a : eventType) : a ∈ eventTypes → a ≠ 0.
Proof.
  unfold eventTypes. rewrite !elem_of_cons, !elem_of_nil.
  intros Ha. repeat (destruct Ha as [->|Ha]; [by vm_compute | try done]).
Qed.

Lemma setEventBitmap_cons (e : eventType) (es : list eventType) (m : Manager) :
  setEventBitmap (e :: es) m = setEventBitmap es (set_eventsBitmap (Z.lor (eventsBitmap m) e) m).
Proof. reflexivity. Qed.

Lemma setEventBitmap_frame (es : list eventType) (m : Manager) :
  ∃ b, setEventBitmap es m = set_eventsBitmap b m.
Proof.
  revert m. induction es as [|e es IH]; intros m.
  - exists (eventsBitmap m). by destruct m.
  - rewrite setEventBitmap_cons. destruct (IH (set_eventsBitmap (Z.lor (eventsBitmap m) e) m))
      as [b ->]. by exists b.
Qed.

Lemma eventBitmapIsSet_set_bit (a : eventType) (query : list eventType) (m : Manager) :
  a ∈ eventTypes → query ⊆ eventTypes →
  eventBitmapIsSet query (set_eventsBitmap (Z.lor (eventsBitmap m) a) m)
  = eventBitmapIsSet query m || existsb (λ e, bool_decide (e = a)) query.
Proof.
  intros Ha. unfold eventBitmapIsSet. msimpl.
  induction query as [|e query IH]; intros Hquery; cbn [existsb]; [done |].
  rewrite IH by (intros x Hx; apply Hquery; by right).
  assert (He : e ∈ eventTypes) by (apply Hquery; by left).
  rewrite Z.land_lor_distr_l, (eventTypes_land a e) by done.
  destruct (decide (a = e)) as [->|Hne].
  - rewrite bool_decide_true by done.
    assert ((Z.lor (Z.land (eventsBitmap m) e) e =? 0) = false) as ->.
    { apply Z.eqb_neq. rewrite Z.lor_eq_0_iff. intros [_ ?]. by apply (eventTypes_nonzero e). }
    cbn. by rewrite !orb_true_r.
  - rewrite bool_decide_false by congruence. rewrite Z.lor_0_r.
    destruct (negb (Z.land (eventsBitmap m) e =? 0)); cbn; [done |].
    by destruct (existsb _ query).
Qed.

(** X1: [setEventBitmap] sets the bits of the given event types and no other
    bit: afterwards [eventBitmapIsSet] holds for a list of event types
    exactly when it held before or one of them was among those set.  No other
    field of the manager changes. *)
Theorem setEventBitmap_eventBitmapIsSet (events query : list eventType) (m : Manager) :
  events ⊆ eventTypes → query ⊆ eventTypes →
  eventBitmapIsSet query (setEventBitmap events m)
  = eventBitmapIsSet query m || existsb (λ e, bool_decide (e ∈ events)) query
  ∧ ∃ b, setEventBitmap events m = set_eventsBitmap b m.
Proof.
  intros Hevents Hquery. split; [| apply setEventBitmap_frame].
  revert m. induction events as [|a events IH]; intros m.
  - assert (existsb (λ e : eventType, bool_decide (e ∈ @nil eventType)) query = false) as ->.
    { apply existsb_false. intros x _. apply bool_decide_false, not_elem_of_nil. }
    by rewrite orb_false_r.
  - rewrite setEventBitmap_cons, IH by (intros x Hx; apply Hevents; by right).
    rewrite eventBitmapIsSet_set_bit by (try done; apply Hevents; by left).
    rewrite <- orb_assoc. f_equal.
    clear. induction query as [|e query IHq]; cbn [existsb]; [done |].
    rewrite <- IHq.
    assert (bool_decide (e ∈ a :: events) = bool_decide (e = a) || bool_decide (e ∈ events))
      as ->.
    { apply eq_true_iff_eq. rewrite orb_true_iff, !bool_decide_eq_true, elem_of_cons. done. }
    destruct (bool_decide (e = a)), (bool_decide (e ∈ events)),
      (existsb (λ e, bool_decide (e = a)) query),
      (existsb (λ e, bool_decide (e ∈ events)) query); done.
Qed.

Lemma setEventBitmap_eventBitmapIsSet_witness :
  eventBitmapIsSet [eventAddPolicy; eventDeletePolicy]
    (setEventBitmap [eventUpdateNode; eventAddPolicy] Scenario.new) = true
  ∧ eventBitmapIsSet [eventUpdateEndpoint; eventDeleteEndpoint]
      (setEventBitmap [eventUpdateNode; eventAddPolicy] Scenario.new) = false.
Proof.
  assert (H1 : [eventUpdateNode; eventAddPolicy] ⊆ eventTypes).
  { intros x. unfold eventTypes. rewrite !elem_of_cons. tauto. }
  assert (H2 : [eventAddPolicy; eventDeletePolicy] ⊆ eventTypes).
  { intros x. unfold eventTypes. rewrite !elem_of_cons. tauto. }
  assert (H3 : [eventUpdateEndpoint; eventDeleteEndpoint] ⊆ eventTypes).
  { intros x. unfold eventTypes. rewrite !elem_of_cons. tauto. }
  split.
  - rewrite (proj1 (setEventBitmap_eventBitmapIsSet _ _ Scenario.new H1 H2)). by vm_compute.
  - rewrite (proj1 (setEventBitmap_eventBitmapIsSet _ _ Scenario.new H1 H3)). by vm_compute.
Defined.

(** ** The policy handlers *)

Lemma heap_OnAddEgressPolicy (config : PolicyConfig) (m : Manager) (q : positive) :
  heap (OnAddEgressPolicy config m) !! q
  = if decide (q = fresh (dom (heap m)))
    then Some (updateMatchedEndpointIDs (epDataStore m) config)
    else heap m !! q.
Proof.
  unfold OnAddEgressPolicy, TriggerWithReason, setEventBitmap. cbn [foldl]. msimpl.
  rewrite lookup_insert. repeat case_decide; congruence.
Qed.

Lemma fresh_heap (m : Manager) : heap m !! fresh (dom (heap m)) = None.
Proof. apply not_elem_of_dom, is_fresh. Qed.

Lemma policyConfigs_OnAddEgressPolicy (config : PolicyConfig) (m : Manager) :
  policyConfigs (OnAddEgressPolicy config m)
  = <[policyId config := fresh (dom (heap m))]> (policyConfigs m).
Proof. reflexivity. Qed.

Lemma policyConfigs_OnDeleteEgressPolicy (id : policyID) (m : Manager) :
  policyConfigs (OnDeleteEgressPolicy id m) = delete id (policyConfigs m)
  ∧ heap (OnDeleteEgressPolicy id m) = heap m
  ∧ policyConfigsBySourceIP (OnDeleteEgressPolicy id m) = policyConfigsBySourceIP m
  ∧ epDataStore (OnDeleteEgressPolicy id m) = epDataStore m
  ∧ cacheStatus (OnDeleteEgressPolicy id m) = cacheStatus m.
Proof.
  unfold OnDeleteEgressPolicy. destruct (policyConfigs m !! id) eqn:Hid.
  - done.
  - by rewrite delete_id.
Qed.

(** X2: a policy added and then deleted leaves [policyConfigs] without its
    id (also when the id was there before: the add replaced that policy),
    every policy object that existed before as it was, and the index and the
    endpoint cache unchanged; both events are recorded in the bitmap and the
    trigger fires twice. *)
Theorem OnAddEgressPolicy_OnDeleteEgressPolicy (config : PolicyConfig) (m : Manager) :
  let m' := OnDeleteEgressPolicy (policyId config) (OnAddEgressPolicy config m) in
  policyConfigs m' = delete (policyId config) (policyConfigs m)
  ∧ (∀ p P, heap m !! p = Some P → heap m' !! p = Some P)
  ∧ policyConfigsBySourceIP m' = policyConfigsBySourceIP m
  ∧ epDataStore m' = epDataStore m
  ∧ eventBitmapIsSet [eventAddPolicy] m' = true
  ∧ eventBitmapIsSet [eventDeletePolicy] m' = true
  ∧ reconciliationTrigger m' = reconciliationTrigger m ++ ["policy added"; "policy deleted"].
Proof.
  intros m'.
  assert (Hm' : m' = TriggerWithReason "policy deleted"
                  (setEventBitmap [eventDeletePolicy]
                     (set_policyConfigs
                        (delete (policyId config) (policyConfigs (OnAddEgressPolicy config m)))
                        (OnAddEgressPolicy config m)))).
  { subst m'. unfold OnDeleteEgressPolicy.
    rewrite policyConfigs_OnAddEgressPolicy at 1. by rewrite lookup_insert_eq. }
  rewrite Hm'. clear Hm' m'.
  split; [| split; [| split; [| split; [| split; [| split]]]]].
  - unfold TriggerWithReason, setEventBitmap. cbn [foldl]. msimpl.
    rewrite policyConfigs_OnAddEgressPolicy. apply delete_insert_eq.
  - intros p P Hp.
    change (heap (OnAddEgressPolicy config m) !! p = Some P).
    rewrite heap_OnAddEgressPolicy. case_decide as Heq; [| done].
    rewrite Heq, fresh_heap in Hp. done.
  - reflexivity.
  - reflexivity.
  - apply (eventBitmapIsSet_lor _ (OnAddEgressPolicy config m) _ eventDeletePolicy);
      [reflexivity |].
    by apply (eventBitmapIsSet_bit _ _ (eventsBitmap m) eventAddPolicy); [| | left].
  - by apply (eventBitmapIsSet_bit _ _ (eventsBitmap (OnAddEgressPolicy config m))
                eventDeletePolicy); [| | left].
  - unfold OnAddEgressPolicy, TriggerWithReason, setEventBitmap. cbn [foldl]. msimpl.
    by rewrite <- app_assoc.
Qed.

Lemma policiesAllocated_frame (m m' : Manager) :
  policyConfigs m' = policyConfigs m → dom (heap m') = dom (heap m) →
  policiesAllocated m → policiesAllocated m'.
Proof.
  intros Hpc Hdom Halloc id p. rewrite Hpc. intros Hid%Halloc.
  by rewrite <- elem_of_dom, Hdom, elem_of_dom.
Qed.

Lemma dom_foldl_alter {A} (f : A → A) (l : list positive) (h : gmap positive A) :
  dom (foldl (λ h p, alter f p h) h l) = dom h.
Proof.
  revert h. induction l as [|p l IH]; intros h; cbn [foldl]; [done |].
  by rewrite IH, dom_alter_L.
Qed.

Lemma dom_heap_refreshIndexes (s : Sched) (m : Manager) :
  policyConfigs (regenerateGatewayConfigs s (refreshIndexes s m)) = policyConfigs m
  ∧ dom (heap (regenerateGatewayConfigs s (refreshIndexes s m))) = dom (heap m).
Proof.
  split.
  - unfold refreshIndexes. repeat (destruct (eventBitmapIsSet _ _)); done.
  - unfold regenerateGatewayConfigs. msimpl. rewrite dom_foldl_alter.
    unfold refreshIndexes.
    repeat (destruct (eventBitmapIsSet _ _));
      unfold updatePoliciesBySourceIP, updatePoliciesMatchedEndpointIDs; msimpl;
      rewrite ?dom_foldl_alter; done.
Qed.

Section Policies.
Variable env : Env.

(** In every state of the manager the pointers of [policyConfigs] refer to
    policy objects. *)
Lemma reachable_policiesAllocated (m : Manager) :
  reachable env m → policiesAllocated m.
Proof.
  induction 1 as [alloc routes pm h | m config _ IH | m id _ IH
                 | m ep _ IH | m ep _ IH | m id m' _ IH Hadd
                 | m id _ IH | m q _ IH | s m n Hs _ IH
                 | s m n Hs _ IH | m _ IH | s m Hs _ IH].
  - intros id p. unfold NewEgressGatewayManager. msimpl. by rewrite lookup_empty.
  - intros id p. rewrite policyConfigs_OnAddEgressPolicy, heap_OnAddEgressPolicy.
    rewrite lookup_insert. case_decide; [intros [= <-]; by rewrite decide_True |].
    intros Hid%IH. by case_decide.
  - destruct (policyConfigs_OnDeleteEgressPolicy id m) as (Hpc & Hheap & _).
    intros id' p. rewrite Hpc, Hheap, lookup_delete. case_decide; [done | apply IH].
  - exact IH.
  - exact IH.
  - destruct (addEndpoint_frame id m m' Hadd) as (Hpc & Hheap & _).
    apply (policiesAllocated_frame m); [exact Hpc | exact (f_equal dom Hheap) | done].
  - exact IH.
  - exact IH.
  - destruct (onChangeNodeLocked_frame s eventUpdateNode
                (set_nodeDataStore (<[nodeName n := n]> (nodeDataStore m)) m))
      as (Hpc & Hheap & _).
    apply (policiesAllocated_frame m); [exact Hpc | exact (f_equal dom Hheap) | done].
  - destruct (onChangeNodeLocked_frame s eventDeleteNode
                (set_nodeDataStore (delete (nodeName n) (nodeDataStore m)) m))
      as (Hpc & Hheap & _).
    apply (policiesAllocated_frame m); [exact Hpc | exact (f_equal dom Hheap) | done].
  - exact IH.
  - destruct (cacheStatus m) eqn:Hsync.
    + destruct (reconcileLocked_frame env s m Hsync) as (pm & h & c & ->).
      destruct (dom_heap_refreshIndexes s m) as [Hpc Hdom].
      by apply (policiesAllocated_frame m).
    + by rewrite reconcileLocked_skip.
Qed.

(** X3: the policy handlers act on one id.  After [OnAddEgressPolicy] the id
    of the policy refers to the policy given, with its matched endpoints
    computed from the endpoint cache, and after [OnDeleteEgressPolicy] the id
    refers to nothing; every other id refers to the same object, unchanged,
    as before. *)
Theorem policy_handlers_one_id (config : PolicyConfig) (id : policyID) (m : Manager) :
  reachable env m →
  (∀ id', policyOf (OnAddEgressPolicy config m) id'
          = if decide (id' = policyId config)
            then Some (set_matchedEndpoints
                         (filter (λ kv, selectsEndpoint config kv.2 = true) (epDataStore m))
                         config)
            else policyOf m id')
  ∧ (∀ id', policyOf (OnDeleteEgressPolicy id m) id'
            = if decide (id' = id) then None else policyOf m id').
Proof.
  intros Halloc%reachable_policiesAllocated. split; intros id'; unfold policyOf.
  - rewrite policyConfigs_OnAddEgressPolicy, lookup_insert.
    destruct (decide (id' = policyId config)) as [->|Hne].
    + rewrite decide_True by done. cbn [mbind option_bind]. rewrite heap_OnAddEgressPolicy.
      by rewrite decide_True.
    + rewrite decide_False by done.
      destruct (policyConfigs m !! id') as [p|] eqn:Hid; [| done]. cbn [mbind option_bind].
      rewrite heap_OnAddEgressPolicy. case_decide as Heq; [| done].
      destruct (Halloc id' p Hid) as [P HP]. by rewrite Heq, fresh_heap in HP.
  - destruct (policyConfigs_OnDeleteEgressPolicy id m) as (Hpc & Hheap & _).
    rewrite Hpc, Hheap, lookup_delete.
    destruct (decide (id' = id)) as [->|Hne].
    + by rewrite decide_True.
    + by rewrite decide_False.
Qed.

End Policies.

Lemma policy_handlers_one_id_witness :
  policyOf (OnAddEgressPolicy Scenario.Q1 (OnAddEgressPolicy Scenario.P1 Scenario.new))
    (mkNamespacedName "" "p")
  = Some Scenario.P1
  ∧ policyOf (OnDeleteEgressPolicy (mkNamespacedName "" "q")
                (OnAddEgressPolicy Scenario.P1 Scenario.new)) (mkNamespacedName "" "p")
    = Some Scenario.P1.
Proof.
  assert (Hreach : reachable Scenario.env (OnAddEgressPolicy Scenario.P1 Scenario.new)).
  { apply reach_OnAddEgressPolicy, reach_new. }
  destruct (policy_handlers_one_id Scenario.env Scenario.Q1 (mkNamespacedName "" "q") _ Hreach)
    as [Hadd Hdel].
  split.
  - rewrite Hadd. by vm_compute.
  - rewrite Hdel. by vm_compute.
Defined.

Lemma policyConfigs_reconcileLocked (env : Env) (s : Sched) (m : Manager) :
  policyConfigs (reconcileLocked env s m) = policyConfigs m
  ∧ epDataStore (reconcileLocked env s m) = epDataStore m.
Proof.
  destruct (cacheStatus m) eqn:Hsync.
  - destruct (reconcileLocked_frame env s m Hsync) as (pm & h & c & ->). msimpl.
    unfold refreshIndexes. repeat (destruct (eventBitmapIsSet _ _)); done.
  - by rewrite reconcileLocked_skip.
Qed.

Lemma scenario_s1_reachable : reachable Scenario.env Scenario.s1_after.
Proof.
  apply reach_reconcileLocked; [apply canonical_enumerates |].
  apply reach_k8sSyncDone.
  apply (reach_addEndpoint _ (OnUpdateEndpoint Scenario.pod
                                 (OnAddEgressPolicy Scenario.P1 Scenario.new)) Scenario.podID).
  - apply reach_OnUpdateEndpoint, reach_OnAddEgressPolicy, reach_new.
  - by vm_compute.
Qed.

(** X4: a deleted policy leaves no entry in the policy map.  After
    [OnDeleteEgressPolicy] and a synchronized run of the reconciler whose
    policy-map writes succeed, every entry of the policy map is an entry of
    a policy stored under another id. *)
Theorem OnDeleteEgressPolicy_reconcileLocked (env : Env) (s : Sched) (id : policyID)
    (m : Manager) :
  reachable env m → enumerates s → policyMapWritesSucceed s → cacheStatus m = true →
  let m' := reconcileLocked env s (OnDeleteEgressPolicy id m) in
  policyConfigs m' = delete id (policyConfigs m)
  ∧ ∀ k v, policyMap m' !! k = Some v →
           ∃ id' P, id' ≠ id ∧ policyOf m' id' = Some P ∧ policyEntry P k v.
Proof.
  intros Hreach Hs Hwrites Hsync m'. subst m'.
  destruct (policyConfigs_OnDeleteEgressPolicy id m) as (Hpc & _ & _ & _ & Hcs).
  assert (Hpc' : policyConfigs (reconcileLocked env s (OnDeleteEgressPolicy id m))
                 = delete id (policyConfigs m)).
  { by rewrite (proj1 (policyConfigs_reconcileLocked _ _ _)). }
  split; [done |]. intros k v Hkv.
  assert (Hinv : indexInv (OnDeleteEgressPolicy id m)).
  { by apply (reachable_invariants env), reach_OnDeleteEgressPolicy. }
  destruct (reconcileLocked_post env s Hs (OnDeleteEgressPolicy id m) Hwrites)
    as (_ & _ & _ & _ & Hsound & _); [congruence | done |].
  destruct (Hsound k v Hkv) as (p & P & [[id' Hid'] Hp] & Hentry).
  exists id', P. split; [| split; [| done]].
  - intros ->. by rewrite Hpc', lookup_delete_eq in Hid'.
  - unfold policyOf. by rewrite Hid'.
Qed.

Lemma OnDeleteEgressPolicy_reconcileLocked_witness :
  policyMap (reconcileLocked Scenario.env canonical
               (OnDeleteEgressPolicy (mkNamespacedName "" "p") Scenario.s1_after)) = ∅.
Proof.
  assert (Hsync : cacheStatus Scenario.s1_after = true) by (vm_compute; reflexivity).
  destruct (OnDeleteEgressPolicy_reconcileLocked Scenario.env canonical
              (mkNamespacedName "" "p") Scenario.s1_after scenario_s1_reachable
              canonical_enumerates (λ _ _ _, eq_refl) Hsync) as [Hpc Hmap].
  assert (Hempty : delete (mkNamespacedName "" "p") (policyConfigs Scenario.s1_after) = ∅)
    by (vm_compute; reflexivity).
  rewrite Hempty in Hpc. clear Hempty Hsync. revert Hpc Hmap.
  generalize (reconcileLocked Scenario.env canonical
                (OnDeleteEgressPolicy (mkNamespacedName "" "p") Scenario.s1_after)).
  intros m' Hpc Hmap. apply map_empty. intros k.
  destruct (policyMap m' !! k) as [v|] eqn:Hkv; [| done]. exfalso.
  destruct (Hmap k v Hkv) as (id' & P & _ & Hof & _).
  unfold policyOf in Hof. by rewrite Hpc, lookup_empty in Hof.
Defined.

(** ** The endpoint handlers and the worker *)




Lemma processCiliumEndpoints_item_none (id : endpointID) (m : Manager) :
  pendingEndpointEvents m !! id = None →
  processCiliumEndpoints_item id m
  = Ok (set_endpointEventsQueue (queue_Forget id (endpointEventsQueue m)) m).
Proof.
  intros Hnone. unfold processCiliumEndpoints_item, endpointEventIsPending.
  rewrite Hnone. cbv beta iota zeta. rewrite Hnone.
  rewrite bool_decide_false by (by intros [? ?]). reflexivity.
Qed.

Lemma queue_Forget_idem (id : endpointID) (q : WorkQueue) :
  queue_Forget id (queue_Forget id q) = queue_Forget id q.
Proof. unfold queue_Forget. cbn [numRequeues queueItems]. by rewrite delete_delete_eq. Qed.

(** X6: a delete event processed by the worker.  Whatever was pending for
    the endpoint before, one iteration of the worker after [OnDeleteEndpoint]
    removes the endpoint from [epDataStore], leaves no pending event for it,
    records the event, fires the trigger and forgets the item in the queue;
    it consults neither the identity allocator nor the (nil) endpoint of the
    event.  A further iteration for the same id changes nothing. *)
Theorem processCiliumEndpoints_item_delete (ep : CiliumEndpoint) (m : Manager) :
  let id := mkNamespacedName (cepNamespace ep) (cepName ep) in
  ∃ m', processCiliumEndpoints_item id (OnDeleteEndpoint ep m) = Ok m'
    ∧ epDataStore m' = delete id (epDataStore m)
    ∧ pendingEndpointEvents m' = delete id (pendingEndpointEvents m)
    ∧ eventBitmapIsSet [eventDeleteEndpoint] m' = true
    ∧ reconciliationTrigger m' = reconciliationTrigger m ++ ["endpoint deleted"]
    ∧ numRequeues (endpointEventsQueue m') !! id = None
    ∧ policyConfigs m' = policyConfigs m ∧ heap m' = heap m
    ∧ policyConfigsBySourceIP m' = policyConfigsBySourceIP m
    ∧ processCiliumEndpoints_item id m' = Ok m'.
Proof.
  intros id.
  exists (set_endpointEventsQueue
            (queue_Forget id (endpointEventsQueue (OnDeleteEndpoint ep m)))
            (deleteEndpoint id (OnDeleteEndpoint ep m))).
  assert (Hdeleted : pendingEndpointEvents (deleteEndpoint id (OnDeleteEndpoint ep m)) !! id
                     = None) by apply lookup_delete_eq.
  split.
  { unfold processCiliumEndpoints_item. subst id. rewrite OnDeleteEndpoint_pending.
    cbn [evType]. rewrite bool_decide_false by (by vm_compute).
    rewrite bool_decide_true by done. unfold endpointEventIsPending. rewrite Hdeleted.
    rewrite bool_decide_false by (by intros [? ?]). reflexivity. }
  split; [done |].
  split; [apply delete_insert_eq |].
  split.
  { by apply (eventBitmapIsSet_bit _ _ (eventsBitmap m) eventDeleteEndpoint); [| | left]. }
  split; [done |].
  split; [apply lookup_delete_eq |].
  split; [done |]. split; [done |]. split; [done |].
  rewrite processCiliumEndpoints_item_none by exact Hdeleted.
  generalize (deleteEndpoint id (OnDeleteEndpoint ep m)).
  generalize (endpointEventsQueue (OnDeleteEndpoint ep m)). intros q m0.
  f_equal. msimpl. by rewrite queue_Forget_idem.
Qed.

(** ** The matched endpoints *)

Lemma updatePoliciesMatchedEndpointIDs_lookup (s : Sched) (m : Manager) (p : positive) :
  heap (updatePoliciesMatchedEndpointIDs s m) !! p
  = if decide (p ∈ range_values s (policyConfigs m))
    then updateMatchedEndpointIDs (epDataStore m) <$> heap m !! p
    else heap m !! p.
Proof.
  unfold updatePoliciesMatchedEndpointIDs. msimpl.
  apply foldl_alter_lookup. reflexivity.
Qed.

Lemma policyAt_updatePoliciesMatchedEndpointIDs (s : Sched) (m : Manager) (p : positive)
    (P' : PolicyConfig) :
  enumerates s →
  policyAt (updatePoliciesMatchedEndpointIDs s m) p P' ↔
  ∃ P, policyAt m p P ∧ P' = updateMatchedEndpointIDs (epDataStore m) P.
Proof.
  intros Hs. unfold policyAt. rewrite updatePoliciesMatchedEndpointIDs_lookup.
  change (policyConfigs (updatePoliciesMatchedEndpointIDs s m)) with (policyConfigs m).
  split.
  - intros [Hid Hheap].
    rewrite decide_True in Hheap by (by apply (elem_of_range_snd s Hs)).
    destruct (heap m !! p) as [P|]; [| done]. exists P.
    cbn in Hheap. split; [done | congruence].
  - intros (P & [Hid Hheap] & ->). split; [done |].
    rewrite decide_True by (by apply (elem_of_range_snd s Hs)).
    by rewrite Hheap.
Qed.

Lemma matchedCurrent_updatePoliciesMatchedEndpointIDs (s : Sched) (m : Manager) :
  enumerates s → matchedCurrent (updatePoliciesMatchedEndpointIDs s m).
Proof.
  intros Hs p P' (P & _ & ->)%policyAt_updatePoliciesMatchedEndpointIDs; [| done].
  reflexivity.
Qed.

Lemma matchedCurrent_frame (m m' : Manager) :
  policyConfigs m' = policyConfigs m → heap m' = heap m → epDataStore m' = epDataStore m →
  matchedCurrent m → matchedCurrent m'.
Proof.
  intros Hpc Hheap Heps Hcur. unfold matchedCurrent, policyAt in *.
  by rewrite Hpc, Hheap, Heps.
Qed.

Lemma matchedInv_frame (m m' : Manager) (e : eventType) :
  policyConfigs m' = policyConfigs m → heap m' = heap m → epDataStore m' = epDataStore m →
  eventsBitmap m' = eventsBitmap m ∨ eventsBitmap m' = Z.lor (eventsBitmap m) e →
  matchedInv m → matchedInv m'.
Proof.
  intros Hpc Hheap Heps Hbits [Hpending|Hcurrent].
  - left. destruct Hbits as [Hbits|Hbits].
    + unfold matchedPending, eventBitmapIsSet in *. by rewrite Hbits.
    + by apply (eventBitmapIsSet_lor _ m m' e).
  - right. by apply (matchedCurrent_frame m).
Qed.

Lemma matchedInv_pending (m : Manager) (b e : eventType) :
  eventsBitmap m = Z.lor b e → e ≠ 0 →
  e ∈ [eventUpdateEndpoint; eventDeleteEndpoint; eventK8sSyncDone] →
  matchedInv m.
Proof. intros Hbits Hne Hin. left. by apply (eventBitmapIsSet_bit _ m b e). Qed.

Lemma matchedPending_split (m : Manager) :
  matchedPending m
  = eventBitmapIsSet [eventUpdateEndpoint; eventDeleteEndpoint] m
    || eventBitmapIsSet [eventK8sSyncDone] m.
Proof.
  unfold matchedPending, eventBitmapIsSet. cbn [existsb].
  rewrite !orb_false_r, !orb_assoc. done.
Qed.

Lemma matchedCurrent_updatePoliciesBySourceIP (s : Sched) (m : Manager) :
  matchedCurrent m → matchedCurrent (updatePoliciesBySourceIP s m).
Proof. by apply matchedCurrent_frame. Qed.

Lemma refreshIndexes_matchedCurrent (s : Sched) (m : Manager) :
  enumerates s → matchedInv m → matchedCurrent (refreshIndexes s m).
Proof.
  intros Hs Hinv. unfold refreshIndexes.
  destruct (eventBitmapIsSet [eventUpdateEndpoint; eventDeleteEndpoint] m) eqn:H1;
    rewrite ?eventBitmapIsSet_updatePoliciesBySourceIP,
            ?eventBitmapIsSet_updatePoliciesMatchedEndpointIDs;
    destruct (eventBitmapIsSet [eventAddPolicy; eventDeletePolicy] m) eqn:H2;
    rewrite ?eventBitmapIsSet_updatePoliciesBySourceIP,
            ?eventBitmapIsSet_updatePoliciesMatchedEndpointIDs;
    destruct (eventBitmapIsSet [eventK8sSyncDone] m) eqn:H3;
    repeat apply matchedCurrent_updatePoliciesBySourceIP;
    try (by apply matchedCurrent_updatePoliciesMatchedEndpointIDs).
  all: destruct Hinv as [Hpending|Hcurrent]; [| done].
  all: rewrite matchedPending_split, H1, H3 in Hpending; done.
Qed.

Lemma regenerateGatewayConfigs_matchedCurrent (s : Sched) (m : Manager) :
  enumerates s → matchedCurrent m → matchedCurrent (regenerateGatewayConfigs s m).
Proof.
  intros Hs Hcur p P' (P & Hat & ->)%policyAt_regenerateGatewayConfigs; [| done].
  exact (Hcur p P Hat).
Qed.

Lemma reconcileLocked_matchedCurrent (env : Env) (s : Sched) (m : Manager) :
  enumerates s → cacheStatus m = true → matchedInv m →
  matchedCurrent (reconcileLocked env s m).
Proof.
  intros Hs Hsync Hinv.
  destruct (reconcileLocked_frame env s m Hsync) as (pm & h & c & ->).
  apply (matchedCurrent_frame (regenerateGatewayConfigs s (refreshIndexes s m)));
    [reflexivity .. |].
  by apply regenerateGatewayConfigs_matchedCurrent, refreshIndexes_matchedCurrent.
Qed.

Lemma matchedCurrent_new alloc routes pm h :
  matchedCurrent (NewEgressGatewayManager alloc routes pm h).
Proof.
  intros p P [[id Hid] _]. unfold NewEgressGatewayManager in Hid. msimpl.
  by rewrite lookup_empty in Hid.
Qed.

Lemma epDataStore_onChangeNodeLocked (s : Sched) (e : eventType) (m : Manager) :
  epDataStore (onChangeNodeLocked s e m) = epDataStore m
  ∧ cacheStatus (onChangeNodeLocked s e m) = cacheStatus m.
Proof.
  unfold onChangeNodeLocked.
  assert (Hloop : ∀ l m0, foldl (λ m n, set_nodes (nodes m ++ [n]) m) m0 l
                          = set_nodes (nodes m0 ++ l) m0).
  { induction l as [|n l IH]; intros m0; cbn [foldl].
    - rewrite app_nil_r. by destruct m0.
    - rewrite IH. msimpl. by rewrite <- app_assoc. }
  rewrite Hloop. done.
Qed.

Section Matched.
Variable env : Env.

(** In every state of the manager the matched endpoints of the policies are
    current, unless an event that makes the reconciler recompute them is
    pending. *)
Lemma reachable_matchedInv (m : Manager) :
  reachable env m → matchedInv m.
Proof.
  induction 1 as [alloc routes pm h | m config _ IH | m id _ IH
                 | m ep _ IH | m ep _ IH | m id m' _ IH Hadd
                 | m id _ IH | m q _ IH | s m n Hs _ IH
                 | s m n Hs _ IH | m _ IH | s m Hs _ IH].
  - right. apply matchedCurrent_new.
  - destruct IH as [Hpending|Hcurrent].
    + left. by apply (eventBitmapIsSet_lor _ m _ eventAddPolicy).
    + right. intros q P [[id Hid] Hq].
      rewrite policyConfigs_OnAddEgressPolicy, lookup_insert in Hid.
      rewrite heap_OnAddEgressPolicy in Hq.
      change (epDataStore (OnAddEgressPolicy config m)) with (epDataStore m).
      destruct (decide (q = fresh (dom (heap m)))) as [->|Hne].
      * by injection Hq as <-.
      * case_decide; [congruence |]. apply (Hcurrent q). split; [by exists id | done].
  - destruct (policyConfigs m !! id) as [p|] eqn:Hid.
    2:{ unfold OnDeleteEgressPolicy. by rewrite Hid. }
    destruct (OnDeleteEgressPolicy_known id m p Hid) as (Hpc & _ & Hbits).
    destruct (policyConfigs_OnDeleteEgressPolicy id m) as (_ & Hheap & _ & Heps & _).
    destruct IH as [Hpending|Hcurrent].
    + left. by apply (eventBitmapIsSet_lor _ m _ eventDeletePolicy).
    + right. intros q P [[id' Hid'] Hq]. rewrite Heps.
      rewrite Hpc in Hid'. apply lookup_delete_Some in Hid' as [_ Hid'].
      rewrite Hheap in Hq. apply (Hcurrent q). split; [by exists id' | done].
  - exact IH.
  - exact IH.
  - revert Hadd. unfold addEndpoint.
    destruct (pendingEndpointEvents m !! id) as [ev|]; [| by intros [= <-]].
    destruct (evEndpoint ev) as [ep|]; [| done].
    destruct (getIdentityLabels m _) as [labels|]; [| by intros [= <-]].
    destruct (getEndpointMetadata ep labels) as [epData|]; intros [= <-].
    + by apply (matchedInv_pending _ (eventsBitmap m) eventUpdateEndpoint); [| | left].
    + exact IH.
  - by apply (matchedInv_pending _ (eventsBitmap m) eventDeleteEndpoint);
      [| | right; left].
  - exact IH.
  - unfold OnUpdateNode.
    destruct (onChangeNodeLocked_frame s eventUpdateNode
                (set_nodeDataStore (<[nodeName n := n]> (nodeDataStore m)) m))
      as (Hpc & Hheap & _ & Hbits).
    destruct (epDataStore_onChangeNodeLocked s eventUpdateNode
                (set_nodeDataStore (<[nodeName n := n]> (nodeDataStore m)) m)) as [Heps _].
    apply (matchedInv_frame m _ eventUpdateNode); auto.
  - unfold OnDeleteNode.
    destruct (onChangeNodeLocked_frame s eventDeleteNode
                (set_nodeDataStore (delete (nodeName n) (nodeDataStore m)) m))
      as (Hpc & Hheap & _ & Hbits).
    destruct (epDataStore_onChangeNodeLocked s eventDeleteNode
                (set_nodeDataStore (delete (nodeName n) (nodeDataStore m)) m)) as [Heps _].
    apply (matchedInv_frame m _ eventDeleteNode); auto.
  - by apply (matchedInv_pending _ (eventsBitmap m) eventK8sSyncDone);
      [| | right; right; left].
  - destruct (cacheStatus m) eqn:Hsync.
    + right. by apply reconcileLocked_matchedCurrent.
    + by rewrite reconcileLocked_skip.
Qed.

(** X7: after a synchronized run of the reconciler the matched endpoints of
    every policy are exactly the endpoints of the cache that the policy
    selects; the run itself changes neither the policies stored nor the
    endpoint cache. *)
Theorem reconcileLocked_matchedEndpoints (s : Sched) (m : Manager) :
  reachable env m → enumerates s → cacheStatus m = true →
  matchedCurrent (reconcileLocked env s m)
  ∧ policyConfigs (reconcileLocked env s m) = policyConfigs m
  ∧ epDataStore (reconcileLocked env s m) = epDataStore m.
Proof.
  intros Hreach Hs Hsync. split; [| apply policyConfigs_reconcileLocked].
  apply reconcileLocked_matchedCurrent; try done. by apply reachable_matchedInv.
Qed.

(** X8: after a synchronized run of the reconciler whose policy-map writes
    succeed, every entry of the policy map comes from an endpoint that is in
    the endpoint cache and from a policy stored that selects it: the source
    address of the key is an address of the endpoint and the destination of
    the key is a destination or excluded CIDR of the policy. *)
Theorem reconcileLocked_entries_from_cache (s : Sched) (m : Manager) :
  reachable env m → enumerates s → policyMapWritesSucceed s → cacheStatus m = true →
  ∀ k v, policyMap (reconcileLocked env s m) !! k = Some v →
    ∃ id ep id' P,
      epDataStore m !! id = Some ep ∧ keySourceIP k ∈ epIPs ep
      ∧ policyOf (reconcileLocked env s m) id' = Some P
      ∧ selectsEndpoint P ep = true
      ∧ keyDestCIDR k ∈ dstCIDRs P ++ excludedCIDRs P.
Proof.
  intros Hreach Hs Hwrites Hsync k v Hkv.
  destruct (reconcileLocked_post env s Hs m Hwrites Hsync)
    as (_ & _ & _ & _ & Hsound & _); [by apply (reachable_invariants env) |].
  destruct (Hsound k v Hkv) as (p & P & Hat & id & ep & ip & cidr & Hid & Hip & -> & Hcidr).
  assert (Hcur := reconcileLocked_matchedCurrent env s m Hs Hsync
                    (reachable_matchedInv m Hreach) p P Hat).
  rewrite Hcur, (proj2 (policyConfigs_reconcileLocked env s m)) in Hid.
  apply map_lookup_filter_Some in Hid as [Hid Hsel].
  destruct Hat as [[id' Hid'] Hp].
  exists id, ep, id', P. split; [done |]. split; [done |]. split.
  { unfold policyOf. by rewrite Hid'. }
  split; [done |]. cbn. apply elem_of_app. tauto.
Qed.

End Matched.

Lemma scenario_s2_reachable : reachable Scenario.env Scenario.s2_before.
Proof.
  apply reach_k8sSyncDone.
  apply (reach_addEndpoint _ (OnUpdateEndpoint Scenario.pod
                                 (OnAddEgressPolicy Scenario.P2 Scenario.new)) Scenario.podID).
  - apply reach_OnUpdateEndpoint, reach_OnAddEgressPolicy, reach_new.
  - by vm_compute.
Qed.

Lemma reconcileLocked_matchedEndpoints_witness :
  matchedCurrent (reconcileLocked Scenario.env canonical Scenario.s2_before)
  ∧ policyConfigs (reconcileLocked Scenario.env canonical Scenario.s2_before)
    = policyConfigs Scenario.s2_before
  ∧ epDataStore (reconcileLocked Scenario.env canonical Scenario.s2_before)
    = epDataStore Scenario.s2_before.
Proof.
  apply (reconcileLocked_matchedEndpoints Scenario.env canonical Scenario.s2_before).
  - exact scenario_s2_reachable.
  - exact canonical_enumerates.
  - vm_compute. reflexivity.
Defined.

Lemma reconcileLocked_entries_from_cache_witness :
  policyMap (reconcileLocked Scenario.env canonical Scenario.s4_before) = ∅.
Proof.
  assert (Hsync : cacheStatus Scenario.s4_before = true) by (vm_compute; reflexivity).
  assert (Heps : epDataStore Scenario.s4_before = ∅) by (vm_compute; reflexivity).
  assert (Hreach : reachable Scenario.env Scenario.s4_before).
  { apply reach_deleteEndpoint, reach_OnDeleteEndpoint, scenario_s1_reachable. }
  pose proof (reconcileLocked_entries_from_cache Scenario.env canonical Scenario.s4_before
                Hreach canonical_enumerates (λ _ _ _, eq_refl) Hsync) as Hmap.
  rewrite Heps in Hmap. clear Heps Hsync Hreach. revert Hmap.
  generalize (reconcileLocked Scenario.env canonical Scenario.s4_before).
  intros m' Hmap. apply map_empty. intros k.
  destruct (policyMap m' !! k) as [v|] eqn:Hkv; [| done]. exfalso.
  destruct (Hmap k v Hkv) as (id & ep & _ & _ & Hid & _).
  by rewrite lookup_empty in Hid.
Defined.

(** ** The node slice *)

Lemma node_less_asym (a b : Node) : node_less a b → node_less b a → a = b.
Proof.
  unfold node_less. intros Hab Hba.
  destruct (name_lt_irrefl (nodeName a)). by apply (name_lt_trans _ (nodeName b)).
Qed.

Lemma nodesByName_insert (n : Node) (m : Manager) :
  nodesByName m → nodesByName (set_nodeDataStore (<[nodeName n := n]> (nodeDataStore m)) m).
Proof.
  intros Hn k n'. msimpl. rewrite lookup_insert.
  case_decide; [by intros [= <-] | apply Hn].
Qed.

Lemma nodesByName_delete (n : Node) (m : Manager) :
  nodesByName m → nodesByName (set_nodeDataStore (delete (nodeName n) (nodeDataStore m)) m).
Proof.
  intros Hn k n'. msimpl. rewrite lookup_delete. case_decide; [done | apply Hn].
Qed.

Lemma onChangeNodeLocked_order (s1 s2 : Sched) (e1 e2 : eventType) (m : Manager) :
  enumerates s1 → enumerates s2 → nodesByName m →
  nodes (onChangeNodeLocked s1 e1 m) = nodes (onChangeNodeLocked s2 e2 m).
Proof.
  intros Hs1 Hs2 Hn.
  destruct (onChangeNodeLocked_sorted s1 Hs1 e1 m Hn) as [Hperm1 Hsorted1].
  destruct (onChangeNodeLocked_sorted s2 Hs2 e2 m Hn) as [Hperm2 Hsorted2].
  apply (StronglySorted_unique_strong node_less); try done.
  - intros x1 x2 _ _. apply node_less_asym.
  - by rewrite Hperm1, Hperm2.
Qed.

(** X9: the node slice does not depend on the order in which the node store
    is ranged over: after a node event [nodes] is the same list whatever
    order the map iteration takes. *)
Theorem node_events_order_independent (s1 s2 : Sched) (n : Node) (m : Manager) :
  enumerates s1 → enumerates s2 → nodesByName m →
  nodes (OnUpdateNode s1 n m) = nodes (OnUpdateNode s2 n m)
  ∧ nodes (OnDeleteNode s1 n m) = nodes (OnDeleteNode s2 n m).
Proof.
  intros Hs1 Hs2 Hn. split.
  - by apply onChangeNodeLocked_order, nodesByName_insert.
  - by apply onChangeNodeLocked_order, nodesByName_delete.
Qed.

Lemma node_events_order_independent_witness :
  nodes (OnUpdateNode canonical Scenario.nodeA Scenario.oneNode)
  = nodes (OnUpdateNode backwards Scenario.nodeA Scenario.oneNode)
  ∧ nodes (OnDeleteNode canonical Scenario.nodeA Scenario.oneNode)
    = nodes (OnDeleteNode backwards Scenario.nodeA Scenario.oneNode).
Proof.
  apply (node_events_order_independent canonical backwards Scenario.nodeA Scenario.oneNode).
  - exact canonical_enumerates.
  - exact backwards_enumerates.
  - apply (nodesByName_insert Scenario.nodeB Scenario.new), nodesByName_new.
Defined.

Lemma nodes_frame (m m' : Manager) :
  nodes m' = nodes m → nodeDataStore m' = nodeDataStore m →
  nodes m ≡ₚ (map_to_list (nodeDataStore m)).*2 ∧ StronglySorted node_less (nodes m) →
  nodes m' ≡ₚ (map_to_list (nodeDataStore m')).*2 ∧ StronglySorted node_less (nodes m').
Proof. intros -> ->. done. Qed.

Lemma nodes_addEndpoint (id : endpointID) (m m' : Manager) :
  addEndpoint id m = Ok m' → nodes m' = nodes m ∧ nodeDataStore m' = nodeDataStore m.
Proof.
  unfold addEndpoint. destruct (pendingEndpointEvents m !! id) as [epEvent|].
  2:{ by intros [= <-]. }
  destruct (evEndpoint epEvent) as [ep|]; [| done].
  destruct (getIdentityLabels m _) as [labels|].
  2:{ by intros [= <-]. }
  destruct (getEndpointMetadata ep labels) as [epData|]; by intros [= <-].
Qed.

Section NodesCurrent.
Variable env : Env.

(** X10: in every state of the manager [nodes] holds exactly the nodes of
    the node store, strictly ascending by name: the node handlers rebuild
    the slice, and no other handler, nor the worker, nor the reconciler
    touches the slice or the store. *)
Theorem reachable_nodes_current (m : Manager) :
  reachable env m →
  nodes m ≡ₚ (map_to_list (nodeDataStore m)).*2 ∧ StronglySorted node_less (nodes m).
Proof.
  induction 1 as [alloc routes pm h | m config Hm IH | m id Hm IH
                 | m ep Hm IH | m ep Hm IH | m id m' Hm IH Hadd
                 | m id Hm IH | m q Hm IH | s m n Hs Hm IH
                 | s m n Hs Hm IH | m Hm IH | s m Hs Hm IH].
  - unfold NewEgressGatewayManager. msimpl. rewrite map_to_list_empty. split; [done |].
    constructor.
  - exact IH.
  - unfold OnDeleteEgressPolicy. by destruct (policyConfigs m !! id).
  - exact IH.
  - exact IH.
  - destruct (nodes_addEndpoint id m m' Hadd) as [Hnodes Hstore].
    by apply (nodes_frame m).
  - exact IH.
  - exact IH.
  - unfold OnUpdateNode.
    rewrite (proj2 (onChangeNodeLocked_nodes s eventUpdateNode _)).
    apply (onChangeNodeLocked_sorted s Hs), nodesByName_insert.
    by apply (reachable_invariants env).
  - unfold OnDeleteNode.
    rewrite (proj2 (onChangeNodeLocked_nodes s eventDeleteNode _)).
    apply (onChangeNodeLocked_sorted s Hs), nodesByName_delete.
    by apply (reachable_invariants env).
  - exact IH.
  - destruct (cacheStatus m) eqn:Hsync.
    + destruct (reconcileLocked_frame env s m Hsync) as (pm & h & c & ->).
      apply (nodes_frame m); [| | done]; msimpl.
      * apply cacheStatus_refreshIndexes.
      * apply nodeDataStore_refreshIndexes.
    + by rewrite reconcileLocked_skip.
Qed.

End NodesCurrent.

Lemma reachable_nodes_current_witness :
  nodes (OnUpdateNode canonical Scenario.nodeA Scenario.oneNode)
  ≡ₚ (map_to_list (nodeDataStore (OnUpdateNode canonical Scenario.nodeA Scenario.oneNode))).*2
  ∧ StronglySorted node_less (nodes (OnUpdateNode canonical Scenario.nodeA Scenario.oneNode)).
Proof.
  apply (reachable_nodes_current Scenario.env).
  apply reach_OnUpdateNode; [exact canonical_enumerates |].
  apply reach_OnUpdateNode; [exact canonical_enumerates |].
  apply reach_new.
Defined.

(** ** Lookups through the index *)

Section Matches.
Variable env : Env.
Variable sched : Sched.
Hypothesis sched_enumerates : enumerates sched.

(** What the loops of [policyMatches] compute, for any callback. *)
Lemma policyMatches_index (m : Manager) (sourceIP : IP)
    (f : IP → IPNet → bool → gatewayConfig → bool) :
  policyMatches sched m sourceIP f = true ↔
  ∃ p P id ep cidr (excluded : bool),
    p ∈ default [] (policyConfigsBySourceIP m !! ip_String sourceIP)
    ∧ heap m !! p = Some P ∧ matchedEndpoints P !! id = Some ep ∧ sourceIP ∈ epIPs ep
    ∧ cidr ∈ (if excluded then excludedCIDRs P else dstCIDRs P)
    ∧ f sourceIP cidr excluded (policyGatewayConfig P) = true.
Proof.
  unfold policyMatches. rewrite existsb_exists. split.
  - intros (p & Hp%list_elem_of_In & Hmatch). exists p.
    destruct (heap m !! p) as [P|]; [| done]. exists P.
    apply existsb_exists in Hmatch as (ep & Hep%list_elem_of_In & Hmatch).
    apply existsb_exists in Hmatch as (ip & Hip%list_elem_of_In & Hmatch).
    apply (elem_of_range_snd sched sched_enumerates) in Hep as [id Hid].
    unfold ip_Equal in Hmatch. case_bool_decide as Heq; [| done]. subst ip.
    cbn [negb] in Hmatch.
    apply orb_true_iff in Hmatch as [Hmatch|Hmatch];
      apply existsb_exists in Hmatch as (cidr & Hc%list_elem_of_In & Hmatch).
    + by exists id, ep, cidr, false.
    + by exists id, ep, cidr, true.
  - intros (p & P & id & ep & cidr & excluded & Hp & Hheap & Hid & Hip & Hc & Hf).
    exists p. split; [by apply list_elem_of_In |]. rewrite Hheap.
    apply existsb_exists. exists ep.
    split; [apply list_elem_of_In, (elem_of_range_snd sched sched_enumerates); eauto |].
    apply existsb_exists. exists sourceIP. split; [by apply list_elem_of_In |].
    unfold ip_Equal. rewrite bool_decide_eq_true_2 by done. cbn [negb].
    apply orb_true_iff. destruct excluded; [right | left];
      apply existsb_exists; exists cidr; (split; [by apply list_elem_of_In | done]).
Qed.

Lemma policyMatchesMinusExcludedCIDRs_index (m : Manager) (sourceIP : IP)
    (f : IP → IPNet → gatewayConfig → bool) :
  policyMatchesMinusExcludedCIDRs env sched m sourceIP f = true ↔
  ∃ p P id ep cidr,
    p ∈ default [] (policyConfigsBySourceIP m !! ip_String sourceIP)
    ∧ heap m !! p = Some P ∧ matchedEndpoints P !! id = Some ep ∧ sourceIP ∈ epIPs ep
    ∧ cidr ∈ destinationMinusExcludedCIDRs env (dstCIDRs P) (excludedCIDRs P)
    ∧ f sourceIP cidr (policyGatewayConfig P) = true.
Proof.
  unfold policyMatchesMinusExcludedCIDRs. rewrite existsb_exists. split.
  - intros (p & Hp%list_elem_of_In & Hmatch). exists p.
    destruct (heap m !! p) as [P|]; [| done]. exists P. cbv zeta in Hmatch.
    apply existsb_exists in Hmatch as (ep & Hep%list_elem_of_In & Hmatch).
    apply existsb_exists in Hmatch as (ip & Hip%list_elem_of_In & Hmatch).
    apply (elem_of_range_snd sched sched_enumerates) in Hep as [id Hid].
    unfold ip_Equal in Hmatch. case_bool_decide as Heq; [| done]. subst ip.
    cbn [negb] in Hmatch.
    apply existsb_exists in Hmatch as (cidr & Hc%list_elem_of_In & Hmatch).
    by exists id, ep, cidr.
  - intros (p & P & id & ep & cidr & Hp & Hheap & Hid & Hip & Hc & Hf).
    exists p. split; [by apply list_elem_of_In |]. rewrite Hheap. cbv zeta.
    apply existsb_exists. exists ep.
    split; [apply list_elem_of_In, (elem_of_range_snd sched sched_enumerates); eauto |].
    apply existsb_exists. exists sourceIP. split; [by apply list_elem_of_In |].
    unfold ip_Equal. rewrite bool_decide_eq_true_2 by done. cbn [negb].
    apply existsb_exists; exists cidr; (split; [by apply list_elem_of_In | done]).
Qed.

Lemma indexCurrent_lookup (m : Manager) (sourceIP : IP) (p : positive) (P : PolicyConfig)
    (id : endpointID) (ep : endpointMetadata) :
  indexCurrent m →
  (p ∈ default [] (policyConfigsBySourceIP m !! ip_String sourceIP)
   ∧ heap m !! p = Some P ∧ matchedEndpoints P !! id = Some ep ∧ sourceIP ∈ epIPs ep)
  ↔ (policyAt m p P ∧ matchedEndpoints P !! id = Some ep ∧ sourceIP ∈ epIPs ep).
Proof.
  intros Hindex. split.
  - intros (Hp & Hheap & Hid & Hip).
    apply Hindex in Hp as (P' & _ & _ & _ & [Hat _] & _). by repeat split.
  - intros ([Hat Hheap] & Hid & Hip). split; [| done].
    apply Hindex. exists P, id, ep, sourceIP. done.
Qed.

(** X11: with the index current, the lookup of [policyMatches] through
    [policyConfigsBySourceIP] finds exactly what a search of all policies
    would: it returns true iff the callback accepts the source address with
    a destination or excluded CIDR of a stored policy that has a matched
    endpoint with that address.  The callback is only ever asked about the
    source address itself. *)
Theorem policyMatches_all_policies (m : Manager) (sourceIP : IP)
    (f : IP → IPNet → bool → gatewayConfig → bool) :
  indexCurrent m →
  policyMatches sched m sourceIP f = true ↔
  ∃ p P id ep cidr (excluded : bool),
    policyAt m p P ∧ matchedEndpoints P !! id = Some ep ∧ sourceIP ∈ epIPs ep
    ∧ cidr ∈ (if excluded then excludedCIDRs P else dstCIDRs P)
    ∧ f sourceIP cidr excluded (policyGatewayConfig P) = true.
Proof.
  intros Hindex. rewrite policyMatches_index. split.
  - intros (p & P & id & ep & cidr & excluded & Hp & Hheap & Hid & Hip & Hrest).
    exists p, P, id, ep, cidr, excluded.
    destruct (proj1 (indexCurrent_lookup m sourceIP p P id ep Hindex)) as (? & ? & ?); done.
  - intros (p & P & id & ep & cidr & excluded & Hat & Hid & Hip & Hrest).
    exists p, P, id, ep, cidr, excluded.
    destruct (proj2 (indexCurrent_lookup m sourceIP p P id ep Hindex)) as (? & ? & ? & ?);
      done.
Qed.

(** X12: with the index current, [policyMatchesMinusExcludedCIDRs] returns
    true iff the callback accepts the source address with an effective
    destination CIDR (destinations minus excluded CIDRs) of a stored policy
    that has a matched endpoint with that address. *)
Theorem policyMatchesMinusExcludedCIDRs_all_policies (m : Manager) (sourceIP : IP)
    (f : IP → IPNet → gatewayConfig → bool) :
  indexCurrent m →
  policyMatchesMinusExcludedCIDRs env sched m sourceIP f = true ↔
  ∃ p P id ep cidr,
    policyAt m p P ∧ matchedEndpoints P !! id = Some ep ∧ sourceIP ∈ epIPs ep
    ∧ cidr ∈ destinationMinusExcludedCIDRs env (dstCIDRs P) (excludedCIDRs P)
    ∧ f sourceIP cidr (policyGatewayConfig P) = true.
Proof.
  intros Hindex. rewrite policyMatchesMinusExcludedCIDRs_index. split.
  - intros (p & P & id & ep & cidr & Hp & Hheap & Hid & Hip & Hrest).
    exists p, P, id, ep, cidr.
    destruct (proj1 (indexCurrent_lookup m sourceIP p P id ep Hindex)) as (? & ? & ?); done.
  - intros (p & P & id & ep & cidr & Hat & Hid & Hip & Hrest).
    exists p, P, id, ep, cidr.
    destruct (proj2 (indexCurrent_lookup m sourceIP p P id ep Hindex)) as (? & ? & ? & ?);
      done.
Qed.

End Matches.

Lemma scenario_s2_indexCurrent : indexCurrent Scenario.s2_after.
Proof.
  apply (reconcileLocked_post Scenario.env canonical canonical_enumerates Scenario.s2_before).
  - intros h c _. reflexivity.
  - vm_compute. reflexivity.
  - apply (reachable_invariants Scenario.env), scenario_s2_reachable.
Qed.

Lemma policyMatches_all_policies_witness :
  policyMatches canonical Scenario.s2_after Scenario.podIP (λ (_ : N) (_ : IPNet) (excluded : bool) (_ : gatewayConfig), excluded) = true.
Proof.
  apply (policyMatches_all_policies canonical canonical_enumerates Scenario.s2_after
           Scenario.podIP (λ (_ : N) (_ : IPNet) (excluded : bool) (_ : gatewayConfig), excluded) scenario_s2_indexCurrent).
  exists 1%positive,
    (regenerateGatewayConfig Scenario.s2_before
       (updateMatchedEndpointIDs (epDataStore Scenario.s2_before) Scenario.P2)),
    Scenario.podID, (mkEndpointMetadata Scenario.podID [Scenario.podIP] ∅),
    Scenario.net24, true.
  split; [split; [exists (mkNamespacedName "" "p") |]; vm_compute; reflexivity |].
  split; [vm_compute; reflexivity |].
  split; [by left |]. split; [by left | done].
Defined.

Lemma policyMatchesMinusExcludedCIDRs_all_policies_witness :
  policyMatchesMinusExcludedCIDRs Scenario.env canonical Scenario.s2_after Scenario.podIP
    (λ (_ : N) (cidr : IPNet) (_ : gatewayConfig), bool_decide (cidr = Scenario.net16)) = true.
Proof.
  apply (policyMatchesMinusExcludedCIDRs_all_policies Scenario.env canonical
           canonical_enumerates Scenario.s2_after
           Scenario.podIP _ scenario_s2_indexCurrent).
  exists 1%positive,
    (regenerateGatewayConfig Scenario.s2_before
       (updateMatchedEndpointIDs (epDataStore Scenario.s2_before) Scenario.P2)),
    Scenario.podID, (mkEndpointMetadata Scenario.podID [Scenario.podIP] ∅),
    Scenario.net16.
  split; [split; [exists (mkNamespacedName "" "p") |]; vm_compute; reflexivity |].
  split; [vm_compute; reflexivity |].
  split; [by left |]. split; [by left | done].
Defined.

(** ** Order of the map iteration and the policy objects *)

(** X13: [updatePoliciesMatchedEndpointIDs] does not depend on the order in
    which [policyConfigs] is ranged over; it replaces the matched endpoints
    of every stored policy by the endpoints of the cache the policy selects
    and leaves the objects no id refers to as they are. *)
Theorem updatePoliciesMatchedEndpointIDs_effect (s1 s2 : Sched) (m : Manager) :
  enumerates s1 → enumerates s2 →
  updatePoliciesMatchedEndpointIDs s1 m = updatePoliciesMatchedEndpointIDs s2 m
  ∧ (∀ id, policyOf (updatePoliciesMatchedEndpointIDs s1 m) id
           = updateMatchedEndpointIDs (epDataStore m) <$> policyOf m id)
  ∧ (∀ p, (∀ id, policyConfigs m !! id ≠ Some p) →
          heap (updatePoliciesMatchedEndpointIDs s1 m) !! p = heap m !! p).
Proof.
  intros Hs1 Hs2. split; [| split].
  - assert (Hheap : heap (updatePoliciesMatchedEndpointIDs s1 m)
                    = heap (updatePoliciesMatchedEndpointIDs s2 m)).
    { apply map_eq. intros p. rewrite !updatePoliciesMatchedEndpointIDs_lookup.
      destruct (decide (p ∈ range_values s1 (policyConfigs m))) as [Hin|Hnin].
      - rewrite decide_True; [done |].
        apply (elem_of_range_snd s2 Hs2). by apply (elem_of_range_snd s1 Hs1).
      - rewrite decide_False; [done |]. intros Hin. apply Hnin.
        apply (elem_of_range_snd s1 Hs1). by apply (elem_of_range_snd s2 Hs2). }
    unfold updatePoliciesMatchedEndpointIDs in *. msimpl. by rewrite Hheap.
  - intros id. unfold policyOf.
    change (policyConfigs (updatePoliciesMatchedEndpointIDs s1 m)) with (policyConfigs m).
    destruct (policyConfigs m !! id) as [p|] eqn:Hid; [| done]. cbn [mbind option_bind].
    rewrite updatePoliciesMatchedEndpointIDs_lookup, decide_True; [done |].
    apply (elem_of_range_snd s1 Hs1). eauto.
  - intros p Hp. rewrite updatePoliciesMatchedEndpointIDs_lookup, decide_False; [done |].
    intros [id Hid]%(elem_of_range_snd s1 Hs1). by apply (Hp id).
Qed.

Lemma updatePoliciesMatchedEndpointIDs_effect_witness :
  updatePoliciesMatchedEndpointIDs canonical Scenario.unsynced
  = updatePoliciesMatchedEndpointIDs backwards Scenario.unsynced.
Proof.
  apply (updatePoliciesMatchedEndpointIDs_effect canonical backwards Scenario.unsynced
           canonical_enumerates backwards_enumerates).
Defined.

(** X14: [regenerateGatewayConfigs] does not depend on the order in which
    [policyConfigs] is ranged over; it replaces the gateway configuration of
    every stored policy by the one computed from the policy and the node
    slice, and running it again changes nothing. *)
Theorem regenerateGatewayConfigs_effect (s1 s2 : Sched) (m : Manager) :
  enumerates s1 → enumerates s2 →
  regenerateGatewayConfigs s1 m = regenerateGatewayConfigs s2 m
  ∧ (∀ id, policyOf (regenerateGatewayConfigs s1 m) id
           = regenerateGatewayConfig m <$> policyOf m id)
  ∧ regenerateGatewayConfigs s2 (regenerateGatewayConfigs s1 m)
    = regenerateGatewayConfigs s1 m.
Proof.
  intros Hs1 Hs2. split; [| split].
  - assert (Hheap : heap (regenerateGatewayConfigs s1 m)
                    = heap (regenerateGatewayConfigs s2 m)).
    { apply map_eq. intros p. rewrite !regenerateGatewayConfigs_lookup.
      destruct (decide (p ∈ range_values s1 (policyConfigs m))) as [Hin|Hnin].
      - rewrite decide_True; [done |].
        apply (elem_of_range_snd s2 Hs2). by apply (elem_of_range_snd s1 Hs1).
      - rewrite decide_False; [done |]. intros Hin. apply Hnin.
        apply (elem_of_range_snd s1 Hs1). by apply (elem_of_range_snd s2 Hs2). }
    unfold regenerateGatewayConfigs in *. msimpl. by rewrite Hheap.
  - intros id. unfold policyOf.
    change (policyConfigs (regenerateGatewayConfigs s1 m)) with (policyConfigs m).
    destruct (policyConfigs m !! id) as [p|] eqn:Hid; [| done]. cbn [mbind option_bind].
    rewrite regenerateGatewayConfigs_lookup, decide_True; [done |].
    apply (elem_of_range_snd s1 Hs1). eauto.
  - apply (regenerateGatewayConfigs_current s2 Hs2).
    apply (regenerateGatewayConfigs_gatewaysCurrent s1 Hs1).
Qed.

Lemma regenerateGatewayConfigs_effect_witness :
  regenerateGatewayConfigs canonical Scenario.s2_before
  = regenerateGatewayConfigs backwards Scenario.s2_before.
Proof.
  apply (regenerateGatewayConfigs_effect canonical backwards Scenario.s2_before
           canonical_enumerates backwards_enumerates).
Defined.

(** ** The policy map part when writes fail *)

Lemma writeEntries_app (s : Sched) (c : list Call) (pm : PolicyMap) (es1 es2 : list Entry) :
  writeEntries s c pm (es1 ++ es2)
  = writeEntries s (c ++ ((λ e, PolicyMapUpdate e.1 e.2) <$> es1)) (writeEntries s c pm es1) es2.
Proof.
  revert c pm. induction es1 as [|e es1 IH]; intros c pm; cbn [app writeEntries fmap list_fmap].
  - by rewrite app_nil_r.
  - rewrite IH. by rewrite <- app_assoc.
Qed.

Lemma removeEntries_app (s : Sched) (c : list Call) (pm : PolicyMap) (es1 es2 : list Entry) :
  removeEntries s c pm (es1 ++ es2)
  = removeEntries s (c ++ ((λ e, PolicyMapDelete e.1) <$> es1)) (removeEntries s c pm es1) es2.
Proof.
  revert c pm. induction es1 as [|e es1 IH]; intros c pm; cbn [app removeEntries fmap list_fmap].
  - by rewrite app_nil_r.
  - rewrite IH. by rewrite <- app_assoc.
Qed.

(** Every key holds its old value or a value written for it. *)
Lemma writeEntries_lookup (s : Sched) (c : list Call) (pm : PolicyMap) (es : list Entry)
    (k : EgressPolicyKey4) :
  writeEntries s c pm es !! k = pm !! k
  ∨ ∃ v, (k, v) ∈ es ∧ writeEntries s c pm es !! k = Some v.
Proof.
  revert c pm. induction es as [|[k' v'] es IH]; intros c pm; cbn [writeEntries fst snd].
  - by left.
  - destruct (IH (c ++ [PolicyMapUpdate k' v'])
                (if callFails s c (PolicyMapUpdate k' v') then pm
                 else insertEntry pm (k', v'))) as [Heq|(v & Hin & Hv)].
    + rewrite Heq. destruct (callFails s c (PolicyMapUpdate k' v')); [by left |].
      unfold insertEntry. cbn [fst snd]. rewrite lookup_insert.
      case_decide as Hk; [| by left]. subst k'. right. exists v'. split; [by left | done].
    + right. exists v. split; [by right | done].
Qed.

(** Every key holds its old value or was deleted. *)
Lemma removeEntries_lookup (s : Sched) (c : list Call) (pm : PolicyMap) (es : list Entry)
    (k : EgressPolicyKey4) :
  removeEntries s c pm es !! k = pm !! k
  ∨ (k ∈ es.*1 ∧ removeEntries s c pm es !! k = None).
Proof.
  revert c pm. induction es as [|[k' v'] es IH]; intros c pm;
    cbn [removeEntries fst snd fmap list_fmap].
  - by left.
  - destruct (IH (c ++ [PolicyMapDelete k'])
                (if callFails s c (PolicyMapDelete k') then pm
                 else deleteEntry pm (k', v'))) as [Heq|[Hin Hv]].
    + rewrite Heq. destruct (callFails s c (PolicyMapDelete k')); [by left |].
      unfold deleteEntry. cbn [fst snd]. rewrite lookup_delete.
      case_decide as Hk; [| by left]. subst k'. right. split; [by left | done].
    + right. split; [by right | done].
Qed.

Section MapPartFailures.
Variable sched : Sched.

Lemma addEgressRule_step_any (snapshot pm : PolicyMap) (c : list Call) (m : Manager)
    (gwc : gatewayConfig) (t : IP * IPNet * bool) :
  addEgressRule sched snapshot t.1.1 t.1.2 t.2 gwc (set_calls c (set_policyMap pm m))
  = set_calls (c ++ ((λ e, PolicyMapUpdate e.1 e.2) <$> missing snapshot [entryOf gwc t]))
      (set_policyMap (writeEntries sched c pm (missing snapshot [entryOf gwc t])) m).
Proof.
  unfold addEgressRule, missing. rewrite filter_cons, filter_nil.
  cbn [entryOf fst snd].
  set (k := NewEgressPolicyKey4 t.1.1 t.1.2).
  set (gw := if t.2 then ExcludedCIDRIPv4 else gatewayIP gwc).
  destruct (decide (snapshot !! k ≠ Some (mkEgressPolicyVal4 (netIP (egressIP gwc)) gw)))
    as [Hne|Heq].
  - assert (Hmatch : match snapshot !! k with
                     | Some policyVal => val_Match policyVal (netIP (egressIP gwc)) gw
                     | None => false
                     end = false).
    { destruct (snapshot !! k) as [v|]; [| done].
      apply not_true_is_false. rewrite val_Match_eq. naive_solver. }
    rewrite Hmatch. unfold policyMap_Update. rewrite issue_eq.
    cbn [writeEntries fmap list_fmap fst snd]. msimpl.
    fold k. destruct (callFails sched c _); done.
  - apply dec_stable in Heq. rewrite Heq.
    rewrite (proj2 (val_Match_eq _ _ _) eq_refl). cbn [fmap list_fmap writeEntries].
    by rewrite app_nil_r.
Qed.

Lemma addEgressRule_fold_any (snapshot : PolicyMap) (m : Manager) (gwc : gatewayConfig)
    (ts : list (IP * IPNet * bool)) (c : list Call) (pm : PolicyMap) :
  foldl (λ s t, addEgressRule sched snapshot t.1.1 t.1.2 t.2 gwc s)
    (set_calls c (set_policyMap pm m)) ts
  = set_calls (c ++ ((λ e, PolicyMapUpdate e.1 e.2) <$> missing snapshot (entryOf gwc <$> ts)))
      (set_policyMap (writeEntries sched c pm (missing snapshot (entryOf gwc <$> ts))) m).
Proof.
  revert c pm. induction ts as [|t ts IH]; intros c pm; cbn [foldl].
  - cbn. by rewrite app_nil_r.
  - rewrite addEgressRule_step_any, IH.
    rewrite fmap_cons, (missing_cons snapshot (entryOf gwc t) (entryOf gwc <$> ts)).
    by rewrite fmap_app, writeEntries_app, app_assoc.
Qed.

Lemma addMissingEgressRules_fold_any (snapshot : PolicyMap) (m : Manager)
    (l : list positive) (c : list Call) (pm : PolicyMap) :
  let es := l ≫= (λ p, match heap m !! p with
                        | None => []
                        | Some P => entriesOf sched P
                        end) in
  foldl (λ m' p,
      match heap m' !! p with
      | None => m'
      | Some policyConfig =>
          forEachEndpointAndCIDR sched policyConfig (addEgressRule sched snapshot) m'
      end) (set_calls c (set_policyMap pm m)) l
  = set_calls (c ++ ((λ e, PolicyMapUpdate e.1 e.2) <$> missing snapshot es))
      (set_policyMap (writeEntries sched c pm (missing snapshot es)) m).
Proof.
  revert c pm. induction l as [|p l IH]; intros c pm; cbn [foldl mbind list_bind].
  - cbn. by rewrite app_nil_r.
  - cbn zeta in IH. msimpl. destruct (heap m !! p) as [P|].
    + rewrite forEachEndpointAndCIDR_fold, addEgressRule_fold_any, IH.
      rewrite missing_app, fmap_app, writeEntries_app, app_assoc. done.
    + rewrite IH. done.
Qed.

(** [addMissingEgressRules], whatever writes fail. *)
Lemma addMissingEgressRules_eq_any (m : Manager) :
  let es := missing (policyMap m) (allEntries sched m) in
  addMissingEgressRules sched m
  = set_calls (calls m ++ PolicyMapIterate :: ((λ e, PolicyMapUpdate e.1 e.2) <$> es))
      (set_policyMap (writeEntries sched (calls m ++ [PolicyMapIterate]) (policyMap m) es) m).
Proof.
  cbn zeta. rewrite addMissingEgressRules_unfold.
  replace (set_calls (calls m ++ [PolicyMapIterate]) m)
    with (set_calls (calls m ++ [PolicyMapIterate]) (set_policyMap (policyMap m) m))
    by (by destruct m).
  pose proof (addMissingEgressRules_fold_any (policyMap m) m
                (range_values sched (policyConfigs m))
                (calls m ++ [PolicyMapIterate]) (policyMap m)) as H.
  cbn zeta in H. etrans; [exact H |]. unfold allEntries, range_values.
  by rewrite <- app_assoc.
Qed.

Lemma policyMap_Delete_step_any (k : EgressPolicyKey4) (v : EgressPolicyVal4)
    (c : list Call) (pm : PolicyMap) (m : Manager) :
  (policyMap_Delete sched (keySourceIP k) (keyDestCIDR k) (set_calls c (set_policyMap pm m))).2
  = set_calls (c ++ [PolicyMapDelete k])
      (set_policyMap (removeEntries sched c pm [(k, v)]) m).
Proof.
  unfold policyMap_Delete. rewrite issue_eq. cbn [removeEntries fst snd]. msimpl.
  destruct k as [ip cidr]. cbn [keySourceIP keyDestCIDR]. unfold NewEgressPolicyKey4.
  destruct (callFails sched c _); done.
Qed.

Lemma removeUnusedEgressRules_fold_any (m : Manager) (es : list Entry)
    (c : list Call) (pm : PolicyMap) :
  foldl (λ m' '(policyKey, policyVal),
      if policyMatches sched m' (keySourceIP policyKey) (matchPolicy policyKey policyVal)
      then m'
      else (policyMap_Delete sched (keySourceIP policyKey) (keyDestCIDR policyKey) m').2)
    (set_calls c (set_policyMap pm m)) es
  = set_calls (c ++ ((λ e, PolicyMapDelete e.1) <$> unused sched m es))
      (set_policyMap (removeEntries sched c pm (unused sched m es)) m).
Proof.
  revert c pm. induction es as [|[k v] es IH]; intros c pm; cbn [foldl].
  - cbn. by rewrite app_nil_r.
  - unfold unused. rewrite filter_cons. cbn [fst snd]. fold (unused sched m es).
    change (policyMatches sched (set_calls c (set_policyMap pm m)))
      with (policyMatches sched m).
    destruct (policyMatches sched m (keySourceIP k) (matchPolicy k v)) eqn:Hmatch.
    + rewrite decide_False by done. apply IH.
    + rewrite decide_True by done. rewrite (policyMap_Delete_step_any k v), IH.
      cbn [fmap list_fmap removeEntries fst snd]. by rewrite <- app_assoc.
Qed.

(** [removeUnusedEgressRules], whatever writes fail. *)
Lemma removeUnusedEgressRules_eq_any (m : Manager) :
  let es := unused sched m (range sched (policyMap m)) in
  removeUnusedEgressRules sched m
  = set_calls (calls m ++ PolicyMapIterate :: ((λ e, PolicyMapDelete e.1) <$> es))
      (set_policyMap (removeEntries sched (calls m ++ [PolicyMapIterate]) (policyMap m) es) m).
Proof.
  cbn zeta.
  pose proof (removeUnusedEgressRules_fold_any m (range sched (policyMap m))
                (calls m ++ [PolicyMapIterate]) (policyMap m)) as H.
  rewrite <- app_assoc in H. cbn [app] in H. rewrite <- H.
  replace (set_calls (calls m ++ [PolicyMapIterate]) (set_policyMap (policyMap m) m))
    with (set_calls (calls m ++ [PolicyMapIterate]) m) by (by destruct m).
  reflexivity.
Qed.

Hypothesis sched_enumerates : enumerates sched.

(** X15: [addMissingEgressRules] whatever calls fail.  It reads the policy
    map once and then walks its visits (the stored policies in the order of
    the range, and for each the addresses of its matched endpoints with its
    destination and its excluded CIDRs); at every visit whose entry the map
    read does not hold it attempts an update, in that order, and it issues no
    other call.  The entries visited are the wanted ones; an entry that
    several visits ask for is attempted once per visit, and every entry is
    attempted at most once when no two visits ask for the same entry.
    Afterwards every key of the map holds the value it held before or a
    wanted value that the map read did not hold, and nothing but the policy
    map and the log of calls has changed. *)
Theorem addMissingEgressRules_any_failures (m : Manager) :
  let es := missing (policyMap m) (allEntries sched m) in
  ∃ pm,
    addMissingEgressRules sched m
    = set_calls (calls m ++ PolicyMapIterate :: ((λ e, PolicyMapUpdate e.1 e.2) <$> es))
        (set_policyMap pm m)
    ∧ (∀ k v, (k, v) ∈ allEntries sched m ↔ wanted m k v)
    ∧ (∀ k v, (k, v) ∈ es ↔ wanted m k v ∧ policyMap m !! k ≠ Some v)
    ∧ (NoDup (allEntries sched m) → NoDup es)
    ∧ (∀ k, pm !! k = policyMap m !! k
            ∨ ∃ v, pm !! k = Some v ∧ wanted m k v ∧ policyMap m !! k ≠ Some v).
Proof.
  intros es.
  assert (Hes : ∀ k v, (k, v) ∈ es ↔ wanted m k v ∧ policyMap m !! k ≠ Some v).
  { intros k v. unfold es, missing. rewrite list_elem_of_filter. cbn [fst snd].
    rewrite (elem_of_allEntries sched sched_enumerates). tauto. }
  exists (writeEntries sched (calls m ++ [PolicyMapIterate]) (policyMap m) es).
  split; [apply addMissingEgressRules_eq_any |].
  split; [apply (elem_of_allEntries sched sched_enumerates) |].
  split; [exact Hes |].
  split; [apply NoDup_filter |].
  intros k.
  destruct (writeEntries_lookup sched (calls m ++ [PolicyMapIterate]) (policyMap m) es k)
    as [Heq|(v & Hin & Hv)].
  - by left.
  - right. exists v. split; [done |]. by apply Hes.
Qed.

(** X16: [removeUnusedEgressRules] whatever calls fail.  With the index
    current it reads the policy map once and then attempts exactly one
    delete for every entry of the map read that no policy wants (the entries
    deleted have distinct keys), in the order of the range over the map read,
    and issues no other call; an entry that a policy wants is never deleted,
    the map only loses entries, and nothing but the policy map and the log
    of calls has changed. *)
Theorem removeUnusedEgressRules_any_failures (m : Manager) :
  indexCurrent m →
  let es := unused sched m (range sched (policyMap m)) in
  ∃ pm,
    removeUnusedEgressRules sched m
    = set_calls (calls m ++ PolicyMapIterate :: ((λ e, PolicyMapDelete e.1) <$> es))
        (set_policyMap pm m)
    ∧ (∀ k v, (k, v) ∈ es ↔ policyMap m !! k = Some v ∧ ¬ wanted m k v)
    ∧ NoDup es.*1
    ∧ (∀ k v, policyMap m !! k = Some v → wanted m k v → pm !! k = Some v)
    ∧ pm ⊆ policyMap m.
Proof.
  intros Hindex es.
  assert (Hes : ∀ k v, (k, v) ∈ es ↔ policyMap m !! k = Some v ∧ ¬ wanted m k v).
  { intros k v. unfold es, unused. rewrite list_elem_of_filter. cbn [fst snd].
    rewrite (elem_of_range sched sched_enumerates).
    rewrite <- (policyMatches_wanted sched sched_enumerates m k v Hindex).
    rewrite not_true_iff_false. tauto. }
  exists (removeEntries sched (calls m ++ [PolicyMapIterate]) (policyMap m) es).
  split; [apply removeUnusedEgressRules_eq_any |]. split; [exact Hes |]. split; [| split].
  - apply (sublist_NoDup _ (range sched (policyMap m)).*1).
    + rewrite (sched_enumerates _ _ _ _ (policyMap m)). apply NoDup_fst_map_to_list.
    + apply fmap_sublist, sublist_filter.
  - intros k v Hkv Hwanted.
    destruct (removeEntries_lookup sched (calls m ++ [PolicyMapIterate]) (policyMap m) es k)
      as [Heq|[Hin _]]; [by rewrite Heq |].
    apply list_elem_of_fmap in Hin as ([k' v'] & -> & Hin). cbn [fst] in *.
    apply Hes in Hin as [Hkv' Hnot]. rewrite Hkv in Hkv'. injection Hkv' as <-. done.
  - apply map_subseteq_spec. intros k v Hkv.
    destruct (removeEntries_lookup sched (calls m ++ [PolicyMapIterate]) (policyMap m) es k)
      as [Heq|[_ Hnone]]; [by rewrite <- Heq | by rewrite Hnone in Hkv].
Qed.

End MapPartFailures.

Lemma failing_enumerates : enumerates failing.
Proof. intros K ? ? V m. reflexivity. Qed.

(** X15 at two policies that ask for the same entry, with every call
    failing: the update is attempted once for each of them. *)
Lemma addMissingEgressRules_any_failures_witness :
  issued (addMissingEgressRules failing) Shared.before
  = [PolicyMapIterate;
     PolicyMapUpdate (mkEgressPolicyKey4 Scenario.podIP Scenario.net24)
       (mkEgressPolicyVal4 (IPv4 192 0 2 10) (IPv4 192 0 2 1));
     PolicyMapUpdate (mkEgressPolicyKey4 Scenario.podIP Scenario.net24)
       (mkEgressPolicyVal4 (IPv4 192 0 2 10) (IPv4 192 0 2 1))].
Proof.
  pose proof (addMissingEgressRules_any_failures failing failing_enumerates Shared.before)
    as H.
  cbv zeta in H. destruct H as (pm & Heq & _).
  unfold issued. rewrite Heq. cbn [calls set_calls]. rewrite drop_app_length.
  vm_compute. reflexivity.
Defined.

(** X16 at a policy map that holds the entry of a deleted policy, with
    every call failing: the delete is attempted once. *)
Lemma removeUnusedEgressRules_any_failures_witness :
  issued (removeUnusedEgressRules failing) Shared.orphaned
  = [PolicyMapIterate; PolicyMapDelete (mkEgressPolicyKey4 Scenario.podIP Scenario.net24)].
Proof.
  pose proof (removeUnusedEgressRules_any_failures failing failing_enumerates Shared.orphaned
                (updatePoliciesBySourceIP_current canonical canonical_enumerates _)) as H.
  cbv zeta in H. destruct H as (pm & Heq & _).
  unfold issued. rewrite Heq. cbn [calls set_calls]. rewrite drop_app_length.
  vm_compute. reflexivity.
Defined.

(** ** What the reconciler leaves alone *)

Lemma samePolicy_refl (P : PolicyConfig) : samePolicy P P.
Proof. by repeat split. Qed.

Lemma samePolicy_trans (P1 P2 P3 : PolicyConfig) :
  samePolicy P1 P2 → samePolicy P2 P3 → samePolicy P1 P3.
Proof.
  intros (H1 & H2 & H3 & H4 & H5) (H1' & H2' & H3' & H4' & H5').
  repeat split; congruence.
Qed.

Lemma samePolicies_refl (m : Manager) : samePolicies m m.
Proof. intros q. destruct (heap m !! q); [apply samePolicy_refl | done]. Qed.

Lemma samePolicies_trans (m1 m2 m3 : Manager) :
  samePolicies m1 m2 → samePolicies m2 m3 → samePolicies m1 m3.
Proof.
  intros H12 H23 q. specialize (H12 q). specialize (H23 q).
  destruct (heap m1 !! q), (heap m2 !! q), (heap m3 !! q); try done.
  by apply (samePolicy_trans _ p0).
Qed.

Lemma samePolicies_heap (m m' : Manager) : heap m' = heap m → samePolicies m m'.
Proof. intros Hheap q. rewrite Hheap. apply samePolicies_refl. Qed.

Lemma samePolicies_updatePoliciesMatchedEndpointIDs (s : Sched) (m : Manager) :
  samePolicies m (updatePoliciesMatchedEndpointIDs s m).
Proof.
  intros q. rewrite updatePoliciesMatchedEndpointIDs_lookup.
  destruct (heap m !! q) as [P|]; case_decide; cbn; by repeat split.
Qed.

Lemma samePolicies_regenerateGatewayConfigs (s : Sched) (m : Manager) :
  samePolicies m (regenerateGatewayConfigs s m).
Proof.
  intros q. rewrite regenerateGatewayConfigs_lookup.
  destruct (heap m !! q) as [P|]; case_decide; cbn; by repeat split.
Qed.

Lemma samePolicies_refreshIndexes (s : Sched) (m : Manager) :
  samePolicies m (regenerateGatewayConfigs s (refreshIndexes s m)).
Proof.
  apply (samePolicies_trans _ (refreshIndexes s m));
    [| apply samePolicies_regenerateGatewayConfigs].
  unfold refreshIndexes.
  set (m1 := if eventBitmapIsSet [eventUpdateEndpoint; eventDeleteEndpoint] m
             then updatePoliciesBySourceIP s (updatePoliciesMatchedEndpointIDs s m) else m).
  assert (H1 : samePolicies m m1).
  { subst m1. destruct (eventBitmapIsSet _ m); [| apply samePolicies_refl].
    apply (samePolicies_trans _ (updatePoliciesMatchedEndpointIDs s m));
      [apply samePolicies_updatePoliciesMatchedEndpointIDs | by apply samePolicies_heap]. }
  clearbody m1.
  set (m2 := if eventBitmapIsSet [eventAddPolicy; eventDeletePolicy] m1
             then updatePoliciesBySourceIP s m1 else m1).
  assert (H2 : samePolicies m1 m2).
  { subst m2. destruct (eventBitmapIsSet _ m1); [| apply samePolicies_refl].
    by apply samePolicies_heap. }
  clearbody m2.
  apply (samePolicies_trans _ m1); [done |]. apply (samePolicies_trans _ m2); [done |].
  destruct (eventBitmapIsSet _ m2); [| apply samePolicies_refl].
  apply (samePolicies_trans _ (updatePoliciesMatchedEndpointIDs s m2));
    [apply samePolicies_updatePoliciesMatchedEndpointIDs | by apply samePolicies_heap].
Qed.

(** X17: what a run of the reconciler leaves alone, whatever calls fail and
    whatever the order of the map iterations.  It changes neither the
    policies stored, nor the endpoint cache, nor the node store and slice,
    nor the pending endpoint events and their queue; it does not fire the
    trigger; of a policy object it changes at most the matched endpoints
    and the gateway configuration; it only appends to the log of calls; and
    a synchronized run ends with an empty events bitmap. *)
Theorem reconcileLocked_leaves_alone (env : Env) (s : Sched) (m : Manager) :
  let m' := reconcileLocked env s m in
  policyConfigs m' = policyConfigs m ∧ epDataStore m' = epDataStore m
  ∧ nodeDataStore m' = nodeDataStore m ∧ nodes m' = nodes m
  ∧ pendingEndpointEvents m' = pendingEndpointEvents m
  ∧ endpointEventsQueue m' = endpointEventsQueue m
  ∧ reconciliationTrigger m' = reconciliationTrigger m
  ∧ cacheStatus m' = cacheStatus m ∧ installRoutes m' = installRoutes m
  ∧ samePolicies m m'
  ∧ (∃ tr, calls m' = calls m ++ tr)
  ∧ (cacheStatus m = true → eventsBitmap m' = 0).
Proof.
  intros m'. subst m'. destruct (cacheStatus m) eqn:Hsync.
  - destruct (reconcileLocked_frame env s m Hsync) as (pm & h & c & Heq).
    assert (Hcalls : ∃ tr, calls (reconcileLocked env s m) = calls m ++ tr).
    { destruct (hostPhase_calls _ _ _ (hostPhase_reconcileRoutes env s
                  (regenerateGatewayConfigs s (refreshIndexes s m)))) as (tr1 & Htr1 & _).
      destruct (mapPhase_calls _ _ _ (mapPhase_addMissingEgressRules s
                  (reconcileRoutes env s (regenerateGatewayConfigs s (refreshIndexes s m)))))
        as (tr2 & Htr2 & _).
      destruct (mapPhase_calls _ _ _ (mapPhase_removeUnusedEgressRules s
                  (addMissingEgressRules s
                     (reconcileRoutes env s
                        (regenerateGatewayConfigs s (refreshIndexes s m))))))
        as (tr3 & Htr3 & _).
      exists (tr1 ++ tr2 ++ tr3).
      rewrite reconcileLocked_synchronized by done. msimpl. rewrite Htr3, Htr2, Htr1.
      change (calls (regenerateGatewayConfigs s (refreshIndexes s m)))
        with (calls (refreshIndexes s m)).
      rewrite (proj1 (calls_refreshIndexes s m)).
      by rewrite <- !app_assoc. }
    rewrite Heq in *. msimpl.
    assert (Hfields :
      policyConfigs (refreshIndexes s m) = policyConfigs m
      ∧ epDataStore (refreshIndexes s m) = epDataStore m
      ∧ nodeDataStore (refreshIndexes s m) = nodeDataStore m
      ∧ nodes (refreshIndexes s m) = nodes m
      ∧ pendingEndpointEvents (refreshIndexes s m) = pendingEndpointEvents m
      ∧ endpointEventsQueue (refreshIndexes s m) = endpointEventsQueue m
      ∧ reconciliationTrigger (refreshIndexes s m) = reconciliationTrigger m
      ∧ cacheStatus (refreshIndexes s m) = cacheStatus m
      ∧ installRoutes (refreshIndexes s m) = installRoutes m).
    { unfold refreshIndexes. repeat (destruct (eventBitmapIsSet _ _)); by repeat split. }
    destruct Hfields as (H1 & H2 & H3 & H4 & H5 & H6 & H7 & H8 & H9).
    change (policyConfigs (regenerateGatewayConfigs s (refreshIndexes s m)))
      with (policyConfigs (refreshIndexes s m)).
    change (epDataStore (regenerateGatewayConfigs s (refreshIndexes s m)))
      with (epDataStore (refreshIndexes s m)).
    change (nodeDataStore (regenerateGatewayConfigs s (refreshIndexes s m)))
      with (nodeDataStore (refreshIndexes s m)).
    change (nodes (regenerateGatewayConfigs s (refreshIndexes s m)))
      with (nodes (refreshIndexes s m)).
    change (pendingEndpointEvents (regenerateGatewayConfigs s (refreshIndexes s m)))
      with (pendingEndpointEvents (refreshIndexes s m)).
    change (endpointEventsQueue (regenerateGatewayConfigs s (refreshIndexes s m)))
      with (endpointEventsQueue (refreshIndexes s m)).
    change (reconciliationTrigger (regenerateGatewayConfigs s (refreshIndexes s m)))
      with (reconciliationTrigger (refreshIndexes s m)).
    change (cacheStatus (regenerateGatewayConfigs s (refreshIndexes s m)))
      with (cacheStatus (refreshIndexes s m)).
    change (installRoutes (regenerateGatewayConfigs s (refreshIndexes s m)))
      with (installRoutes (refreshIndexes s m)).
    rewrite H1, H2, H3, H4, H5, H6, H7, H8, H9.
    repeat (split; [done |]). split; [| split; [done | done]].
    apply (samePolicies_trans _ (regenerateGatewayConfigs s (refreshIndexes s m)));
      [apply samePolicies_refreshIndexes | by apply samePolicies_heap].
  - rewrite reconcileLocked_skip by done.
    repeat (split; [done |]). split; [apply samePolicies_refl |].
    split; [exists []; by rewrite app_nil_r | done].
Qed.

Lemma reconcileLocked_leaves_alone_witness :
  eventsBitmap (reconcileLocked Scenario.env failing Scenario.s2_before) = 0.
Proof.
  apply (reconcileLocked_leaves_alone Scenario.env failing Scenario.s2_before).
  vm_compute. reflexivity.
Defined.

(** ** The ip rules and routes *)

Lemma ruleAddFails_app (s : Sched) (c tr1 tr2 : list Call) :
  ruleAddFails s c (tr1 ++ tr2) = ruleAddFails s c tr1 || ruleAddFails s (c ++ tr1) tr2.
Proof.
  revert c. induction tr1 as [|call tr1 IH]; intros c; cbn [app ruleAddFails].
  - by rewrite app_nil_r.
  - rewrite IH, <- app_assoc, orb_assoc. done.
Qed.

Section IpRules.
Variable env : Env.
Variable sched : Sched.

Lemma addPhase_refl isRetry a : addPhase sched isRetry a a.
Proof.
  exists (host a.2), []. split; [| split; [constructor |]].
  - rewrite app_nil_r. by destruct a as [sr []].
  - cbn [ruleAddFails]. by rewrite andb_false_r, orb_false_r.
Qed.

Lemma addPhase_trans isRetry a b c :
  addPhase sched isRetry a b → addPhase sched isRetry b c → addPhase sched isRetry a c.
Proof.
  intros (h1 & tr1 & Hb & Hok1 & Hf1) (h2 & tr2 & Hc & Hok2 & Hf2).
  exists h2, (tr1 ++ tr2). split; [| split].
  - rewrite Hc, Hb. msimpl. by rewrite <- app_assoc.
  - by apply Forall_app.
  - rewrite Hf2, Hf1, Hb, ruleAddFails_app. msimpl.
    destruct a.1, isRetry, (ruleAddFails sched (calls a.2) tr1),
      (ruleAddFails sched (calls a.2 ++ tr1) tr2); done.
Qed.

Lemma addPhase_issue isRetry (c : Call) (sr : bool) (m : Manager) (h : Host) :
  isRouteTableGrowth c = true → isRuleAdd c = false →
  addPhase sched isRetry (sr, m) (sr, set_host h (issue sched c m).2)
  ∧ addPhase sched isRetry (sr, m) (sr, (issue sched c m).2).
Proof.
  intros Hc Hadd. split.
  - exists h, [c]. split; [done |]. split; [by repeat constructor |].
    cbn [ruleAddFails fst snd]. rewrite Hadd. cbn. by rewrite andb_false_r, orb_false_r.
  - exists (host m), [c]. split; [by destruct m |]. split; [by repeat constructor |].
    cbn [ruleAddFails fst snd]. rewrite Hadd. cbn. by rewrite andb_false_r, orb_false_r.
Qed.

Lemma addPhase_addMissingIpRulesAndRoutes isRetry (m : Manager) :
  addPhase sched isRetry (false, m) (addMissingIpRulesAndRoutes env sched isRetry m).
Proof.
  unfold addMissingIpRulesAndRoutes.
  destruct (negb (installRoutes m)); [apply addPhase_refl |].
  apply (foldl_preserves (addPhase sched isRetry));
    [apply addPhase_refl | apply addPhase_trans |].
  intros [sr m0] p _.
  destruct (heap m0 !! p) as [policyConfig|]; [| apply addPhase_refl].
  destruct (_ || _); [apply addPhase_refl |].
  unfold listEgressIpRulesForRoutingTable. rewrite issue_eq.
  set (table := egressGatewayRoutingTableIdx env (ifaceIndex (policyGatewayConfig policyConfig))).
  assert (Hlist : addPhase sched isRetry (sr, m0)
                    (sr, set_calls (calls m0 ++ [RuleListTable table]) m0)).
  { apply (addPhase_issue isRetry (RuleListTable table) sr m0 (host m0)); done. }
  destruct (negb (callFails sched (calls m0) (RuleListTable table))); [| exact Hlist].
  set (m1 := set_calls (calls m0 ++ [RuleListTable table]) m0) in *.
  set (ipRules := filter _ (hostRules (host m1))). clearbody ipRules m1.
  match goal with |- addPhase _ _ _ (let '(_, _) := ?y in _) =>
    assert (Hy : addPhase sched isRetry (sr, m1) y) end.
  { unfold forEachEndpointAndDestination.
    apply (foldl_preserves (addPhase sched isRetry));
      [apply addPhase_refl | apply addPhase_trans |].
    intros a ep _.
    apply (foldl_preserves (addPhase sched isRetry));
      [apply addPhase_refl | apply addPhase_trans |].
    intros a' ip _.
    apply (foldl_preserves (addPhase sched isRetry));
      [apply addPhase_refl | apply addPhase_trans |].
    intros [sr0 m2] cidr _.
    destruct (existsb _ ipRules); [apply addPhase_refl |].
    unfold netlink_RuleAdd. rewrite issue_eq.
    set (r := newEgressIpRule env ip cidr table).
    destruct (callFails sched (calls m2) (RuleAdd r)) eqn:Hfails; cbn [negb].
    - exists (host m2), [RuleAdd r]. cbn [fst snd ruleAddFails isRuleAdd].
      rewrite Hfails. split; [by destruct isRetry, m2 |]. split; [by repeat constructor |].
      destruct isRetry; cbn; by rewrite ?orb_false_r, ?orb_true_r.
    - eexists _, [RuleAdd r]. cbn [fst snd ruleAddFails isRuleAdd].
      rewrite Hfails. split; [reflexivity |]. split; [by repeat constructor |].
      cbn. by rewrite andb_false_r, orb_false_r. }
  match goal with |- addPhase _ _ _ (let '(_, _) := ?y in _) => destruct y as [sr2 m2] end.
  eapply addPhase_trans; [exact Hlist |]. eapply addPhase_trans; [exact Hy |].
  unfold addEgressIpRoutes. rewrite issue_eq.
  destruct (negb _).
  - apply (addPhase_issue isRetry (RouteReplace _ _) sr2 m2); done.
  - apply (addPhase_issue isRetry (RouteReplace _ _) sr2 m2 (host m2)); done.
Qed.

(** X18: when [addMissingIpRulesAndRoutes] asks for a retry.  It returns
    true exactly when it is not itself the retry and the addition of some ip
    rule failed; the retry pass never asks for another one.  Its calls list
    the rules of a routing table, add rules and replace routes: it deletes
    nothing and does not touch the policy map; with [installRoutes] off it
    issues no call at all. *)
Theorem addMissingIpRulesAndRoutes_shouldRetry (isRetry : bool) (m : Manager) :
  ∃ h tr,
    (addMissingIpRulesAndRoutes env sched isRetry m).2 = set_calls (calls m ++ tr) (set_host h m)
    ∧ Forall (λ c, isRouteTableGrowth c = true) tr
    ∧ (addMissingIpRulesAndRoutes env sched isRetry m).1
      = negb isRetry && ruleAddFails sched (calls m) tr
    ∧ (installRoutes m = false → tr = []).
Proof.
  destruct (installRoutes m) eqn:Hroutes.
  - destruct (addPhase_addMissingIpRulesAndRoutes isRetry m) as (h & tr & Heq & Hok & Hflag).
    exists h, tr. by repeat split.
  - exists (host m), []. unfold addMissingIpRulesAndRoutes. rewrite Hroutes. cbn [negb fst snd].
    rewrite app_nil_r. split; [by destruct m |]. split; [constructor |].
    split; [| done]. cbn. by rewrite andb_false_r.
Qed.

Lemma removeUnusedIpRules_fold (ipRules : list Rule) (m : Manager) :
  ∃ h,
    foldl (λ m ipRule,
      let matchFunc (endpointIP : IP) (dstCIDR : IPNet) (gwc : gatewayConfig) : bool :=
        if negb (installRoutes m) then false
        else if negb (localNodeConfiguredAsGateway gwc) then false
        else bool_decide (ruleDst ipRule = dstCIDR) in
      if policyMatchesMinusExcludedCIDRs env sched m (netIP (ruleSrc ipRule)) matchFunc then m
      else deleteIpRule sched ipRule m) m ipRules
    = set_calls (calls m ++ (RuleDel <$> unmatchedRules env sched m ipRules)) (set_host h m)
    ∧ hostRoutes h = hostRoutes (host m).
Proof.
  revert m. induction ipRules as [|r l IH]; intros m; cbn [foldl].
  - exists (host m). cbn. rewrite app_nil_r. split; [by destruct m | done].
  - cbv zeta.
    change (policyMatchesMinusExcludedCIDRs env sched m (netIP (ruleSrc r)) _)
      with (policyMatchesMinusExcludedCIDRs env sched m (netIP (ruleSrc r)) (ruleMatchFunc m r)).
    unfold unmatchedRules. rewrite filter_cons. fold (unmatchedRules env sched m l).
    destruct (policyMatchesMinusExcludedCIDRs env sched m (netIP (ruleSrc r))
                (ruleMatchFunc m r)) eqn:Hmatch.
    + rewrite decide_False by done. apply IH.
    + rewrite decide_True by done.
      assert (Hdel : ∃ h1, deleteIpRule sched r m
                           = set_calls (calls m ++ [RuleDel r]) (set_host h1 m)
                           ∧ hostRoutes h1 = hostRoutes (host m)).
      { unfold deleteIpRule. rewrite issue_eq. destruct (negb _).
        - by eexists.
        - exists (host m). by destruct m. }
      destruct Hdel as (h1 & -> & Hh1).
      destruct (IH (set_calls (calls m ++ [RuleDel r]) (set_host h1 m))) as (h & Heq & Hh).
      exists h. split; [| by rewrite Hh].
      etrans; [exact Heq |]. msimpl. rewrite <- app_assoc. done.
Qed.

Lemma removeUnusedIpRoutes_fold (active : gset Z) (routes : list Route) (m : Manager) :
  ∃ h,
    foldl (λ m route,
      let linkIndex := routeLinkIndex route in
      if bool_decide (routeTable route ≠ egressGatewayRoutingTableIdx env linkIndex) then m
      else if bool_decide (linkIndex ∈ active) then m
      else deleteIpRoute sched route m) m routes
    = set_calls (calls m ++ (RouteDel <$> staleRoutes env active routes)) (set_host h m).
Proof.
  revert m. induction routes as [|rt l IH]; intros m; cbn [foldl].
  - exists (host m). cbn. rewrite app_nil_r. by destruct m.
  - cbv zeta. unfold staleRoutes. rewrite filter_cons. fold (staleRoutes env active l).
    case_bool_decide as Htable.
    { rewrite decide_False by tauto. apply IH. }
    case_bool_decide as Hactive.
    { rewrite decide_False by tauto. apply IH. }
    rewrite decide_True by done.
    assert (Hdel : ∃ h1, deleteIpRoute sched rt m
                         = set_calls (calls m ++ [RouteDel rt]) (set_host h1 m)).
    { unfold deleteIpRoute. rewrite issue_eq. destruct (negb _).
      - by eexists.
      - exists (host m). by destruct m. }
    destruct Hdel as (h1 & ->).
    destruct (IH (set_calls (calls m ++ [RouteDel rt]) (set_host h1 m))) as (h & Heq).
    exists h. etrans; [exact Heq |]. msimpl. rewrite <- app_assoc. done.
Qed.

(** The calls of [removeUnusedIpRulesAndRoutes]. *)
Lemma removeUnusedIpRulesAndRoutes_calls (m : Manager) :
  let rules := filter (λ r, isEgressRule env r = true) (hostRules (host m)) in
  let dels := RuleDel <$> unmatchedRules env sched m rules in
  calls (removeUnusedIpRulesAndRoutes env sched m)
  = calls m ++ RuleList ::
      (if callFails sched (calls m) RuleList then []
       else dels ++ RouteList ::
              (if callFails sched (calls m ++ RuleList :: dels) RouteList then []
               else RouteDel <$> staleRoutes env (activeEgressGwIfaceIndexes sched m)
                                   (hostRoutes (host m)))).
Proof.
  cbv zeta. unfold removeUnusedIpRulesAndRoutes, listEgressIpRules. rewrite issue_eq.
  destruct (callFails sched (calls m) RuleList); cbn [negb]; [done |].
  destruct (removeUnusedIpRules_fold
              (filter (λ r, isEgressRule env r = true)
                 (hostRules (host (set_calls (calls m ++ [RuleList]) m))))
              (set_calls (calls m ++ [RuleList]) m)) as (h & Heq & Hh).
  match goal with |- context [foldl ?f (set_calls ?c m) ?l] =>
    assert (Heq' : foldl f (set_calls c m) l
                   = set_calls (calls (set_calls c m)
                                ++ (RuleDel <$> unmatchedRules env sched (set_calls c m) l))
                       (set_host h (set_calls c m)))
      by exact Heq;
    rewrite !Heq'; clear Heq Heq' end.
  msimpl.
  change (unmatchedRules env sched (set_calls (calls m ++ [RuleList]) m))
    with (unmatchedRules env sched m).
  set (dels := RuleDel <$> unmatchedRules env sched m _).
  set (m2 := set_calls _ (set_host h _)).
  match goal with |- context [foldl ?f ∅ ?l] =>
    change (foldl f ∅ l) with (activeEgressGwIfaceIndexes sched m) end.
  assert (Hm2 : calls m2 = calls m ++ RuleList :: dels).
  { unfold m2. msimpl. by rewrite <- app_assoc. }
  assert (Hroutes2 : hostRoutes (host m2) = hostRoutes (host m)) by exact Hh.
  clearbody m2.
  unfold netlink_RouteList. rewrite issue_eq, <- Hm2.
  destruct (callFails sched (calls m2) RouteList); cbn [negb].
  - msimpl. rewrite Hm2. by rewrite <- app_assoc.
  - destruct (removeUnusedIpRoutes_fold (activeEgressGwIfaceIndexes sched m)
                (hostRoutes (host (set_calls (calls m2 ++ [RouteList]) m2)))
                (set_calls (calls m2 ++ [RouteList]) m2)) as (h' & Heq).
    etrans; [exact (f_equal calls Heq) |]. msimpl.
    rewrite Hm2, Hroutes2. rewrite <- !app_assoc. done.
Qed.

End IpRules.

Lemma ruleMatchFunc_true (m : Manager) (r : Rule) (ip : IP) (cidr : IPNet)
    (gwc : gatewayConfig) :
  ruleMatchFunc m r ip cidr gwc = true ↔
  installRoutes m = true ∧ localNodeConfiguredAsGateway gwc = true ∧ ruleDst r = cidr.
Proof.
  unfold ruleMatchFunc.
  destruct (installRoutes m), (localNodeConfiguredAsGateway gwc); cbn [negb];
    rewrite ?bool_decide_eq_true; intuition congruence.
Qed.

Lemma issued_calls (f : Manager → Manager) (m : Manager) (tr : list Call) :
  calls (f m) = calls m ++ tr → issued f m = tr.
Proof. intros Heq. unfold issued. by rewrite Heq, drop_app_length. Qed.

Section IpRulesSpec.
Variable env : Env.
Variable sched : Sched.
Hypothesis sched_enumerates : enumerates sched.


Lemma elem_of_unmatchedRules (m : Manager) (rules : list Rule) (r : Rule) :
  indexCurrent m →
  r ∈ unmatchedRules env sched m rules ↔
  r ∈ rules
  ∧ ¬ (installRoutes m = true
       ∧ ∃ p P id ep,
           policyAt m p P ∧ localNodeConfiguredAsGateway (policyGatewayConfig P) = true
           ∧ matchedEndpoints P !! id = Some ep ∧ netIP (ruleSrc r) ∈ epIPs ep
           ∧ ruleDst r ∈ destinationMinusExcludedCIDRs env (dstCIDRs P) (excludedCIDRs P)).
Proof.
  intros Hindex. unfold unmatchedRules. rewrite list_elem_of_filter.
  rewrite <- not_true_iff_false,
    (policyMatchesMinusExcludedCIDRs_index env sched sched_enumerates).
  split; [intros [Hnot Hin]; split; [done |] | intros [Hin Hnot]; split; [| done]];
    intros Hmatch; apply Hnot.
  - destruct Hmatch as (Hroutes & p & P & id & ep & Hat & Hlocal & Hid & Hip & Hdst).
    exists p, P, id, ep, (ruleDst r).
    destruct (proj2 (indexCurrent_lookup m (netIP (ruleSrc r)) p P id ep Hindex))
      as (? & ? & ? & ?); [done |].
    repeat split; try done. by apply ruleMatchFunc_true.
  - destruct Hmatch as (p & P & id & ep & cidr & Hp & Hheap & Hid & Hip & Hc & Hf).
    apply ruleMatchFunc_true in Hf as (Hroutes & Hlocal & <-).
    split; [done |]. exists p, P, id, ep.
    destruct (proj1 (indexCurrent_lookup m (netIP (ruleSrc r)) p P id ep Hindex))
      as (? & ? & ?); done.
Qed.



End IpRulesSpec.



(** ** The first run after the synchronization *)

(** X21: the run of the reconciler that follows the synchronization of the
    cache rebuilds everything, whatever the manager held before: afterwards
    the matched endpoints of every policy are the endpoints of the cache it
    selects, the index by source address and the gateway configurations are
    current, and the events bitmap is empty. *)
Theorem k8sSyncDone_reconcileLocked (env : Env) (s : Sched) (m : Manager) :
  enumerates s →
  let m' := reconcileLocked env s (k8sSyncDone m) in
  cacheStatus m' = true ∧ eventsBitmap m' = 0
  ∧ matchedCurrent m' ∧ indexCurrent m' ∧ gatewaysCurrent m'.
Proof.
  intros Hs m'. subst m'.
  assert (Hsync : cacheStatus (k8sSyncDone m) = true) by reflexivity.
  assert (Hbits : eventsBitmap (k8sSyncDone m) = Z.lor (eventsBitmap m) eventK8sSyncDone)
    by reflexivity.
  assert (Hmatched : matchedInv (k8sSyncDone m)).
  { by apply (matchedInv_pending _ (eventsBitmap m) eventK8sSyncDone);
      [| | right; right; left]. }
  assert (Hindex : indexInv (k8sSyncDone m)).
  { apply (indexInv_pending _ (eventsBitmap m) eventK8sSyncDone); [done | done |].
    rewrite !elem_of_cons. tauto. }
  clear Hbits. revert Hsync Hmatched Hindex. generalize (k8sSyncDone m).
  clear m. intros m Hsync Hmatched Hindex.
  split; [| split; [| split; [by apply reconcileLocked_matchedCurrent |]]].
  - destruct (reconcileLocked_frame env s _ Hsync) as (pm & h & c & ->). msimpl.
    by rewrite (proj1 (cacheStatus_refreshIndexes s m)).
  - destruct (reconcileLocked_frame env s _ Hsync) as (pm & h & c & ->). done.
  - destruct (reconcileLocked_frame env s _ Hsync) as (pm & h & c & ->). split.
    + exact (regenerateGatewayConfigs_indexCurrent s Hs _
               (refreshIndexes_indexCurrent s Hs _ Hindex)).
    + exact (regenerateGatewayConfigs_gatewaysCurrent s Hs (refreshIndexes s m)).
Qed.

Lemma k8sSyncDone_reconcileLocked_witness :
  cacheStatus Scenario.s2_after = true ∧ eventsBitmap Scenario.s2_after = 0
  ∧ matchedCurrent Scenario.s2_after ∧ indexCurrent Scenario.s2_after
  ∧ gatewaysCurrent Scenario.s2_after.
Proof.
  apply (k8sSyncDone_reconcileLocked Scenario.env canonical Scenario.unsynced
           canonical_enumerates).
Defined.

(** ** A second run *)

(** X23: a second synchronized run of the reconciler recomputes nothing in
    the manager: whatever calls fail and whatever the order of the map
    iterations, it leaves the policy objects, the index and the events bitmap
    of the first run as they are and differs from it at most in the policy
    map, the host tables and the log of calls. *)
Theorem reconcileLocked_twice (env : Env) (s1 s2 : Sched) (m : Manager) :
  enumerates s1 → enumerates s2 → cacheStatus m = true →
  ∃ pm h c,
    reconcileLocked env s2 (reconcileLocked env s1 m)
    = set_calls c (set_policyMap pm (set_host h (reconcileLocked env s1 m))).
Proof.
  intros Hs1 Hs2 Hsync.
  assert (H1 : cacheStatus (reconcileLocked env s1 m) = true
               ∧ eventsBitmap (reconcileLocked env s1 m) = 0
               ∧ gatewaysCurrent (reconcileLocked env s1 m)).
  { destruct (reconcileLocked_frame env s1 m Hsync) as (pm & h & c & ->). msimpl.
    split; [by rewrite (proj1 (cacheStatus_refreshIndexes s1 m)) |]. split; [done |].
    exact (regenerateGatewayConfigs_gatewaysCurrent s1 Hs1 (refreshIndexes s1 m)). }
  destruct H1 as (Hsync1 & Hbits1 & Hgw1).
  destruct (reconcileLocked_frame env s2 _ Hsync1) as (pm & h & c & ->).
  rewrite (refreshIndexes_idle s2 _ Hbits1).
  rewrite (regenerateGatewayConfigs_current s2 Hs2 _ Hgw1).
  exists pm, h, c. revert Hbits1. generalize (reconcileLocked env s1 m).
  intros m1 Hbits1. destruct m1. cbn in Hbits1. by subst.
Qed.

Lemma reconcileLocked_twice_witness :
  ∃ pm h c,
    reconcileLocked Scenario.env backwards (reconcileLocked Scenario.env canonical
                                              Scenario.s2_before)
    = set_calls c (set_policyMap pm (set_host h
        (reconcileLocked Scenario.env canonical Scenario.s2_before))).
Proof.
  apply (reconcileLocked_twice Scenario.env canonical backwards Scenario.s2_before
           canonical_enumerates backwards_enumerates).
  vm_compute. reflexivity.
Defined.

(** ** The worker when no handler interrupts it *)

Section Worker.
Variable env : Env.

Lemma reachable_processCiliumEndpoints_item (id : endpointID) (m : Manager) :
  reachable env m →
  ∃ m', processCiliumEndpoints_item id m = Ok m' ∧ reachable env m'.
Proof.
  intros Hreach.
  pose proof (processCiliumEndpoints_item_safe id m
                (reachable_pendingUpdatesHoldEndpoint env m Hreach)) as Hsafe.
  unfold processCiliumEndpoints_item in *.
  destruct (pendingEndpointEvents m !! id) as [epEvent|].
  - destruct (bool_decide (evType epEvent = eventUpdateEndpoint)).
    + destruct (addEndpoint id m) as [m1|] eqn:Hadd; [| done].
      eexists. split; [reflexivity |].
      by apply reach_queue, (reach_addEndpoint env m id m1).
    + destruct (bool_decide (evType epEvent = eventDeleteEndpoint)).
      * eexists. split; [reflexivity |]. by apply reach_queue, reach_deleteEndpoint.
      * eexists. split; [reflexivity |]. by apply reach_queue.
  - eexists. split; [reflexivity |]. by apply reach_queue.
Qed.

Lemma run_idle_empty (m : Manager) (n : nat) :
  queue_Get (endpointEventsQueue m) = None →
  run (replicate n ActWorker) (mkSystem m WIdle) = Ok (mkSystem m WIdle).
Proof.
  intros Hget. induction n as [|n IH]; cbn [replicate run act]; [done |].
  unfold workerStep. cbn [sysManager sysWorker]. by rewrite Hget.
Qed.

(** X22: an iteration of the worker that no endpoint handler interrupts
    never dereferences a nil endpoint: from every state of the manager, with
    the worker idle, four steps of the worker (take an id from the queue,
    read its pending event, handle it, mark it done) succeed and leave the
    worker idle in a state of the manager. *)
Theorem worker_iteration_uninterrupted (m : Manager) :
  reachable env m →
  ∃ m', run [ActWorker; ActWorker; ActWorker; ActWorker] (mkSystem m WIdle)
        = Ok (mkSystem m' WIdle)
        ∧ reachable env m'.
Proof.
  intros Hreach.
  destruct (queue_Get (endpointEventsQueue m)) as [[id q]|] eqn:Hget.
  - change (run [ActWorker; ActWorker; ActWorker; ActWorker] (mkSystem m WIdle))
      with (match workerStep (mkSystem m WIdle) with
            | Panic => Panic
            | Ok s => run [ActWorker; ActWorker; ActWorker] s
            end).
    unfold workerStep at 1. cbn [sysManager sysWorker]. rewrite Hget.
    rewrite run_worker_item.
    destruct (reachable_processCiliumEndpoints_item id (set_endpointEventsQueue q m))
      as (m' & -> & Hm'); [by apply reach_queue |].
    by exists m'.
  - exists m. split; [| done]. by apply (run_idle_empty m 4).
Qed.

End Worker.

Lemma worker_iteration_uninterrupted_witness :
  ∃ m', run [ActWorker; ActWorker; ActWorker; ActWorker]
          (mkSystem (OnUpdateEndpoint Scenario.pod Scenario.new) WIdle)
        = Ok (mkSystem m' WIdle)
        ∧ reachable Scenario.env m'.
Proof.
  apply (worker_iteration_uninterrupted Scenario.env).
  apply reach_OnUpdateEndpoint, reach_new.
Defined.

(** ** The ip rules added *)

Lemma foldl_preserves_inv {A B} (I : A → Prop) (R : A → A → Prop) (f : A → B → A)
    (l : list B) (a : A) :
  (∀ a, R a a) → (∀ a b c, R a b → R b c → R a c) →
  (∀ a b, I a → R a b → I b) →
  (∀ a x, x ∈ l → I a → R a (f a x)) → I a → R a (foldl f a l).
Proof.
  intros Hrefl Htrans Hinv. revert a.
  induction l as [|x l IH]; intros a Hstep Ha; cbn [foldl]; [apply Hrefl |].
  assert (Hx : R a (f a x)) by (apply Hstep; [by left | done]).
  apply (Htrans _ (f a x)); [done |].
  apply IH; [| by apply (Hinv a)]. intros a' y Hy. apply Hstep. by right.
Qed.

Lemma hostPhaseP_refl ok a : hostPhaseP ok a a.
Proof.
  exists (host a.2), []. split; [constructor |]. rewrite app_nil_r. by destruct a as [sr []].
Qed.

Lemma hostPhaseP_trans ok a b c : hostPhaseP ok a b → hostPhaseP ok b c → hostPhaseP ok a c.
Proof.
  intros (h1 & tr1 & Hok1 & Hb) (h2 & tr2 & Hok2 & Hc).
  exists h2, (tr1 ++ tr2). split; [by apply Forall_app |].
  rewrite Hc, Hb. msimpl. by rewrite <- app_assoc.
Qed.

Section IpRulesAdded.
Variable env : Env.
Variable sched : Sched.
Hypothesis sched_enumerates : enumerates sched.

Lemma hostPhaseP_issue (ok : Call → Prop) (c : Call) (sr sr' : bool) (m : Manager) (h : Host) :
  ok c →
  hostPhaseP ok (sr, m) (sr', set_host h (issue sched c m).2)
  ∧ hostPhaseP ok (sr, m) (sr', (issue sched c m).2).
Proof.
  intros Hc. split.
  - exists h, [c]. split; [by repeat constructor | done].
  - exists (host m), [c]. split; [by repeat constructor | by destruct m].
Qed.

Lemma hostPhaseP_addMissingIpRulesAndRoutes (isRetry : bool) (m : Manager) :
  hostPhaseP (wantedCall env m) (false, m) (addMissingIpRulesAndRoutes env sched isRetry m).
Proof.
  unfold addMissingIpRulesAndRoutes.
  destruct (negb (installRoutes m)); [apply hostPhaseP_refl |].
  apply (foldl_preserves_inv
           (λ a, policyConfigs a.2 = policyConfigs m ∧ heap a.2 = heap m)
           (hostPhaseP (wantedCall env m)));
    [apply hostPhaseP_refl | apply hostPhaseP_trans | | | done].
  { intros a b [Hpc Hheap] (h & tr & _ & ->). done. }
  intros [sr m0] p Hp [Hpc Hheap]. cbn [fst snd] in Hpc, Hheap.
  apply (elem_of_range_values sched sched_enumerates) in Hp as [pid Hpid].
  destruct (heap m0 !! p) as [policyConfig|] eqn:Hheap0; [| apply hostPhaseP_refl].
  destruct (localNodeConfiguredAsGateway (policyGatewayConfig policyConfig)) eqn:Hlocal;
    cbn [negb orb]; [| apply hostPhaseP_refl].
  case_bool_decide as Hsize; [apply hostPhaseP_refl |].
  assert (Hat : policyAt m p policyConfig).
  { split; [by exists pid |]. by rewrite <- Hheap. }
  unfold listEgressIpRulesForRoutingTable. rewrite issue_eq.
  set (table := egressGatewayRoutingTableIdx env (ifaceIndex (policyGatewayConfig policyConfig))).
  assert (Hlist : hostPhaseP (wantedCall env m) (sr, m0)
                    (sr, set_calls (calls m0 ++ [RuleListTable table]) m0)).
  { apply (hostPhaseP_issue _ (RuleListTable table) sr sr m0 (host m0)).
    by exists p, policyConfig. }
  destruct (negb (callFails sched (calls m0) (RuleListTable table))); [| exact Hlist].
  set (m1 := set_calls (calls m0 ++ [RuleListTable table]) m0) in *.
  set (ipRules := filter _ (hostRules (host m1))). clearbody ipRules m1.
  match goal with |- hostPhaseP _ _ (let '(_, _) := ?y in _) =>
    assert (Hy : hostPhaseP (wantedCall env m) (sr, m1) y) end.
  { unfold forEachEndpointAndDestination.
    apply (foldl_preserves (hostPhaseP (wantedCall env m)));
      [apply hostPhaseP_refl | apply hostPhaseP_trans |].
    intros a ep [id Hid]%(elem_of_range_values sched sched_enumerates).
    apply (foldl_preserves (hostPhaseP (wantedCall env m)));
      [apply hostPhaseP_refl | apply hostPhaseP_trans |].
    intros a' ip Hip.
    apply (foldl_preserves (hostPhaseP (wantedCall env m)));
      [apply hostPhaseP_refl | apply hostPhaseP_trans |].
    intros [sr0 m2] cidr Hcidr.
    destruct (existsb _ ipRules); [apply hostPhaseP_refl |].
    unfold netlink_RuleAdd. rewrite issue_eq.
    assert (Hwanted : wantedCall env m (RuleAdd (newEgressIpRule env ip cidr table))).
    { exists p, policyConfig. split; [done |]. split; [done |]. split; [done |].
      by exists id, ep, ip, cidr. }
    destruct (negb _).
    - by apply (hostPhaseP_issue _ (RuleAdd _) sr0 sr0 m2).
    - destruct isRetry; by apply (hostPhaseP_issue _ (RuleAdd _) sr0 _ m2 (host m2)). }
  match goal with |- hostPhaseP _ _ (let '(_, _) := ?y in _) => destruct y as [sr2 m2] end.
  eapply hostPhaseP_trans; [exact Hlist |]. eapply hostPhaseP_trans; [exact Hy |].
  unfold addEgressIpRoutes. rewrite issue_eq.
  assert (Hwanted : wantedCall env m
                      (RouteReplace (egressIP (policyGatewayConfig policyConfig))
                         (ifaceIndex (policyGatewayConfig policyConfig)))).
  { by exists p, policyConfig. }
  destruct (negb _).
  - by apply (hostPhaseP_issue _ (RouteReplace _ _) sr2 sr2 m2).
  - by apply (hostPhaseP_issue _ (RouteReplace _ _) sr2 sr2 m2 (host m2)).
Qed.

(** X24: [addMissingIpRulesAndRoutes] adds nothing that no policy asks
    for.  Every call it issues is asked for by a stored policy that has the
    local node as gateway and at least one matched endpoint: it lists the ip
    rules of the routing table of the interface of the policy, adds an ip
    rule of the egress gateway from an address of a matched endpoint to an
    effective destination of the policy in that table, or replaces the
    routes of the egress address and interface of the policy. *)
Theorem addMissingIpRulesAndRoutes_wanted (isRetry : bool) (m : Manager) :
  ∀ c, c ∈ issued (λ m, (addMissingIpRulesAndRoutes env sched isRetry m).2) m →
       wantedCall env m c.
Proof.
  intros c.
  destruct (hostPhaseP_addMissingIpRulesAndRoutes isRetry m) as (h & tr & Hok & Heq).
  cbn [fst snd] in Heq.
  rewrite (issued_calls (λ m, (addMissingIpRulesAndRoutes env sched isRetry m).2) m tr)
    by (by rewrite Heq).
  rewrite Forall_forall in Hok. apply Hok.
Qed.

(** X25: the removal pass does not undo the addition pass.  With the index
    current, an ip rule that [addMissingIpRulesAndRoutes] has just added is
    not deleted by the [removeUnusedIpRulesAndRoutes] that follows it. *)
Theorem removeUnusedIpRulesAndRoutes_keeps_added (isRetry : bool) (m : Manager) :
  indexCurrent m →
  ∀ r, RuleAdd r ∈ issued (λ m, (addMissingIpRulesAndRoutes env sched isRetry m).2) m →
       RuleDel r ∉ issued (removeUnusedIpRulesAndRoutes env sched)
                     (addMissingIpRulesAndRoutes env sched isRetry m).2.
Proof.
  intros Hindex r Hadd Hdel.
  destruct (hostPhaseP_addMissingIpRulesAndRoutes isRetry m) as (h & tr & Hok & Heq).
  cbn [fst snd] in Heq.
  rewrite (issued_calls (λ m, (addMissingIpRulesAndRoutes env sched isRetry m).2) m tr)
    in Hadd by (by rewrite Heq).
  assert (Hroutes : installRoutes m = true).
  { destruct (installRoutes m) eqn:Hoff; [done |].
    unfold addMissingIpRulesAndRoutes in Heq. rewrite Hoff in Heq. cbn [negb snd] in Heq.
    apply (f_equal calls) in Heq. msimpl.
    rewrite <- (app_nil_r (calls m)) in Heq at 1. apply app_inv_head in Heq. subst tr.
    by apply elem_of_nil in Hadd. }
  rewrite Forall_forall in Hok.
  destruct (Hok _ Hadd) as (p & P & Hat & Hlocal & Hsize & id & ep & ip & cidr
                            & Hid & Hip & Hcidr & ->).
  rewrite Heq in Hdel. clear Heq Hok Hadd.
  pose proof (removeUnusedIpRulesAndRoutes_calls env sched
                (set_calls (calls m ++ tr) (set_host h m))) as Hcalls.
  cbv zeta in Hcalls. apply issued_calls in Hcalls. rewrite Hcalls in Hdel. clear Hcalls.
  assert (Hin : RuleDel (mkRule (RulePriorityEgressGateway env) (mkIPNet ip 32) cidr
                   (egressGatewayRoutingTableIdx env (ifaceIndex (policyGatewayConfig P))))
                ∈ (RuleDel <$> unmatchedRules env sched (set_calls (calls m ++ tr) (set_host h m))
                     (filter (λ r, isEgressRule env r = true)
                        (hostRules (host (set_calls (calls m ++ tr) (set_host h m))))))).
  { apply elem_of_cons in Hdel as [Heq|Hdel]; [done |].
    destruct (callFails sched _ RuleList); [by apply elem_of_nil in Hdel |].
    apply elem_of_app in Hdel as [Hdel|Hdel]; [done |].
    apply elem_of_cons in Hdel as [Heq|Hdel]; [done |].
    destruct (callFails sched _ RouteList); [by apply elem_of_nil in Hdel |].
    apply list_elem_of_fmap in Hdel as (rt & Heq & _). done. }
  apply list_elem_of_fmap in Hin as (r' & [= <-] & Hin).
  apply (elem_of_unmatchedRules env sched sched_enumerates) in Hin as [_ Hnot];
    [| exact Hindex].
  apply Hnot. split; [exact Hroutes |]. by exists p, P, id, ep.
Qed.

End IpRulesAdded.

Lemma routed_indexCurrent : indexCurrent Routed.before.
Proof. apply (updatePoliciesBySourceIP_current canonical canonical_enumerates). Qed.

Lemma routed_added :
  RuleAdd Routed.rule
  ∈ issued (λ m, (addMissingIpRulesAndRoutes Scenario.env canonical false m).2) Routed.before.
Proof. vm_compute. right. left. Qed.

Lemma addMissingIpRulesAndRoutes_wanted_witness :
  wantedCall Scenario.env Routed.before (RuleAdd Routed.rule).
Proof.
  apply (addMissingIpRulesAndRoutes_wanted Scenario.env canonical canonical_enumerates false
           Routed.before).
  exact routed_added.
Defined.

Lemma removeUnusedIpRulesAndRoutes_keeps_added_witness :
  indexCurrent Routed.before
  ∧ RuleDel Routed.rule
    ∉ issued (removeUnusedIpRulesAndRoutes Scenario.env canonical)
        (addMissingIpRulesAndRoutes Scenario.env canonical false Routed.before).2.
Proof.
  split; [exact routed_indexCurrent |].
  apply (removeUnusedIpRulesAndRoutes_keeps_added Scenario.env canonical canonical_enumerates
           false Routed.before routed_indexCurrent).
  exact routed_added.
Defined.

(** ** Routes not to be installed: what a run does *)

Section RoutesDisabled.
Variable env : Env.
Variable sched : Sched.

(** C4, as the code has it: with [installRoutes] off a run of
    [reconcileLocked] adds no ip rule and no ip route.  A run before the
    cache is synchronized issues no call.  A synchronized run first lists
    the ip rules of the egress gateway; when the listing succeeds it deletes
    every one of them that the host has, and when the listing fails it
    issues no further call but those to the policy map. *)
Theorem reconcileLocked_routes_disabled (m : Manager) :
  installRoutes m = false →
  Forall (λ c, isRouteTableAdd c = false) (issued (reconcileLocked env sched) m)
  ∧ (cacheStatus m = false → issued (reconcileLocked env sched) m = [])
  ∧ (cacheStatus m = true →
     ∃ tr, issued (reconcileLocked env sched) m = RuleList :: tr
       ∧ (callFails sched (calls m) RuleList = false →
          ∀ r, r ∈ hostRules (host m) → isEgressRule env r = true → RuleDel r ∈ tr)
       ∧ (callFails sched (calls m) RuleList = true →
          Forall (λ c, isPolicyMapCall c = true) tr)).
Proof.
  intros Hoff. destruct (cacheStatus m) eqn:Hsync.
  - destruct (reconcileLocked_calls env sched m Hsync)
      as (trRoutes & trAdd & trRemove & -> & _ & Hcalls & HtrAdd & HtrRemove).
    set (m1 := regenerateGatewayConfigs sched (refreshIndexes sched m)) in *.
    assert (Hoff1 : installRoutes m1 = false) by (rewrite <- Hoff; apply calls_refreshIndexes).
    assert (Hc1 : calls m1 = calls m) by apply calls_refreshIndexes.
    assert (Hh1 : host m1 = host m) by apply calls_refreshIndexes.
    rewrite reconcileRoutes_disabled in Hcalls by done.
    pose proof (removeUnusedIpRulesAndRoutes_calls env sched m1) as Hexact.
    cbv zeta in Hexact. rewrite Hcalls, Hc1 in Hexact. apply app_inv_head in Hexact.
    split; [| split; [done |]].
    + rewrite !Forall_app. split_and!.
      * pose proof (hostPhase_removeUnusedIpRulesAndRoutes env sched isRouteTableRemoval m1
                      eq_refl (λ _, eq_refl) eq_refl (λ _, eq_refl)) as Hh.
        destruct (hostPhase_calls _ _ _ Hh) as (tr & Htr & Hok).
        rewrite Hcalls, Hc1 in Htr. apply app_inv_head in Htr as ->.
        eapply Forall_impl; [exact Hok |]. by intros [].
      * eapply Forall_impl; [exact HtrAdd |]. by intros [].
      * eapply Forall_impl; [exact HtrRemove |]. by intros [].
    + intros _. eexists. split; [rewrite Hexact; reflexivity |]. split.
      * intros Hlist r Hr Hegress.
        destruct (removeUnusedIpRulesAndRoutes_disabled env sched m1 Hoff1) as (tr & Htr & Hdel).
        { by rewrite Hc1. }
        rewrite Hcalls, Hc1 in Htr. apply app_inv_head in Htr.
        assert (Hin : RuleDel r ∈ trRoutes).
        { rewrite Htr. apply Hdel; [by rewrite Hh1 | done]. }
        rewrite Hexact in Hin. apply elem_of_cons in Hin as [Heq|Hin]; [done |].
        apply elem_of_app. by left.
      * intros Hfail. rewrite Hfail. cbn [app]. apply Forall_app. split.
        -- eapply Forall_impl; [exact HtrAdd |].
           intros c Hc. by apply andb_true_iff in Hc as [? _].
        -- eapply Forall_impl; [exact HtrRemove |].
           intros c Hc. by apply andb_true_iff in Hc as [? _].
  - assert (Hnil : issued (reconcileLocked env sched) m = []).
    { unfold issued. rewrite reconcileLocked_skip by done. apply drop_all. }
    rewrite Hnil. split; [constructor |]. split; done.
Qed.

End RoutesDisabled.

(** C4, as the code has it, at a host that still has an ip rule of the
    egress gateway. *)
Lemma reconcileLocked_routes_disabled_witness :
  RuleDel Scenario.staleRule ∈ issued (reconcileLocked Scenario.env canonical) Scenario.stale_before.
Proof.
  destruct (reconcileLocked_routes_disabled Scenario.env canonical Scenario.stale_before
              eq_refl) as (_ & _ & Hsync).
  destruct (Hsync eq_refl) as (tr & Heq & Hdel & _).
  rewrite Heq. right. apply Hdel; [reflexivity | vm_compute; left | reflexivity].
Defined.
